(** * NDVI from cloud-optimised GeoTIFF bands: a model of the notebook

    The notebook [docs/notebooks/COG NDVI.ipynb] reads two raster bands
    through [rasterio] (cells 7 and 8) and combines them with NumPy
    (cell 10):

<<
    with rasterio.open(b3_url) as src:
        b3, b3_mask_transform = mask(dataset=src, shapes=mask_gdf.geometry, crop=True)

    np.seterr(divide='ignore', invalid='ignore')
    ndvi = (b4.astype(float) - b3.astype(float)) / (b4 + b3)
>>

    NumPy arrays are modelled as a dtype, a shape and a flat row-major
    buffer; IEEE 754 arithmetic is the one of [SpecFloat]; the
    floating-point error state that [np.seterr] writes is threaded
    explicitly. The notebook text calls [b3] the red band and [b4] the
    near-infrared band. *)

From Stdlib Require Import String ZArith List Bool Lia SpecFloat.
Import ListNotations.

(** ** Python exceptions the two cells can raise *)

(** The four floating-point conditions of [np.seterr]. *)
Inductive fperr := FPdivide | FPover | FPunder | FPinvalid.

(** The exceptions, under their Python names. The design document
    speaks of [ResourceUnavailable] for the first, [GeometryMismatch]
    for the second and [ShapeMismatch] for the third. *)
Inductive exn :=
| RasterioIOError            (* rasterio.errors.RasterioIOError *)
| ValueError_no_overlap      (* ValueError: Input shapes do not overlap raster. *)
| ValueError_broadcast       (* ValueError: operands could not be broadcast together *)
| FloatingPointError (k : fperr).

Inductive result (A : Type) :=
| Ok (a : A)
| Raise (e : exn).
Arguments Ok {A} a.
Arguments Raise {A} e.

Definition bind {A B} (r : result A) (k : A -> result B) : result B :=
  match r with
  | Ok a => k a
  | Raise e => Raise e
  end.

Notation "x <- r ;; k" := (bind r (fun x => k))
  (at level 61, r at next level, right associativity).

(** ** NumPy scalar types *)

Inductive width := W8 | W16 | W32 | W64.

Definition bits (w : width) : Z :=
  match w with W8 => 8 | W16 => 16 | W32 => 32 | W64 => 64 end%Z.

(** The raster dtypes of the integer and float classes. *)
Inductive dtype :=
| UInt (w : width)
| Int (w : width)
| Float32
| Float64.

Definition uint8 := UInt W8.
Definition uint16 := UInt W16.
Definition uint32 := UInt W32.
Definition uint64 := UInt W64.
Definition int8 := Int W8.
Definition int16 := Int W16.
Definition int32 := Int W32.
Definition int64 := Int W64.

Definition is_integer (d : dtype) : bool :=
  match d with UInt _ | Int _ => true | _ => false end.

Definition width_leb (a b : width) : bool := (bits a <=? bits b)%Z.
Definition width_ltb (a b : width) : bool := (bits a <? bits b)%Z.
Definition width_max (a b : width) : width := if width_leb a b then b else a.

Definition width_double (w : width) : option width :=
  match w with W8 => Some W16 | W16 => Some W32 | W32 => Some W64 | W64 => None end.

(** [np.promote_types]: the dtype in which a binary ufunc computes. *)
Definition promote_types (a b : dtype) : dtype :=
  match a, b with
  | Float64, _ | _, Float64 => Float64
  | Float32, Float32 => Float32
  | Float32, (UInt w | Int w) | (UInt w | Int w), Float32 =>
      if width_leb w W16 then Float32 else Float64
  | UInt v, UInt w => UInt (width_max v w)
  | Int v, Int w => Int (width_max v w)
  | UInt u, Int s | Int s, UInt u =>
      if width_ltb u s then Int s
      else match width_double u with
           | Some w => Int w
           | None => Float64
           end
  end.

(** ** Scalars and IEEE 754 formats *)

Definition prec32 : Z := 24.
Definition emax32 : Z := 128.
Definition prec64 : Z := 53.
Definition emax64 : Z := 1024.

Inductive scalar :=
| SInt (z : Z)
| SFlt (f : spec_float).

Definition int_min (d : dtype) : Z :=
  match d with
  | Int w => (- 2 ^ (bits w - 1))%Z
  | _ => 0%Z
  end.

Definition int_max (d : dtype) : Z :=
  match d with
  | UInt w => (2 ^ bits w - 1)%Z
  | Int w => (2 ^ (bits w - 1) - 1)%Z
  | _ => 0%Z
  end.

(** An element that an array of dtype [d] can hold. *)
Definition has_dtype (d : dtype) (x : scalar) : bool :=
  match d, x with
  | (UInt _ | Int _), SInt z => ((int_min d <=? z) && (z <=? int_max d))%Z
  | Float32, SFlt f => valid_binary prec32 emax32 f
  | Float64, SFlt f => valid_binary prec64 emax64 f
  | _, _ => false
  end.

(** Two's-complement wrap-around of fixed-width integer arithmetic. *)
Definition wrap (d : dtype) (z : Z) : Z :=
  match d with
  | UInt w => (z mod 2 ^ bits w)%Z
  | Int w => ((z + 2 ^ (bits w - 1)) mod 2 ^ bits w - 2 ^ (bits w - 1))%Z
  | _ => z
  end.

Definition f64_of_Z (z : Z) : spec_float :=
  binary_normalize prec64 emax64 z 0 false.

(** binary32 to binary64: every binary32 value is a binary64 value. *)
Definition f64_of_f32 (f : spec_float) : spec_float :=
  match f with
  | S754_finite s m e =>
      binary_normalize prec64 emax64 (cond_Zopp s (Zpos m)) e s
  | _ => f
  end.

Definition f32_of_Z (z : Z) : spec_float :=
  binary_normalize prec32 emax32 z 0 false.

(** The float64 value of an element of an array of dtype [d]. *)
Definition to_float64 (d : dtype) (x : scalar) : spec_float :=
  match x with
  | SInt z => f64_of_Z z
  | SFlt f => match d with Float32 => f64_of_f32 f | _ => f end
  end.

(** Safe casts along [promote_types], from dtype [d] to dtype [p]. *)
Definition cast (d p : dtype) (x : scalar) : scalar :=
  match p with
  | UInt _ | Int _ => x
  | Float32 =>
      match x with
      | SInt z => SFlt (f32_of_Z z)
      | SFlt _ => x
      end
  | Float64 => SFlt (to_float64 d x)
  end.

(** ** Floating-point status flags *)

Definition is_nan (f : spec_float) : bool :=
  match f with S754_nan => true | _ => false end.

Definition is_inf (f : spec_float) : bool :=
  match f with S754_infinity _ => true | _ => false end.

Definition is_zero (f : spec_float) : bool :=
  match f with S754_zero _ => true | _ => false end.

Definition is_finite (f : spec_float) : bool :=
  match f with S754_zero _ | S754_finite _ _ _ => true | _ => false end.

Definition is_finite_nonzero (f : spec_float) : bool :=
  match f with S754_finite _ _ _ => true | _ => false end.

(** Not-a-number or an infinity. *)
Definition non_finite (f : spec_float) : bool := negb (is_finite f).

(** The flag an addition or subtraction with result [r] raises. *)
Definition arith_flag (x y r : spec_float) : option fperr :=
  if is_nan r && negb (is_nan x || is_nan y) then Some FPinvalid
  else if is_finite x && is_finite y && is_inf r then Some FPover
  else None.

(** [r * y = x] exactly, for finite nonzero operands. *)
Definition quotient_exact (x y r : spec_float) : bool :=
  match x, y, r with
  | S754_finite _ mx ex, S754_finite _ my ey, S754_finite _ mr er =>
      let t := Z.min ex (er + ey) in
      (Zpos mx * 2 ^ (ex - t) =? Zpos mr * Zpos my * 2 ^ (er + ey - t))%Z
  | _, _, _ => false
  end.

(** Zero or subnormal in binary64. *)
Definition is_tiny (r : spec_float) : bool :=
  match r with
  | S754_zero _ => true
  | S754_finite _ m _ => (Zpos (digits2_pos m) <? prec64)%Z
  | _ => false
  end.

(** The flag a division with result [r] raises. *)
Definition div_flag (x y r : spec_float) : option fperr :=
  if is_nan r && negb (is_nan x || is_nan y) then Some FPinvalid
  else if is_finite_nonzero x && is_zero y then Some FPdivide
  else if is_finite x && is_finite y && is_inf r then Some FPover
  else if is_finite_nonzero x && is_finite_nonzero y && is_tiny r
          && negb (quotient_exact x y r) then Some FPunder
  else None.

(** ** The floating-point error state *)

Inductive errmode :=
  ModeIgnore | ModeWarn | ModeRaise | ModeCall | ModePrint | ModeLog.

Record errstate := {
  err_divide : errmode;
  err_over : errmode;
  err_under : errmode;
  err_invalid : errmode
}.

(** NumPy's settings at import. *)
Definition default_errstate : errstate :=
  {| err_divide := ModeWarn; err_over := ModeWarn;
     err_under := ModeIgnore; err_invalid := ModeWarn |}.

Definition errmode_eqb (a b : errmode) : bool :=
  match a, b with
  | ModeIgnore, ModeIgnore | ModeWarn, ModeWarn | ModeRaise, ModeRaise
  | ModeCall, ModeCall | ModePrint, ModePrint | ModeLog, ModeLog => true
  | _, _ => false
  end.

Definition mode_of (st : errstate) (k : fperr) : errmode :=
  match k with
  | FPdivide => err_divide st
  | FPover => err_over st
  | FPunder => err_under st
  | FPinvalid => err_invalid st
  end.

Definition or_keep (new : option errmode) (old : errmode) : errmode :=
  match new with Some m => m | None => old end.

(** [np.seterr(divide=, over=, under=, invalid=)]: a keyword left out
    keeps its setting. The settings are global to the interpreter. *)
Definition seterr (st : errstate) (divide over under invalid : option errmode)
  : errstate :=
  {| err_divide := or_keep divide (err_divide st);
     err_over := or_keep over (err_over st);
     err_under := or_keep under (err_under st);
     err_invalid := or_keep invalid (err_invalid st) |}.

Definition fperr_eqb (a b : fperr) : bool :=
  match a, b with
  | FPdivide, FPdivide | FPover, FPover | FPunder, FPunder
  | FPinvalid, FPinvalid => true
  | _, _ => false
  end.

Definition flag_raised (k : fperr) (flags : list (option fperr)) : bool :=
  existsb (fun o => match o with Some k' => fperr_eqb k k' | None => false end) flags.

(** After a ufunc loop the raised flags are looked up in the error state;
    only the mode ['raise'] aborts the operation. *)
Definition fp_check (st : errstate) (flags : list (option fperr)) : option exn :=
  match filter (fun k => flag_raised k flags && errmode_eqb (mode_of st k) ModeRaise)
               [FPdivide; FPover; FPunder; FPinvalid] with
  | k :: _ => Some (FloatingPointError k)
  | [] => None
  end.

(** ** Arrays *)

Record ndarray := {
  dt : dtype;
  shape : list nat;
  data : list scalar       (* row-major *)
}.

Definition size_of (s : list nat) : nat := fold_right Nat.mul 1 s.

(** The buffer has one element per index and every element is of the
    array's dtype. *)
Definition well_formed (a : ndarray) : Prop :=
  length (data a) = size_of (shape a) /\
  forallb (has_dtype (dt a)) (data a) = true.

Definition same_shape (s t : list nat) : bool :=
  if list_eq_dec Nat.eq_dec s t then true else false.

(** *** Broadcasting *)

Definition broadcast_dim (x y : nat) : option nat :=
  if x =? y then Some x
  else if x =? 1 then Some y
  else if y =? 1 then Some x
  else None.

(** Shapes are matched from the trailing dimension; the shorter one is
    completed with leading dimensions of the longer one. *)
Fixpoint broadcast_rev (a b : list nat) : option (list nat) :=
  match a, b with
  | [], _ => Some b
  | _, [] => Some a
  | x :: a', y :: b' =>
      match broadcast_dim x y, broadcast_rev a' b' with
      | Some d, Some r => Some (d :: r)
      | _, _ => None
      end
  end.

Definition broadcast_shapes (a b : list nat) : option (list nat) :=
  option_map (@rev nat) (broadcast_rev (rev a) (rev b)).

(** The multi-index of flat position [k] in an array of shape [s]. *)
Fixpoint unravel (s : list nat) (k : nat) : list nat :=
  match s with
  | [] => []
  | _ :: s' => (k / size_of s') :: unravel s' (k mod size_of s')
  end.

(** The flat position of multi-index [idx] in an array of shape [s]. *)
Fixpoint ravel (s idx : list nat) : nat :=
  match s, idx with
  | _ :: s', i :: idx' => i * size_of s' + ravel s' idx'
  | _, _ => 0
  end.

(** A dimension of extent 1 is read at index 0 whatever the index asked. *)
Fixpoint clamp (s idx : list nat) : list nat :=
  match s, idx with
  | n :: s', i :: idx' => (if n =? 1 then 0 else i) :: clamp s' idx'
  | _, _ => []
  end.

(** The position in an operand of shape [s] that feeds position [k] of
    the broadcast result of shape [out]. *)
Definition source_index (s out : list nat) (k : nat) : nat :=
  let idx := unravel out k in
  ravel s (clamp s (skipn (length out - length s) idx)).

Definition get (a : ndarray) (out : list nat) (k : nat) : scalar :=
  nth (source_index (shape a) out k) (data a) (SInt 0).

(** *** Universal functions *)

(** [a.astype(float)]: a new float64 array of the same shape. *)
Definition astype_float (a : ndarray) : ndarray :=
  {| dt := Float64; shape := shape a; data := map (fun x => SFlt (to_float64 (dt a) x)) (data a) |}.

Definition int_of (x : scalar) : Z :=
  match x with SInt z => z | SFlt _ => 0%Z end.

Definition flt_of (x : scalar) : spec_float :=
  match x with SFlt f => f | SInt z => f64_of_Z z end.

(** One step of the inner loop of [np.add] in dtype [p]: integers wrap
    around silently, floats round and may raise a flag. *)
Definition add_scalar (p : dtype) (x y : scalar) : scalar * option fperr :=
  match p with
  | UInt _ | Int _ => (SInt (wrap p (int_of x + int_of y)), None)
  | Float32 =>
      let r := SFadd prec32 emax32 (flt_of x) (flt_of y) in
      (SFlt r, arith_flag (flt_of x) (flt_of y) r)
  | Float64 =>
      let r := SFadd prec64 emax64 (flt_of x) (flt_of y) in
      (SFlt r, arith_flag (flt_of x) (flt_of y) r)
  end.

(** [np.subtract] on float64. *)
Definition sub_scalar (x y : scalar) : scalar * option fperr :=
  let r := SFsub prec64 emax64 (flt_of x) (flt_of y) in
  (SFlt r, arith_flag (flt_of x) (flt_of y) r).

(** [np.true_divide] on float64. *)
Definition div_scalar (x y : scalar) : scalar * option fperr :=
  let r := SFdiv prec64 emax64 (flt_of x) (flt_of y) in
  (SFlt r, div_flag (flt_of x) (flt_of y) r).

(** A binary ufunc: the operands are cast to [p], broadcast against
    each other and combined element by element; the flags raised in the
    loop are checked once it is over. *)
Definition ufunc2 (st : errstate) (p : dtype)
    (f : scalar -> scalar -> scalar * option fperr)
    (a b : ndarray) : result ndarray :=
  match broadcast_shapes (shape a) (shape b) with
  | None => Raise ValueError_broadcast
  | Some out =>
      let rs := map (fun k => f (cast (dt a) p (get a out k))
                               (cast (dt b) p (get b out k)))
                    (seq 0 (size_of out)) in
      match fp_check st (map snd rs) with
      | Some e => Raise e
      | None => Ok {| dt := p; shape := out; data := map fst rs |}
      end
  end.

(** [a + b] *)
Definition add (st : errstate) (a b : ndarray) : result ndarray :=
  let p := promote_types (dt a) (dt b) in
  ufunc2 st p (add_scalar p) a b.

(** [a - b], for the float64 arrays the notebook subtracts. *)
Definition subtract (st : errstate) (a b : ndarray) : result ndarray :=
  ufunc2 st Float64 sub_scalar a b.

(** [a / b], for a float64 numerator: the denominator is cast to
    float64 whatever its dtype. *)
Definition true_divide (st : errstate) (a b : ndarray) : result ndarray :=
  ufunc2 st Float64 div_scalar a b.

(** ** Cell 10: the NDVI computation

<<
    # Allow division by zero
    np.seterr(divide='ignore', invalid='ignore')

    # Calculate the NDVI
    ndvi = (b4.astype(float) - b3.astype(float)) / (b4 + b3)
>>

    The cell returns the error state it leaves behind together with the
    array bound to [ndvi], or the exception that ended it. [red] is the
    notebook's [b3] and [nir] its [b4]. *)
Definition ndvi (st : errstate) (red nir : ndarray) : errstate * result ndarray :=
  let st' := seterr st (Some ModeIgnore) None None (Some ModeIgnore) in
  (st',
   num <- subtract st' (astype_float nir) (astype_float red) ;;
   den <- add st' nir red ;;
   true_divide st' num den).

(** The array only, as the expression's value. *)
Definition ndvi_value (st : errstate) (red nir : ndarray) : result ndarray :=
  snd (ndvi st red nir).

Definition mk_array (d : dtype) (s : list nat) (xs : list scalar) : ndarray :=
  {| dt := d; shape := s; data := xs |}.

(** The scalar of dtype [d] that holds the integer [z]. *)
Definition scalar_of_Z (d : dtype) (z : Z) : scalar :=
  match d with
  | UInt _ | Int _ => SInt z
  | Float32 => SFlt (f32_of_Z z)
  | Float64 => SFlt (f64_of_Z z)
  end.

(** The sum [b4 + b3] of one near-infrared and one red element, of
    dtypes [dn] and [dr]: it is formed in the promoted dtype of the two
    bands. *)
Definition sum_elem (dr dn : dtype) (r n : scalar) : scalar :=
  let p := promote_types dn dr in
  fst (add_scalar p (cast dn p n) (cast dr p r)).

(** The quotient cell 10 computes from the two elements: the difference
    is formed in float64, and divided by the float64 image of the sum. *)
Definition ndvi_elem (dr dn : dtype) (r n : scalar) : spec_float :=
  SFdiv prec64 emax64
    (SFsub prec64 emax64 (to_float64 dn n) (to_float64 dr r))
    (to_float64 (promote_types dn dr) (sum_elem dr dn r n)).

(** The quotient with both elements promoted to float64 before any
    arithmetic, sum included. *)
Definition ndvi_promoted_elem (dr dn : dtype) (r n : scalar) : spec_float :=
  SFdiv prec64 emax64
    (SFsub prec64 emax64 (to_float64 dn n) (to_float64 dr r))
    (SFadd prec64 emax64 (to_float64 dn n) (to_float64 dr r)).

(** [x == 0] on an element. *)
Definition elem_is_zero (x : scalar) : bool :=
  match x with
  | SInt z => (z =? 0)%Z
  | SFlt f => is_zero f
  end.

(** 0.25 in binary64: [2^52 * 2^-54]. *)
Definition f64_quarter : spec_float := S754_finite false (2 ^ 52) (-54).

(** ** Cells 7 and 8: the masked read

<<
    with rasterio.open(b3_url) as src:
        b3, b3_mask_transform = mask(dataset=src, shapes=mask_gdf.geometry, crop=True)
>>

    [rasterio] and the remote store are outside the notebook; the cell is
    modelled over what it asks of them. *)
Section MaskedRead.

(** What an opened location gives access to, a mask polygon and an
    affine transform. *)
Variables dataset geometry transform : Type.

(** The raster behind a location; [None] when it cannot be opened. *)
Variable resolve : string -> option dataset.

(** [rasterio]'s test that the window of the shapes meets the raster. *)
Variable overlaps : dataset -> list geometry -> bool.

(** The windowed read with its pixels masked; [None] when the read
    fails. *)
Variable read_window :
  dataset -> list geometry -> bool -> option (ndarray * transform).

(** The dataset handles currently open in the process. *)
Record rio_state := { open_handles : list nat }.

Definition fresh_handle (hs : list nat) : nat := S (list_max hs).

(** [rasterio.open(url)] *)
Definition rio_open (w : rio_state) (url : string)
  : rio_state * result (nat * dataset) :=
  match resolve url with
  | None => (w, Raise RasterioIOError)
  | Some ds =>
      let h := fresh_handle (open_handles w) in
      ({| open_handles := h :: open_handles w |}, Ok (h, ds))
  end.

(** [src.close()], which the dataset's [__exit__] calls. *)
Definition rio_close (w : rio_state) (h : nat) : rio_state :=
  {| open_handles := remove Nat.eq_dec h (open_handles w) |}.

(** [rasterio.mask.mask(dataset, shapes, crop=crop)]: the window is
    computed before any pixel is read; shapes that miss the raster are
    an error when cropping and a warning otherwise. *)
Definition mask (ds : dataset) (shapes : list geometry) (crop : bool)
  : result (ndarray * transform) :=
  if negb (overlaps ds shapes) && crop then Raise ValueError_no_overlap
  else match read_window ds shapes crop with
       | Some r => Ok r
       | None => Raise RasterioIOError
       end.

(** The cell: the [with] statement leaves through [__exit__] whether
    its body returns or raises, and lets the exception through. *)
Definition read_masked (w : rio_state) (url : string) (shapes : list geometry)
  : rio_state * result (ndarray * transform) :=
  match rio_open w url with
  | (w1, Raise e) => (w1, Raise e)
  | (w1, Ok (h, ds)) =>
      let r := mask ds shapes true in
      (rio_close w1 h, r)
  end.

End MaskedRead.


(** ** Conditions on elements and on the error state *)

(** [x < 0] on an element. *)
Definition elem_negative (x : scalar) : bool :=
  match x with
  | SInt z => (z <? 0)%Z
  | SFlt f => SFltb f (S754_zero false)
  end.

(** [x != 0] on a finite element. *)
Definition elem_finite_nonzero (x : scalar) : bool :=
  match x with
  | SInt z => negb (z =? 0)%Z
  | SFlt f => is_finite_nonzero f
  end.

(** The exact sum of the two elements lies in the range of the integer
    dtype in which [b4 + b3] is formed; no condition when the sum is
    formed in a float dtype. *)
Definition sum_fits (dr dn : dtype) (r n : scalar) : bool :=
  let p := promote_types dn dr in
  if is_integer p
  then ((int_min p <=? int_of n + int_of r) && (int_of n + int_of r <=? int_max p))%Z
  else true.

(** 1.0 in binary64: [2^52 * 2^-52]. *)
Definition f64_one : spec_float := S754_finite false (2 ^ 52) (-52).

(** The magnitude [m * 2^e] of a finite number is at most 1. *)
Definition mag_le_one (m : positive) (e : Z) : bool :=
  ((e <=? 0) && (Zpos m <=? 2 ^ (- e)))%Z.

(** [|f| <= 1], by the value of [f]. *)
Definition unit_magnitude (f : spec_float) : bool :=
  match f with
  | S754_zero _ => true
  | S754_finite _ m e => mag_le_one m e
  | _ => false
  end.

(** [-1 <= f <= 1], as IEEE 754 compares. *)
Definition in_unit_interval (f : spec_float) : bool :=
  SFleb (SFopp f64_one) f && SFleb f f64_one.

(** No floating-point condition aborts a ufunc unless its mode is
    ['raise']. *)
Definition never_raises (st : errstate) : bool :=
  forallb (fun k => negb (errmode_eqb (mode_of st k) ModeRaise))
          [FPdivide; FPover; FPunder; FPinvalid].

(** The two modes cell 10 leaves as it finds them are not ['raise'];
    so it is in a notebook that starts from NumPy's defaults. *)
Definition ambient_ok (st : errstate) : bool :=
  negb (errmode_eqb (err_over st) ModeRaise)
  && negb (errmode_eqb (err_under st) ModeRaise).

(** The error state in which cell 10 computes. *)
Definition ndvi_errstate (st : errstate) : errstate :=
  seterr st (Some ModeIgnore) None None (Some ModeIgnore).

(** ** Example inputs *)

Definition red_3 : ndarray := mk_array uint16 [1; 1] [SInt 3].
Definition nir_5 : ndarray := mk_array uint16 [1; 1] [SInt 5].

Definition red_0 : ndarray := mk_array uint16 [1; 1; 2] [SInt 0; SInt 7].
Definition nir_0 : ndarray := mk_array uint16 [1; 1; 2] [SInt 0; SInt 9].

Definition red_111 : ndarray := mk_array uint16 [1; 1; 1] [SInt 3].
Definition nir_112 : ndarray := mk_array uint16 [1; 1; 2] [SInt 5; SInt 9].
Definition red_113 : ndarray := mk_array uint16 [1; 1; 3] [SInt 3; SInt 4; SInt 5].

(** A signed band with a negative element. *)
Definition red_neg : ndarray := mk_array int16 [1; 1; 1] [SInt (-3)].
Definition nir_pos : ndarray := mk_array int16 [1; 1; 1] [SInt 5].

(** A float band with an infinite element. *)
Definition band_inf : ndarray :=
  mk_array Float64 [1; 1; 1] [SFlt (S754_infinity false)].

(** A band of sevens. *)
Definition band_7 : ndarray := mk_array uint16 [1; 1; 2] [SInt 7; SInt 7].

(** A store with one raster, known by its bounds (left, bottom, right,
    top); a shape is a bounding box and meets the raster when the two
    rectangles intersect. *)
Definition box : Type := (Z * Z * Z * Z)%type.

Definition boxes_meet (a b : box) : bool :=
  let '(al, ab, ar, at') := a in
  let '(bl, bb, br, bt) := b in
  ((al <? br) && (bl <? ar) && (ab <? bt) && (bb <? at'))%Z.

Definition one_raster (url : string) : option box :=
  if String.eqb url "b3.tif" then Some (0, 0, 100, 100)%Z else None.

Definition any_meets (ds : box) (shapes : list box) : bool :=
  existsb (boxes_meet ds) shapes.

Definition unreadable (ds : box) (shapes : list box) (crop : bool)
  : option (ndarray * unit) := None.

(** ** Rounding, as a function on integers

    Every finite binary32 and binary64 number is an integer multiple of
    [2^-1074], the smallest positive binary64 number. Values are
    counted in that unit, so that sums and differences of numbers of
    either format are sums and differences of integers. *)

Definition scale_exp : Z := (-1074)%Z.

(** A binary format: a precision of at least one bit, a largest
    exponent of at least 2, and no number finer than [2^scale_exp]. *)
Class Format (prec emax : Z) : Prop := {
  fmt_prec : (0 < prec)%Z;
  fmt_emax : (2 <= emax)%Z;
  fmt_scale : (scale_exp <= emin prec emax)%Z
}.

(** The magnitude of a finite number, in units of [2^scale_exp]. *)
Definition SFval (x : spec_float) : Z :=
  match x with
  | S754_finite _ m e => (Zpos m * 2 ^ (e - scale_exp))%Z
  | _ => 0%Z
  end.

(** Zero, or a positive number of the format. *)
Definition nonneg_finite (prec emax : Z) (x : spec_float) : Prop :=
  match x with
  | S754_zero _ => True
  | S754_finite false m e => bounded prec emax m e = true
  | _ => False
  end.

(** A number that is not negative: zero, a positive number of the
    format, the positive infinity or not-a-number. *)
Definition not_negative (prec emax : Z) (x : spec_float) : Prop :=
  match x with
  | S754_finite false m e => bounded prec emax m e = true
  | S754_finite true _ _ | S754_infinity true => False
  | _ => True
  end.

(** The dtypes that promote to float32 with float32. *)
Definition small32 (d : dtype) : bool :=
  match d with
  | Float32 => true
  | UInt w | Int w => width_leb w W16
  | Float64 => false
  end.

(** The record [shr_1] reaches after [k >= 1] steps from the exact
    mantissa [m]: the quotient, the last bit dropped, and whether a bit
    dropped before it was set. *)
Definition shr_rec (m k : Z) : shr_record :=
  Build_shr_record (m / 2 ^ k) (Z.testbit m (k - 1))
                   (negb (m mod 2 ^ (k - 1) =? 0))%Z.

(** [m] without its [k] low bits, rounded to nearest, ties to even. *)
Definition rne (m k : Z) : Z :=
  let q := (m / 2 ^ k)%Z in
  match (2 * (m mod 2 ^ k) ?= 2 ^ k)%Z with
  | Lt => q
  | Eq => if Z.even q then q else (q + 1)%Z
  | Gt => (q + 1)%Z
  end.

(** The position, in units of [2^scale_exp], of the last bit the format
    keeps of the value [N]. *)
Definition rexp (prec emax : Z) (N : Z) : Z :=
  Z.max (Z.log2 N + 1 - prec) (emin prec emax - scale_exp).

(** The value [N] rounded to the format. *)
Definition rnd (prec emax : Z) (N : Z) : Z :=
  (rne N (rexp prec emax N) * 2 ^ rexp prec emax N)%Z.

(** The smallest positive number of the format. *)
Definition tiny (prec emax : Z) : Z := (2 ^ (emin prec emax - scale_exp))%Z.

(** What a rounding to the value [V] may return: the number of the
    format of that value and sign, or an infinity when [V] is out of
    range. *)
Definition rounds_to (prec emax : Z) (s : bool) (V : Z) (r : spec_float) : Prop :=
  match r with
  | S754_finite s' m' e' =>
      s' = s /\ (Zpos m' * 2 ^ (e' - scale_exp))%Z = V /\ bounded prec emax m' e' = true
  | S754_infinity s' => s' = s /\ (2 ^ (emax - scale_exp) <= V)%Z
  | _ => False
  end.

(** A mantissa the format can hold at exponent [f], possibly after one
    more shift. *)
Definition fits (prec emax : Z) (R f : Z) : Prop :=
  (R = 0 \/
   (0 < R /\ fexp prec emax (Zdigits2 R + f) = f) \/
   (R = 2 ^ prec /\ fexp prec emax (prec + f) = f))%Z.

(** A truncated mantissa at exponent [e], with the position of the
    exact value above it, for an exact value of at most 1. *)
Definition below_one (mrs : shr_record) (e : Z) : Prop :=
  (e <= 0 /\ 0 <= shr_m mrs <= 2 ^ (- e) /\
   (loc_of_shr_record mrs <> loc_Exact -> shr_m mrs < 2 ^ (- e)))%Z.

(** ** The notebook as a whole

    The code cells, numbered as the notebook holds them:

<<
    [1]  import rasterio
         import numpy as np
         import geopandas as gpd
         from rasterio.mask import mask     (and the other imports)
    [3]  b4_url = 'http://...B4.TIF'
         b3_url = 'http://...B3.TIF'
    [5]  mask_gdf = gpd.read_file('mask_boundary.shp')
    [7]  with rasterio.open(b3_url) as src:
             b3, b3_mask_transform = mask(dataset=src, shapes=mask_gdf.geometry, crop=True)
    [8]  with rasterio.open(b4_url) as src:
             b4, b4_mask_transform = mask(dataset=src, shapes=mask_gdf.geometry, crop=True)
    [10] np.seterr(divide='ignore', invalid='ignore')
         ndvi = (b4.astype(float) - b3.astype(float)) / (b4 + b3)
>>

    The cells share the global names of the interpreter, NumPy's error
    state and the datasets open in the process. A name is looked up
    when the statement that uses it is evaluated and not before; an
    assignment binds its targets once its right-hand side has returned.
    The last cell, [show(ndvi)], draws the array and is left out. *)

Definition B4_URL : string :=
  "http://landsat-pds.s3.amazonaws.com/c1/L8/037/024/LC08_L1TP_037024_20200824_20200905_01_T1/LC08_L1TP_037024_20200824_20200905_01_T1_B4.TIF".

Definition B3_URL : string :=
  "http://landsat-pds.s3.amazonaws.com/c1/L8/037/024/LC08_L1TP_037024_20200824_20200905_01_T1/LC08_L1TP_037024_20200824_20200905_01_T1_B3.TIF".

Definition MASK_FILE : string := "mask_boundary.shp".

(** What ends a cell early. *)
Inductive nb_exn :=
| NameError (name : string)   (* NameError: name '...' is not defined *)
| ReadFileError               (* raised by gpd.read_file on a file it cannot read *)
| LibError (e : exn).         (* raised by rasterio or NumPy *)

Inductive cell := Cell1 | Cell3 | Cell5 | Cell7 | Cell8 | Cell10.

Section Notebook.

Variables dataset geometry transform : Type.
Variable resolve : string -> option dataset.
Variable overlaps : dataset -> list geometry -> bool.
Variable read_window :
  dataset -> list geometry -> bool -> option (ndarray * transform).

(** [gpd.read_file]: the geometry column of the file; [None] when the
    file cannot be read. *)
Variable read_file : string -> option (list geometry).

(** The global names the cells bind; [None] is a name not yet bound.
    The imports of cell 1 are bound together. *)
Record globals := {
  imported : bool;
  b4_url : option string;
  b3_url : option string;
  mask_gdf : option (list geometry);
  b3 : option ndarray;
  b3_mask_transform : option transform;
  b4 : option ndarray;
  b4_mask_transform : option transform;
  ndvi_array : option ndarray       (* the name [ndvi] *)
}.

Record kernel := {
  names : globals;
  np_err : errstate;
  rio : rio_state
}.

Definition set_names (k : kernel) (g : globals) : kernel :=
  {| names := g; np_err := np_err k; rio := rio k |}.

Definition set_np_err (k : kernel) (st : errstate) : kernel :=
  {| names := names k; np_err := st; rio := rio k |}.

Definition set_rio (k : kernel) (w : rio_state) : kernel :=
  {| names := names k; np_err := np_err k; rio := w |}.

Definition bind_b3 (g : globals) (a : ndarray) (t : transform) : globals :=
  {| imported := imported g; b4_url := b4_url g; b3_url := b3_url g;
     mask_gdf := mask_gdf g;
     b3 := Some a; b3_mask_transform := Some t;
     b4 := b4 g; b4_mask_transform := b4_mask_transform g;
     ndvi_array := ndvi_array g |}.

Definition bind_b4 (g : globals) (a : ndarray) (t : transform) : globals :=
  {| imported := imported g; b4_url := b4_url g; b3_url := b3_url g;
     mask_gdf := mask_gdf g;
     b3 := b3 g; b3_mask_transform := b3_mask_transform g;
     b4 := Some a; b4_mask_transform := Some t;
     ndvi_array := ndvi_array g |}.

Definition cell_1 (k : kernel) : kernel * option nb_exn :=
  let g := names k in
  (set_names k
     {| imported := true; b4_url := b4_url g; b3_url := b3_url g;
        mask_gdf := mask_gdf g;
        b3 := b3 g; b3_mask_transform := b3_mask_transform g;
        b4 := b4 g; b4_mask_transform := b4_mask_transform g;
        ndvi_array := ndvi_array g |},
   None).

Definition cell_3 (k : kernel) : kernel * option nb_exn :=
  let g := names k in
  (set_names k
     {| imported := imported g; b4_url := Some B4_URL; b3_url := Some B3_URL;
        mask_gdf := mask_gdf g;
        b3 := b3 g; b3_mask_transform := b3_mask_transform g;
        b4 := b4 g; b4_mask_transform := b4_mask_transform g;
        ndvi_array := ndvi_array g |},
   None).

Definition cell_5 (k : kernel) : kernel * option nb_exn :=
  let g := names k in
  if negb (imported g) then (k, Some (NameError "gpd"))
  else match read_file MASK_FILE with
       | None => (k, Some ReadFileError)
       | Some shapes =>
           (set_names k
              {| imported := imported g; b4_url := b4_url g; b3_url := b3_url g;
                 mask_gdf := Some shapes;
                 b3 := b3 g; b3_mask_transform := b3_mask_transform g;
                 b4 := b4 g; b4_mask_transform := b4_mask_transform g;
                 ndvi_array := ndvi_array g |},
            None)
       end.

(** Cells 7 and 8, up to the names they read and bind. The location is
    looked up and opened before the body of the [with] statement looks
    [mask_gdf] up; whatever ends the body, the dataset is closed. *)
Definition read_band (url_name : string) (url_of : globals -> option string)
    (bind_band : globals -> ndarray -> transform -> globals)
    (k : kernel) : kernel * option nb_exn :=
  if negb (imported (names k)) then (k, Some (NameError "rasterio"))
  else match url_of (names k) with
       | None => (k, Some (NameError url_name))
       | Some url =>
           match rio_open dataset resolve (rio k) url with
           | (w1, Raise e) => (set_rio k w1, Some (LibError e))
           | (w1, Ok (h, ds)) =>
               let w2 := rio_close w1 h in
               match mask_gdf (names k) with
               | None => (set_rio k w2, Some (NameError "mask_gdf"))
               | Some shapes =>
                   match mask dataset geometry transform overlaps read_window
                              ds shapes true with
                   | Ok (a, t) =>
                       (set_rio (set_names k (bind_band (names k) a t)) w2, None)
                   | Raise e => (set_rio k w2, Some (LibError e))
                   end
               end
           end
       end.

Definition cell_7 : kernel -> kernel * option nb_exn :=
  read_band "b3_url" b3_url bind_b3.

Definition cell_8 : kernel -> kernel * option nb_exn :=
  read_band "b4_url" b4_url bind_b4.

(** Cell 10. [np.seterr] has run by the time [b4] and [b3] are looked
    up, [b4] first. *)
Definition cell_10 (k : kernel) : kernel * option nb_exn :=
  let g := names k in
  if negb (imported g) then (k, Some (NameError "np"))
  else
    match b4 g, b3 g with
    | Some nir, Some red =>
        match ndvi (np_err k) red nir with
        | (st', Ok out) =>
            (set_np_err
               (set_names k
                  {| imported := imported g; b4_url := b4_url g; b3_url := b3_url g;
                     mask_gdf := mask_gdf g;
                     b3 := b3 g; b3_mask_transform := b3_mask_transform g;
                     b4 := b4 g; b4_mask_transform := b4_mask_transform g;
                     ndvi_array := Some out |})
               st',
             None)
        | (st', Raise e) => (set_np_err k st', Some (LibError e))
        end
    | None, _ =>
        (set_np_err k (seterr (np_err k) (Some ModeIgnore) None None (Some ModeIgnore)),
         Some (NameError "b4"))
    | Some _, None =>
        (set_np_err k (seterr (np_err k) (Some ModeIgnore) None None (Some ModeIgnore)),
         Some (NameError "b3"))
    end.

Definition run_cell (c : cell) : kernel -> kernel * option nb_exn :=
  match c with
  | Cell1 => cell_1
  | Cell3 => cell_3
  | Cell5 => cell_5
  | Cell7 => cell_7
  | Cell8 => cell_8
  | Cell10 => cell_10
  end.

(** Cells run one after the other, in any order and any number of
    times, as at the keyboard: a cell that fails leaves the kernel to
    the next one. The failures are listed as they occur. *)
Fixpoint run_cells (cs : list cell) (k : kernel) : kernel * list (cell * nb_exn) :=
  match cs with
  | [] => (k, [])
  | c :: cs' =>
      let (k1, r) := run_cell c k in
      let (k2, errs) := run_cells cs' k1 in
      (k2, match r with Some e => (c, e) :: errs | None => errs end)
  end.

(** Cells run in sequence up to the first that fails, as Run All does. *)
Fixpoint run_until_error (cs : list cell) (k : kernel) : kernel * option (cell * nb_exn) :=
  match cs with
  | [] => (k, None)
  | c :: cs' =>
      match run_cell c k with
      | (k1, None) => run_until_error cs' k1
      | (k1, Some e) => (k1, Some (c, e))
      end
  end.

Definition notebook : list cell := [Cell1; Cell3; Cell5; Cell7; Cell8; Cell10].

(** A kernel just started: no name bound, NumPy's default error state,
    no dataset open. *)
Definition fresh_kernel : kernel :=
  {| names := {| imported := false; b4_url := None; b3_url := None;
                 mask_gdf := None;
                 b3 := None; b3_mask_transform := None;
                 b4 := None; b4_mask_transform := None;
                 ndvi_array := None |};
     np_err := default_errstate;
     rio := {| open_handles := [] |} |}.

(** Restart and Run All. *)
Definition run_all : kernel * option (cell * nb_exn) :=
  run_until_error notebook fresh_kernel.

End Notebook.

Arguments imported {geometry transform} g.
Arguments b4_url {geometry transform} g.
Arguments b3_url {geometry transform} g.
Arguments mask_gdf {geometry transform} g.
Arguments b3 {geometry transform} g.
Arguments b3_mask_transform {geometry transform} g.
Arguments b4 {geometry transform} g.
Arguments b4_mask_transform {geometry transform} g.
Arguments ndvi_array {geometry transform} g.
Arguments names {geometry transform} k.
Arguments np_err {geometry transform} k.
Arguments rio {geometry transform} k.
Arguments set_names {geometry transform} k g.
Arguments set_np_err {geometry transform} k st.
Arguments set_rio {geometry transform} k w.
Arguments bind_b3 {geometry transform} g a t.
Arguments bind_b4 {geometry transform} g a t.

(** A store with the two bands of the tile, both on one grid; a band
    is known by its number. Every window read returns the two pixels
    of the example arrays. *)
Definition two_bands (url : string) : option nat :=
  if String.eqb url B3_URL then Some 3
  else if String.eqb url B4_URL then Some 4
  else None.

Definition band_meets (band : nat) (shapes : list box) : bool :=
  existsb (boxes_meet (0, 0, 100, 100)%Z) shapes.

Definition band_window (band : nat) (shapes : list box) (crop : bool)
  : option (ndarray * unit) :=
  Some (if band =? 3 then red_0 else nir_0, tt).

(** A boundary file with one polygon, inside the tile. *)
Definition one_mask (file : string) : option (list box) :=
  if String.eqb file MASK_FILE then Some [(10, 10, 20, 20)%Z] else None.

(** An integer dtype of at most 32 bits: its elements, their sums and
    their differences are binary64 numbers. *)
Definition narrow_int (d : dtype) : bool :=
  match d with
  | UInt w | Int w => width_leb w W32
  | _ => false
  end.

(** [0 <= f <= 1] and [-1 <= f <= 0], as IEEE 754 compares. *)
Definition between_zero_and_one (f : spec_float) : bool :=
  SFleb (S754_zero false) f && SFleb f f64_one.

Definition between_minus_one_and_zero (f : spec_float) : bool :=
  SFleb (SFopp f64_one) f && SFleb f (S754_zero false).

(** Zero, or a binary64 number whose value is an integer of magnitude
    between 1 and [B]. Values are counted in units of [2^scale_exp]. *)
Definition int_float (B : Z) (x : spec_float) : Prop :=
  match x with
  | S754_zero _ => True
  | S754_finite _ m e =>
      bounded prec64 emax64 m e = true /\
      (2 ^ (- scale_exp) | Zpos m * 2 ^ (e - scale_exp))%Z /\
      (Zpos m * 2 ^ (e - scale_exp) <= B * 2 ^ (- scale_exp))%Z
  | _ => False
  end.

(** A flag that cell 10 does not set to ['ignore']. *)
Definition flag_left (o : option fperr) : bool :=
  match o with
  | Some FPover | Some FPunder => true
  | _ => false
  end.

(** Every condition on ['raise']. *)
Definition errstate_raise : errstate :=
  {| err_divide := ModeRaise; err_over := ModeRaise;
     err_under := ModeRaise; err_invalid := ModeRaise |}.

(** * Properties *)

(** ** Arrays of one shape: the ufunc loop is a zip *)

Lemma size_of_cons n s : size_of (n :: s) = n * size_of s.
Proof. reflexivity. Qed.

Lemma broadcast_dim_refl n : broadcast_dim n n = Some n.
Proof. unfold broadcast_dim. now rewrite Nat.eqb_refl. Qed.

Lemma broadcast_rev_refl s : broadcast_rev s s = Some s.
Proof.
  induction s as [|n s IH]; simpl; [reflexivity|].
  now rewrite broadcast_dim_refl, IH.
Qed.

Lemma broadcast_shapes_refl s : broadcast_shapes s s = Some s.
Proof.
  unfold broadcast_shapes. rewrite broadcast_rev_refl. simpl.
  now rewrite rev_involutive.
Qed.

Lemma ravel_unravel s : forall k, k < size_of s -> ravel s (clamp s (unravel s k)) = k.
Proof.
  induction s as [|n s IH]; intros k Hk.
  - simpl in *. lia.
  - rewrite size_of_cons in Hk. simpl.
    assert (Hp : size_of s <> 0) by (intro E; rewrite E in Hk; lia).
    rewrite IH by (apply Nat.mod_upper_bound; exact Hp).
    destruct (Nat.eqb_spec n 1) as [->|_].
    + rewrite Nat.mod_small by lia. lia.
    + pose proof (Nat.div_mod_eq k (size_of s)). lia.
Qed.

Lemma source_index_same s k : k < size_of s -> source_index s s k = k.
Proof.
  intros Hk. unfold source_index. rewrite Nat.sub_diag. simpl.
  now apply ravel_unravel.
Qed.

Lemma map_seq_nth2 {A B C} (g : A -> B -> C) (da : A) (db : B) :
  forall (la : list A) (lb : list B),
    length la = length lb ->
    map (fun k => g (nth k la da) (nth k lb db)) (seq 0 (length la))
    = map (fun xy => g (fst xy) (snd xy)) (combine la lb).
Proof.
  induction la as [|x la IH]; intros [|y lb] Hl; simpl in *; try discriminate.
  - reflexivity.
  - f_equal. rewrite <- seq_shift, map_map. apply IH. lia.
Qed.

Lemma fp_check_never_raises st flags :
  never_raises st = true -> fp_check st flags = None.
Proof.
  unfold never_raises, fp_check. simpl. intros H.
  repeat (apply andb_prop in H; destruct H as [?H H]).
  repeat match goal with
         | H : negb ?b = true |- _ => apply negb_true_iff in H; rewrite H
         end.
  now rewrite !andb_false_r.
Qed.

Lemma default_errstate_ok : ambient_ok default_errstate = true.
Proof. reflexivity. Qed.

Lemma ndvi_errstate_never_raises st :
  ambient_ok st = true -> never_raises (ndvi_errstate st) = true.
Proof.
  unfold ambient_ok, never_raises. simpl. intros H.
  apply andb_prop in H. destruct H as [-> ->]. reflexivity.
Qed.

Lemma ufunc2_same_shape st p f a b :
  never_raises st = true ->
  shape a = shape b ->
  length (data a) = size_of (shape a) ->
  length (data b) = size_of (shape b) ->
  ufunc2 st p f a b =
  Ok {| dt := p; shape := shape a;
        data := map (fun xy => fst (f (cast (dt a) p (fst xy)) (cast (dt b) p (snd xy))))
                    (combine (data a) (data b)) |}.
Proof.
  intros Hst Hs Ha Hb. unfold ufunc2.
  rewrite <- Hs, broadcast_shapes_refl.
  rewrite fp_check_never_raises by exact Hst.
  do 2 f_equal. rewrite map_map.
  rewrite <- Hs in Hb.
  transitivity (map (fun k => fst (f (cast (dt a) p (nth k (data a) (SInt 0)))
                                     (cast (dt b) p (nth k (data b) (SInt 0)))))
                    (seq 0 (length (data a)))).
  - rewrite Ha. apply map_ext_in. intros k Hk. apply in_seq in Hk.
    unfold get. rewrite <- Hs, !source_index_same by lia. reflexivity.
  - apply (map_seq_nth2 (fun x y => fst (f (cast (dt a) p x) (cast (dt b) p y)))).
    congruence.
Qed.

(** The value of cell 10 on two bands of one shape: element by element,
    [ndvi_elem]. *)
Lemma ndvi_same_shape st red nir :
  ambient_ok st = true ->
  shape red = shape nir ->
  length (data red) = size_of (shape red) ->
  length (data nir) = size_of (shape nir) ->
  ndvi st red nir =
  (ndvi_errstate st,
   Ok {| dt := Float64; shape := shape red;
         data := map (fun rn => SFlt (ndvi_elem (dt red) (dt nir) (fst rn) (snd rn)))
                     (combine (data red) (data nir)) |}).
Proof.
  intros Hst Hs Hr Hn. unfold ndvi. fold (ndvi_errstate st). f_equal.
  pose proof (ndvi_errstate_never_raises st Hst) as Hnr.
  unfold subtract, add, true_divide.
  rewrite (ufunc2_same_shape _ _ _ (astype_float nir) (astype_float red));
    simpl; rewrite ?length_map; auto.
  rewrite (ufunc2_same_shape _ _ _ nir red); simpl; auto.
  rewrite ufunc2_same_shape; simpl; rewrite ?length_map, ?length_combine, ?length_map; auto.
  2: { rewrite <- Hs, Hn, <- Hs, <- Hr. lia. }
  2: { rewrite <- Hs, Hn, <- Hs, <- Hr. lia. }
  assert (Hl : length (data red) = length (data nir)) by congruence.
  rewrite <- Hs. do 2 f_equal.
  revert Hl. generalize (data nir) as ln, (data red) as lr. clear.
  induction ln as [|n ln IH]; intros [|r lr] Hl; simpl in *; try discriminate;
    [reflexivity|].
  f_equal. apply IH. lia.
Qed.

Lemma ufunc2_same_shape_ok st p f a b :
  never_raises st = true ->
  shape a = shape b ->
  exists r, ufunc2 st p f a b = Ok r /\ shape r = shape a /\ dt r = p.
Proof.
  intros Hst Hs. unfold ufunc2.
  rewrite <- Hs, broadcast_shapes_refl, fp_check_never_raises by exact Hst.
  eexists. split; [reflexivity|]. now split.
Qed.

Lemma ufunc2_broadcast st p f a b :
  never_raises st = true ->
  match broadcast_shapes (shape a) (shape b) with
  | None => ufunc2 st p f a b = Raise ValueError_broadcast
  | Some s => exists r, ufunc2 st p f a b = Ok r /\ shape r = s /\ dt r = p
  end.
Proof.
  intros Hst. unfold ufunc2.
  destruct (broadcast_shapes (shape a) (shape b)) as [s|]; [|reflexivity].
  rewrite fp_check_never_raises by exact Hst.
  eexists. split; [reflexivity|]. now split.
Qed.

(** The two bands are broadcast against each other three times over:
    in the subtraction, in the sum and in the quotient of the two. *)
Lemma ndvi_broadcast st red nir :
  ambient_ok st = true ->
  match broadcast_shapes (shape nir) (shape red) with
  | None => ndvi_value st red nir = Raise ValueError_broadcast
  | Some s => exists out,
      ndvi_value st red nir = Ok out /\ shape out = s /\ dt out = Float64
  end.
Proof.
  intros Hst. pose proof (ndvi_errstate_never_raises st Hst) as Hnr.
  unfold ndvi_value, ndvi. fold (ndvi_errstate st). simpl.
  unfold subtract, add, true_divide.
  pose proof (ufunc2_broadcast (ndvi_errstate st) Float64 sub_scalar
                (astype_float nir) (astype_float red) Hnr) as H1.
  pose proof (ufunc2_broadcast (ndvi_errstate st) (promote_types (dt nir) (dt red))
                (add_scalar (promote_types (dt nir) (dt red))) nir red Hnr) as H2.
  simpl in H1.
  destruct (broadcast_shapes (shape nir) (shape red)) as [s|].
  - destruct H1 as (num & -> & Hs1 & _). destruct H2 as (den & -> & Hs2 & _).
    simpl.
    destruct (ufunc2_same_shape_ok (ndvi_errstate st) Float64 div_scalar num den Hnr)
      as (out & -> & Hs3 & Hd); [congruence|].
    exists out. repeat split; congruence.
  - now rewrite H1.
Qed.

Lemma nth_map_combine {A B C} (g : A * B -> C) (da : A) (db : B) (d : C) :
  forall (la : list A) (lb : list B) k,
    length la = length lb -> k < length la ->
    nth k (map g (combine la lb)) d = g (nth k la da, nth k lb db).
Proof.
  intros la lb k Hl Hk.
  rewrite (nth_indep _ d (g (da, db))) by (rewrite length_map, length_combine; lia).
  rewrite map_nth. f_equal. now apply combine_nth.
Qed.

(** The element of the result at flat position [k]. *)
Lemma ndvi_nth st red nir k :
  ambient_ok st = true ->
  shape red = shape nir ->
  length (data red) = size_of (shape red) ->
  length (data nir) = size_of (shape nir) ->
  k < size_of (shape red) ->
  exists out,
    ndvi_value st red nir = Ok out /\
    dt out = Float64 /\ shape out = shape red /\
    nth k (data out) (SInt 0)
    = SFlt (ndvi_elem (dt red) (dt nir)
                      (nth k (data red) (SInt 0)) (nth k (data nir) (SInt 0))).
Proof.
  intros Hst Hs Hr Hn Hk. unfold ndvi_value.
  rewrite ndvi_same_shape by assumption. simpl.
  eexists. split; [reflexivity|]. simpl. repeat split.
  rewrite (nth_map_combine _ (SInt 0) (SInt 0)); [reflexivity| |]; congruence.
Qed.

Lemma SFdiv_zero_non_finite prec emax x y :
  is_zero y = true -> non_finite (SFdiv prec emax x y) = true.
Proof. destruct y; try discriminate. intros _. now destruct x. Qed.

Lemma to_float64_zero p x :
  elem_is_zero x = true -> is_zero (to_float64 p x) = true.
Proof.
  destruct x as [z|f]; simpl.
  - intros H. apply Z.eqb_eq in H. now subst.
  - destruct f; try discriminate. now destruct p.
Qed.

(** In an integer dtype, a sum that is zero is computed as zero. *)
Lemma sum_elem_int_zero dr dn r n :
  is_integer (promote_types dn dr) = true ->
  (int_of n + int_of r = 0)%Z ->
  elem_is_zero (sum_elem dr dn r n) = true.
Proof.
  unfold sum_elem. intros Hp Hz.
  destruct (promote_types dn dr) as [w|w| |] eqn:E; try discriminate;
    unfold add_scalar, cast; cbn [fst elem_is_zero]; rewrite Hz; now destruct w.
Qed.

(** ** IEEE 754 rounding

    [SpecFloat] rounds by shifting a mantissa right one bit at a time
    while it records the bits it drops. The lemmas below relate that
    procedure to [rnd], the rounding of an integer value, which is
    monotone and leaves the numbers of the format as they are. *)

#[local] Open Scope Z_scope.

Lemma digits2_log2 m : Zpos (digits2_pos m) = Z.log2 (Zpos m) + 1.
Proof.
  induction m as [m IH|m IH|]; simpl digits2_pos.
  - rewrite Pos2Z.inj_succ, IH. simpl Z.log2. 
    destruct m; simpl; lia.
  - rewrite Pos2Z.inj_succ, IH. destruct m; simpl; lia.
  - reflexivity.
Qed.

Lemma shr_1_spec m r s :
  0 <= m -> shr_1 (Build_shr_record m r s) = Build_shr_record (m / 2) (Z.odd m) (r || s).
Proof.
  intros Hm. destruct m as [|p|p]; [reflexivity| |lia].
  destruct p as [p|p|]; unfold shr_1.
  - replace (Z.pos p~1 / 2) with (Z.pos p)
      by (apply Z.div_unique with 1; lia).
    reflexivity.
  - replace (Z.pos p~0 / 2) with (Z.pos p)
      by (apply Z.div_unique with 0; lia).
    reflexivity.
  - reflexivity.
Qed.

Lemma iter_pos_nat {A} (f : A -> A) p : forall x, iter_pos f p x = Nat.iter (Pos.to_nat p) f x.
Proof.
  induction p as [p IH|p IH|]; intros x; simpl iter_pos.
  - rewrite !IH, Pos2Nat.inj_xI.
    replace (S (2 * Pos.to_nat p)) with (S (Pos.to_nat p + Pos.to_nat p)) by lia.
    now rewrite Nat.iter_succ_r, Nat.iter_add.
  - rewrite !IH, Pos2Nat.inj_xO.
    replace (2 * Pos.to_nat p)%nat with (Pos.to_nat p + Pos.to_nat p)%nat by lia.
    now rewrite Nat.iter_add.
  - reflexivity.
Qed.

Lemma mod_pow2_succ m k :
  0 <= k -> m mod 2 ^ (k + 1) = m mod 2 ^ k + (if Z.testbit m k then 2 ^ k else 0).
Proof.
  intros Hk.
  rewrite Z.pow_add_r by lia. change (2 ^ 1) with 2.
  assert (Hp : 0 < 2 ^ k) by (apply Z.pow_pos_nonneg; lia).
  rewrite Z.rem_mul_r by lia.
  destruct (Z.testbit m k) eqn:E.
  - apply Z.testbit_true in E; [|lia]. rewrite E. lia.
  - apply Z.testbit_false in E; [|lia]. rewrite E. lia.
Qed.

Lemma shr_rec_step m k :
  0 <= m -> 1 <= k -> shr_1 (shr_rec m k) = shr_rec m (k + 1).
Proof.
  intros Hm Hk. unfold shr_rec.
  assert (Hp : 0 < 2 ^ k) by (apply Z.pow_pos_nonneg; lia).
  rewrite shr_1_spec by (apply Z.div_pos; lia).
  f_equal.
  - rewrite Z.pow_add_r, Z.div_div by lia. reflexivity.
  - replace (k + 1 - 1) with k by lia.
    rewrite Z.testbit_odd, Z.shiftr_div_pow2 by lia. reflexivity.
  - replace (k + 1 - 1) with (k - 1 + 1) by lia.
    rewrite mod_pow2_succ by lia.
    assert (H0 : 0 <= m mod 2 ^ (k - 1) < 2 ^ (k - 1))
      by (apply Z.mod_pos_bound, Z.pow_pos_nonneg; lia).
    destruct (Z.testbit m (k - 1)); simpl.
    + symmetry. apply negb_true_iff, Z.eqb_neq. lia.
    + now rewrite Z.add_0_r.
Qed.

Lemma shr_rec_first m :
  0 <= m -> shr_1 (Build_shr_record m false false) = shr_rec m 1.
Proof.
  intros Hm. rewrite shr_1_spec by exact Hm. unfold shr_rec.
  change (2 ^ 1) with 2. change (1 - 1) with 0. change (2 ^ 0) with 1.
  now rewrite Z.bit0_odd, Z.mod_1_r.
Qed.

Lemma shr_iter_exact m p :
  0 <= m ->
  iter_pos shr_1 p (Build_shr_record m false false) = shr_rec m (Zpos p).
Proof.
  intros Hm. rewrite iter_pos_nat.
  rewrite <- (Pos2Nat.id p) at 2.
  destruct (Pos2Nat.is_succ p) as [n ->].
  induction n as [|n IH].
  - simpl Nat.iter. now apply shr_rec_first.
  - rewrite Nat.iter_succ, IH.
    rewrite shr_rec_step by (try assumption; lia).
    f_equal. lia.
Qed.

Lemma Zdigits2_log2 m : 0 < m -> Zdigits2 m = Z.log2 m + 1.
Proof. destruct m; try lia. intros _. apply digits2_log2. Qed.

Lemma rne_0 m : rne m 0 = m.
Proof.
  unfold rne. change (2 ^ 0) with 1. rewrite Z.mod_1_r, Z.div_1_r. reflexivity.
Qed.

Lemma round_shr_rec m k :
  0 <= m -> 1 <= k ->
  round_nearest_even (shr_m (shr_rec m k)) (loc_of_shr_record (shr_rec m k)) = rne m k.
Proof.
  intros Hm Hk. unfold shr_rec, rne. cbn [shr_m loc_of_shr_record].
  assert (Hmod : m mod 2 ^ k
                 = m mod 2 ^ (k - 1) + (if Z.testbit m (k - 1) then 2 ^ (k - 1) else 0)).
  { rewrite <- mod_pow2_succ by lia. do 2 f_equal. lia. }
  assert (Hpow : 2 ^ k = 2 * 2 ^ (k - 1)).
  { rewrite <- Z.pow_succ_r by lia. f_equal. lia. }
  assert (Hp : 0 < 2 ^ (k - 1)) by (apply Z.pow_pos_nonneg; lia).
  assert (H0 : 0 <= m mod 2 ^ (k - 1) < 2 ^ (k - 1)) by (apply Z.mod_pos_bound; lia).
  destruct (Z.testbit m (k - 1)); destruct (Z.eqb_spec (m mod 2 ^ (k - 1)) 0) as [E|E];
    cbn [negb round_nearest_even];
    destruct (Z.compare_spec (2 * (m mod 2 ^ k)) (2 ^ k)); try lia; reflexivity.
Qed.

Lemma rne_bounds m k :
  0 <= m -> 0 <= k -> m / 2 ^ k <= rne m k <= m / 2 ^ k + 1.
Proof.
  intros Hm Hk. unfold rne.
  destruct (_ ?= _); [destruct (Z.even _)| |]; lia.
Qed.

(** Rounding is exact on multiples of [2^k]. *)
Lemma rne_exact m k :
  0 <= k -> m mod 2 ^ k = 0 -> rne m k = m / 2 ^ k.
Proof.
  intros Hk E. unfold rne. rewrite E.
  assert (Hp : 0 < 2 ^ k) by (apply Z.pow_pos_nonneg; lia).
  replace (2 * 0 ?= 2 ^ k) with Lt by (symmetry; apply Z.compare_lt_iff; lia).
  reflexivity.
Qed.

Lemma rne_scale m k c :
  0 <= k -> 0 <= c -> rne (m * 2 ^ c) (k + c) = rne m k.
Proof.
  intros Hk Hc. unfold rne.
  assert (Hpk : 0 < 2 ^ k) by (apply Z.pow_pos_nonneg; lia).
  assert (Hpc : 0 < 2 ^ c) by (apply Z.pow_pos_nonneg; lia).
  rewrite Z.pow_add_r by lia.
  rewrite Z.div_mul_cancel_r by lia.
  rewrite Z.mul_mod_distr_r by lia.
  replace (2 * (m mod 2 ^ k * 2 ^ c) ?= 2 ^ k * 2 ^ c) with (2 * (m mod 2 ^ k) ?= 2 ^ k).
  - reflexivity.
  - rewrite Z.mul_assoc. apply Zmult_compare_compat_r. lia.
Qed.

(** Rounding to a fixed position is monotone. *)
Lemma rne_mono m1 m2 k :
  0 <= k -> m1 <= m2 -> rne m1 k <= rne m2 k.
Proof.
  intros Hk Hm.
  assert (Hp : 0 < 2 ^ k) by (apply Z.pow_pos_nonneg; lia).
  pose proof (Z.div_le_mono m1 m2 (2 ^ k) Hp Hm) as Hq.
  pose proof (Z.div_mod m1 (2 ^ k) ltac:(lia)) as E1.
  pose proof (Z.div_mod m2 (2 ^ k) ltac:(lia)) as E2.
  pose proof (Z.mod_pos_bound m1 (2 ^ k) Hp) as B1.
  pose proof (Z.mod_pos_bound m2 (2 ^ k) Hp) as B2.
  unfold rne.
  destruct (Z.eq_dec (m1 / 2 ^ k) (m2 / 2 ^ k)) as [E|N].
  - rewrite <- E in *.
    assert (Hr : m1 mod 2 ^ k <= m2 mod 2 ^ k) by lia.
    destruct (Z.compare_spec (2 * (m1 mod 2 ^ k)) (2 ^ k));
      destruct (Z.compare_spec (2 * (m2 mod 2 ^ k)) (2 ^ k));
      destruct (Z.even (m1 / 2 ^ k)); lia.
  - destruct (2 * (m1 mod 2 ^ k) ?= 2 ^ k); destruct (2 * (m2 mod 2 ^ k) ?= 2 ^ k);
      destruct (Z.even (m1 / 2 ^ k)); destruct (Z.even (m2 / 2 ^ k)); lia.
Qed.

Section Format.

Variables prec emax : Z.
Context {Hfmt : Format prec emax}.

Let Hprec : 0 < prec := fmt_prec.
Let Hemax : 2 <= emax := fmt_emax.
Let Hscale : scale_exp <= emin prec emax := fmt_scale.

#[local] Abbreviation emin := (emin prec emax).
#[local] Abbreviation fexp := (fexp prec emax).
#[local] Abbreviation L := scale_exp.
#[local] Abbreviation rexp := (rexp prec emax).
#[local] Abbreviation rnd := (rnd prec emax).
#[local] Abbreviation tiny := (tiny prec emax).
#[local] Abbreviation rounds_to := (rounds_to prec emax).
#[local] Abbreviation nonneg_finite := (nonneg_finite prec emax).
#[local] Abbreviation fits := (fits prec emax).

Lemma shr_fexp_exact m e :
  0 <= m ->
  shr_fexp prec emax m e loc_Exact =
  if 0 <? fexp (Zdigits2 m + e) - e
  then (shr_rec m (fexp (Zdigits2 m + e) - e), fexp (Zdigits2 m + e))
  else (Build_shr_record m false false, e).
Proof.
  intros Hm. unfold shr_fexp, shr. cbn [shr_record_of_loc].
  destruct (fexp (Zdigits2 m + e) - e) as [|p|p] eqn:E; cbn [Z.ltb Z.compare].
  - reflexivity.
  - rewrite shr_iter_exact by exact Hm. f_equal. lia.
  - reflexivity.
Qed.

Lemma fexp_ge_emin x : emin <= fexp x.
Proof. unfold SpecFloat.fexp. lia. Qed.

Lemma emin_le : emin <= emax - prec.
Proof. unfold SpecFloat.emin. lia. Qed.

Lemma binary_round_aux_exact s m e :
  0 < m -> emin <= e -> 0 <= fexp (Zdigits2 m + e) - e ->
  rounds_to s (rne m (fexp (Zdigits2 m + e) - e) * 2 ^ (fexp (Zdigits2 m + e) - L))
            (binary_round_aux prec emax s m e loc_Exact).
Proof.
  intros Hm He Hn.
  pose proof emin_le as Hee.
  unfold binary_round_aux. rewrite shr_fexp_exact by lia.
  destruct (Z.ltb_spec 0 (fexp (Zdigits2 m + e) - e)) as [Hpos|Hz].
  - (* some bits are dropped: the mantissa has more than [prec] digits *)
    set (f := fexp (Zdigits2 m + e)) in *.
    rewrite round_shr_rec by lia.
    assert (Hf : f = Zdigits2 m + e - prec) by (unfold f, SpecFloat.fexp in *; lia).
    rewrite Zdigits2_log2 in Hf by lia.
    pose proof (Z.log2_spec m Hm) as Hlog.
    assert (Hk : f - e = Z.log2 m + 1 - prec) by lia.
    assert (Hq : 2 ^ (prec - 1) <= m / 2 ^ (f - e) < 2 ^ prec).
    { rewrite Hk. split.
      - apply Z.div_le_lower_bound; [apply Z.pow_pos_nonneg; lia|].
        rewrite <- Z.pow_add_r by lia.
        replace (Z.log2 m + 1 - prec + (prec - 1)) with (Z.log2 m) by lia. lia.
      - apply Z.div_lt_upper_bound; [apply Z.pow_pos_nonneg; lia|].
        rewrite <- Z.pow_add_r by lia.
        replace (Z.log2 m + 1 - prec + prec) with (Z.succ (Z.log2 m)) by lia. lia. }
    pose proof (rne_bounds m (f - e) ltac:(lia) ltac:(lia)) as Hr.
    set (R := rne m (f - e)) in *.
    assert (HR : 2 ^ (prec - 1) <= R <= 2 ^ prec) by lia.
    assert (Hpp : 0 < 2 ^ (prec - 1)) by (apply Z.pow_pos_nonneg; lia).
    assert (H2p : 2 ^ prec = 2 * 2 ^ (prec - 1)).
    { rewrite <- Z.pow_succ_r by lia. f_equal. lia. }
    rewrite shr_fexp_exact by lia.
    destruct (Z.eq_dec R (2 ^ prec)) as [ER|NR].
    + (* the rounded mantissa has one digit too many *)
      assert (Hd : Zdigits2 R = prec + 1).
      { rewrite Zdigits2_log2 by lia. rewrite ER, Z.log2_pow2 by lia. reflexivity. }
      rewrite Hd.
      assert (Hf2 : fexp (prec + 1 + f) = f + 1) by (unfold SpecFloat.fexp; lia).
      rewrite Hf2. replace (f + 1 - f) with 1 by lia. cbn [Z.ltb Z.compare].
      unfold shr_rec. cbn [shr_m]. change (2 ^ 1) with 2.
      assert (HR2 : R / 2 = 2 ^ (prec - 1)).
      { rewrite ER, H2p. rewrite Z.mul_comm, Z.div_mul by lia. reflexivity. }
      rewrite HR2.
      destruct (2 ^ (prec - 1)) as [|q|q] eqn:Eq; try lia.
      assert (Hval : Z.pos q * 2 ^ (f + 1 - L) = R * 2 ^ (f - L)).
      { rewrite ER, H2p.
        replace (f + 1 - L) with (Z.succ (f - L)) by lia.
        rewrite Z.pow_succ_r by lia. lia. }
      destruct (Z.leb_spec (f + 1) (emax - prec)) as [Hle|Hgt]; cbn [rounds_to].
      * repeat split; [exact Hval|].
        unfold bounded, canonical_mantissa. apply andb_true_intro. split.
        -- apply Z.eqb_eq. rewrite digits2_log2, <- Eq, Z.log2_pow2 by lia.
           unfold SpecFloat.fexp. lia.
        -- apply Z.leb_le. lia.
      * split; [reflexivity|]. rewrite <- Hval, <- Eq.
        rewrite <- Z.pow_add_r by lia. apply Z.pow_le_mono_r; lia.
    + assert (Hd : Zdigits2 R = prec).
      { rewrite Zdigits2_log2 by lia.
        rewrite (Z.log2_unique R (prec - 1)); [lia|lia|].
        replace (Z.succ (prec - 1)) with prec by lia. lia. }
      rewrite Hd.
      assert (Hf2 : fexp (prec + f) = f) by (unfold SpecFloat.fexp; lia).
      rewrite Hf2, Z.sub_diag. cbn [Z.ltb Z.compare shr_m].
      destruct R as [|q|q] eqn:Eq; try lia.
      destruct (Z.leb_spec f (emax - prec)) as [Hle|Hgt]; cbn [rounds_to].
      * repeat split.
        unfold bounded, canonical_mantissa. apply andb_true_intro. split.
        -- apply Z.eqb_eq. change (Z.pos (digits2_pos q)) with (Zdigits2 (Z.pos q)).
           rewrite Hd. exact Hf2.
        -- apply Z.leb_le. lia.
      * split; [reflexivity|].
        apply Z.le_trans with (2 ^ (prec - 1) * 2 ^ (f - L)).
        -- rewrite <- Z.pow_add_r by lia. apply Z.pow_le_mono_r; lia.
        -- apply Z.mul_le_mono_nonneg_r; [apply Z.pow_nonneg|]; lia.
  - (* nothing is dropped *)
    assert (Hf : fexp (Zdigits2 m + e) = e) by lia.
    rewrite Hf, Z.sub_diag, rne_0 in *.
    cbn [shr_m loc_of_shr_record round_nearest_even].
    rewrite shr_fexp_exact by lia. rewrite Hf, Z.sub_diag. cbn [Z.ltb Z.compare shr_m].
    destruct m as [|q|q]; try lia.
    destruct (Z.leb_spec e (emax - prec)) as [Hle|Hgt]; cbn [rounds_to].
    + repeat split.
      unfold bounded, canonical_mantissa. apply andb_true_intro. split.
      * apply Z.eqb_eq. exact Hf.
      * now apply Z.leb_le.
    + split; [reflexivity|].
      assert (Hd : Zdigits2 (Z.pos q) = prec) by (unfold SpecFloat.fexp in Hf; lia).
      rewrite Zdigits2_log2 in Hd by lia.
      pose proof (Z.log2_spec (Z.pos q) ltac:(lia)) as Hlog.
      apply Z.le_trans with (2 ^ (prec - 1) * 2 ^ (e - L)).
      * rewrite <- Z.pow_add_r by lia. apply Z.pow_le_mono_r; lia.
      * apply Z.mul_le_mono_nonneg_r; [apply Z.pow_nonneg; lia|].
        replace (prec - 1) with (Z.log2 (Z.pos q)) by lia. lia.
Qed.

Lemma rexp_scaled m e :
  0 < m -> L <= e -> rexp (m * 2 ^ (e - L)) = fexp (Zdigits2 m + e) - L.
Proof.
  intros Hm He. unfold rexp, SpecFloat.fexp.
  rewrite Z.log2_mul_pow2, Zdigits2_log2 by lia. lia.
Qed.

Lemma binary_round_spec s m e :
  emin <= e ->
  rounds_to s (rnd (Zpos m * 2 ^ (e - L))) (binary_round prec emax s m e).
Proof.
  intros He. unfold binary_round, rnd.
  rewrite rexp_scaled by lia.
  change (Z.pos (digits2_pos m)) with (Zdigits2 (Z.pos m)).
  pose proof (fexp_ge_emin (Zdigits2 (Z.pos m) + e)) as Hf.
  remember (fexp (Zdigits2 (Z.pos m) + e)) as f eqn:Ef.
  unfold shl_align.
  destruct (f - e) as [|d|d] eqn:E.
  - pose proof (binary_round_aux_exact s (Z.pos m) e ltac:(lia) He) as H.
    rewrite <- Ef, E in H. specialize (H ltac:(lia)).
    rewrite <- (rne_scale (Z.pos m) 0 (e - L)) in H by lia.
    replace (0 + (e - L)) with (f - L) in H by lia. exact H.
  - pose proof (binary_round_aux_exact s (Z.pos m) e ltac:(lia) He) as H.
    rewrite <- Ef, E in H. specialize (H ltac:(lia)).
    rewrite <- (rne_scale (Z.pos m) (Z.pos d) (e - L)) in H by lia.
    replace (Z.pos d + (e - L)) with (f - L) in H by lia. exact H.
  - fold (shift_pos d m).
    assert (Hz : Z.pos (shift_pos d m) = Z.pos m * 2 ^ Z.pos d).
    { rewrite shift_pos_correct. change (Z.pow_pos 2 d) with (2 ^ Z.pos d). lia. }
    assert (Hd : fexp (Zdigits2 (Z.pos (shift_pos d m)) + f) = f).
    { rewrite Hz, Zdigits2_log2, Z.log2_mul_pow2 by lia.
      rewrite Ef at 2. f_equal. rewrite Zdigits2_log2 by lia. lia. }
    pose proof (binary_round_aux_exact s (Z.pos (shift_pos d m)) f ltac:(lia) Hf) as H.
    rewrite Hd, Z.sub_diag in H. specialize (H ltac:(lia)).
    replace (Z.pos m * 2 ^ (e - L)) with (Z.pos (shift_pos d m) * 2 ^ (f - L)).
    + rewrite <- (rne_scale _ 0 (f - L)) in H by lia. exact H.
    + rewrite Hz, <- Z.mul_assoc, <- Z.pow_add_r by lia. do 2 f_equal. lia.
Qed.

Lemma tiny_pos : 0 < tiny.
Proof. apply Z.pow_pos_nonneg; lia. Qed.

Lemma rexp_nonneg N : 0 <= rexp N.
Proof. unfold rexp. lia. Qed.

Lemma rexp_le_log2 N : tiny <= N -> rexp N <= Z.log2 N.
Proof.
  intros HN. pose proof tiny_pos.
  assert (emin - L <= Z.log2 N) by (apply Z.log2_le_pow2; [lia|exact HN]).
  unfold rexp. lia.
Qed.

Lemma rexp_mono N1 N2 : N1 <= N2 -> rexp N1 <= rexp N2.
Proof.
  intros H. pose proof (Z.log2_le_mono _ _ H). unfold rexp. lia.
Qed.

Lemma rnd_lower N : tiny <= N -> 2 ^ Z.log2 N <= rnd N.
Proof.
  intros HN. pose proof tiny_pos. pose proof (rexp_le_log2 N HN) as HE.
  pose proof (rexp_nonneg N) as H0.
  pose proof (Z.log2_spec N ltac:(lia)) as Hlog.
  assert (Hp : 0 < 2 ^ rexp N) by (apply Z.pow_pos_nonneg; lia).
  unfold rnd.
  pose proof (rne_bounds N (rexp N) ltac:(lia) H0) as Hb.
  replace (Z.log2 N) with (Z.log2 N - rexp N + rexp N) at 1 by lia.
  rewrite Z.pow_add_r by lia.
  apply Z.mul_le_mono_nonneg_r; [lia|].
  apply Z.le_trans with (N / 2 ^ rexp N); [|lia].
  apply Z.div_le_lower_bound; [lia|].
  rewrite <- Z.pow_add_r by lia.
  replace (rexp N + (Z.log2 N - rexp N)) with (Z.log2 N) by lia. lia.
Qed.

Lemma rnd_upper N : tiny <= N -> rnd N <= 2 ^ (Z.log2 N + 1).
Proof.
  intros HN. pose proof tiny_pos. pose proof (rexp_le_log2 N HN) as HE.
  pose proof (rexp_nonneg N) as H0.
  pose proof (Z.log2_spec N ltac:(lia)) as Hlog.
  assert (Hp : 0 < 2 ^ rexp N) by (apply Z.pow_pos_nonneg; lia).
  unfold rnd.
  pose proof (rne_bounds N (rexp N) ltac:(lia) H0) as Hb.
  replace (Z.log2 N + 1) with (Z.log2 N + 1 - rexp N + rexp N) by lia.
  rewrite Z.pow_add_r by lia.
  apply Z.mul_le_mono_nonneg_r; [lia|].
  assert (N / 2 ^ rexp N < 2 ^ (Z.log2 N + 1 - rexp N)); [|lia].
  apply Z.div_lt_upper_bound; [lia|].
  rewrite <- Z.pow_add_r by lia.
  replace (rexp N + (Z.log2 N + 1 - rexp N)) with (Z.succ (Z.log2 N)) by lia. lia.
Qed.

(** Rounding is monotone. *)
Lemma rnd_mono N1 N2 : tiny <= N1 -> N1 <= N2 -> rnd N1 <= rnd N2.
Proof.
  intros H1 H12. pose proof tiny_pos.
  pose proof (rexp_mono N1 N2 H12) as HE.
  destruct (Z.eq_dec (rexp N1) (rexp N2)) as [E|N].
  - unfold rnd. rewrite E.
    apply Z.mul_le_mono_nonneg_r; [apply Z.pow_nonneg; lia|].
    apply rne_mono; [apply rexp_nonneg|exact H12].
  - apply Z.le_trans with (2 ^ (Z.log2 N1 + 1)); [now apply rnd_upper|].
    apply Z.le_trans with (2 ^ Z.log2 N2); [|apply rnd_lower; lia].
    apply Z.pow_le_mono_r; [lia|].
    unfold rexp in *. lia.
Qed.

(** A value the format holds is left as it is. *)
Lemma rnd_exact N : N mod 2 ^ rexp N = 0 -> rnd N = N.
Proof.
  intros E. pose proof (rexp_nonneg N) as H0.
  assert (Hp : 0 < 2 ^ rexp N) by (apply Z.pow_pos_nonneg; lia).
  unfold rnd. rewrite rne_exact by assumption.
  pose proof (Z.div_mod N (2 ^ rexp N) ltac:(lia)). lia.
Qed.

(** The value of a number of the format is one the format holds. *)
Lemma bounded_rexp m e :
  bounded prec emax m e = true ->
  emin <= e /\ rexp (Zpos m * 2 ^ (e - L)) = e - L.
Proof.
  unfold bounded, canonical_mantissa. intros H.
  apply andb_prop in H. destruct H as [H _]. apply Z.eqb_eq in H.
  pose proof (fexp_ge_emin (Z.pos (digits2_pos m) + e)) as Hf.
  split; [lia|].
  rewrite rexp_scaled by lia.
  change (Zdigits2 (Z.pos m)) with (Z.pos (digits2_pos m)). lia.
Qed.

Lemma rnd_bounded m e :
  bounded prec emax m e = true ->
  rnd (Zpos m * 2 ^ (e - L)) = Zpos m * 2 ^ (e - L).
Proof.
  intros H. destruct (bounded_rexp m e H) as [He Hr].
  apply rnd_exact. rewrite Hr. apply Z.mod_mul.
  apply Z.pow_nonzero; lia.
Qed.

Lemma bounded_ge_tiny m e :
  bounded prec emax m e = true -> tiny <= Zpos m * 2 ^ (e - L).
Proof.
  intros H. destruct (bounded_rexp m e H) as [He _]. unfold tiny.
  apply Z.le_trans with (1 * 2 ^ (e - L)).
  - rewrite Z.mul_1_l. apply Z.pow_le_mono_r; lia.
  - apply Z.mul_le_mono_nonneg_r; [apply Z.pow_nonneg|]; lia.
Qed.

Lemma bounded_lt_top m e :
  bounded prec emax m e = true -> Zpos m * 2 ^ (e - L) < 2 ^ (emax - L).
Proof.
  unfold bounded, canonical_mantissa. intros H.
  apply andb_prop in H. destruct H as [Hc Hb].
  apply Z.eqb_eq in Hc. apply Z.leb_le in Hb.
  rewrite digits2_log2 in Hc.
  pose proof (fexp_ge_emin (Z.log2 (Z.pos m) + 1 + e)) as Hf.
  pose proof (Z.log2_spec (Z.pos m) ltac:(lia)) as Hlog.
  assert (Hd : Z.log2 (Z.pos m) + 1 <= prec) by (unfold SpecFloat.fexp in Hc; lia).
  apply Z.lt_le_trans with (2 ^ prec * 2 ^ (e - L)).
  - apply Z.mul_lt_mono_pos_r; [apply Z.pow_pos_nonneg; lia|].
    apply Z.lt_le_trans with (2 ^ Z.succ (Z.log2 (Z.pos m))); [lia|].
    apply Z.pow_le_mono_r; lia.
  - rewrite <- Z.pow_add_r by lia. apply Z.pow_le_mono_r; lia.
Qed.

(** *** Quotients of magnitude at most one *)

Lemma below_one_shr_1 mrs e :
  below_one mrs e -> e + 1 <= 0 -> below_one (shr_1 mrs) (e + 1).
Proof.
  destruct mrs as [m r s]. unfold below_one. cbn [shr_m].
  intros (He & Hm & Hl) He1.
  rewrite shr_1_spec by lia. cbn [shr_m].
  assert (Hp : 0 < 2 ^ (- (e + 1))) by (apply Z.pow_pos_nonneg; lia).
  assert (H2 : 2 ^ (- e) = 2 * 2 ^ (- (e + 1))).
  { rewrite <- Z.pow_succ_r by lia. f_equal. lia. }
  pose proof (Z.div_mod m 2 ltac:(lia)) as Hdm.
  pose proof (Z.mod_pos_bound m 2 ltac:(lia)) as Hmb.
  split; [lia|]. split; [split; [apply Z.div_pos; lia | lia]|].
  intros Hloc.
  assert (Hcase : Z.odd m = true \/ (r || s) = true).
  { destruct (Z.odd m); [now left|]. right.
    destruct r, s; cbn in Hloc |- *; congruence. }
  destruct Hcase as [Ho|Hrs].
  - rewrite Zodd_mod in Ho. apply Z.eqb_eq in Ho. lia.
  - assert (m < 2 ^ (- e)); [|lia].
    apply Hl. destruct r, s; cbn in Hrs |- *; congruence.
Qed.

Lemma below_one_iter mrs e p :
  below_one mrs e -> e + Zpos p <= 0 ->
  below_one (iter_pos shr_1 p mrs) (e + Zpos p).
Proof.
  intros H Hp. rewrite iter_pos_nat.
  rewrite <- (positive_nat_Z p) in Hp |- *. revert Hp.
  destruct (Pos2Nat.is_succ p) as [n ->].
  induction n as [|n IH]; intros Hp.
  - simpl Nat.iter. change (Z.of_nat 1) with 1. apply below_one_shr_1; [exact H|].
    change (Z.of_nat 1) with 1 in Hp. exact Hp.
  - rewrite Nat.iter_succ. replace (e + Z.of_nat (S (S n))) with (e + Z.of_nat (S n) + 1) by lia.
    apply below_one_shr_1; [apply IH|]; lia.
Qed.

Lemma below_one_fexp m e :
  e <= 0 -> 0 <= m <= 2 ^ (- e) -> fexp (Zdigits2 m + e) <= 0.
Proof.
  intros He Hm.
  assert (Hd : Zdigits2 m + e <= 1).
  { destruct (Z.eq_dec m 0) as [->|N]; [simpl; lia|].
    rewrite Zdigits2_log2 by lia.
    assert (Z.log2 m <= - e); [|lia].
    rewrite <- (Z.log2_pow2 (- e)) by lia. apply Z.log2_le_mono. lia. }
  unfold SpecFloat.fexp, SpecFloat.emin. lia.
Qed.

Lemma loc_of_shr_record_of_loc m l :
  loc_of_shr_record (shr_record_of_loc m l) = l /\
  shr_m (shr_record_of_loc m l) = m.
Proof. destruct l as [|[]]; now split. Qed.

Lemma below_one_shr_fexp m e l :
  e <= 0 -> 0 <= m <= 2 ^ (- e) -> (l <> loc_Exact -> m < 2 ^ (- e)) ->
  below_one (fst (shr_fexp prec emax m e l)) (snd (shr_fexp prec emax m e l)).
Proof.
  intros He Hm Hl.
  pose proof (below_one_fexp m e He Hm) as Hf.
  destruct (loc_of_shr_record_of_loc m l) as [E1 E2].
  assert (H0 : below_one (shr_record_of_loc m l) e).
  { unfold below_one. rewrite E1, E2. auto. }
  unfold shr_fexp, shr.
  destruct (fexp (Zdigits2 m + e) - e) as [|p|p] eqn:E; cbn [fst snd]; try exact H0.
  apply below_one_iter; [exact H0|lia].
Qed.

Lemma below_one_round mrs e :
  below_one mrs e ->
  0 <= round_nearest_even (shr_m mrs) (loc_of_shr_record mrs) <= 2 ^ (- e).
Proof.
  intros (He & Hm & Hl). unfold round_nearest_even.
  destruct (loc_of_shr_record mrs) as [|[]]; try lia.
  - assert (shr_m mrs < 2 ^ (- e)) by (apply Hl; discriminate).
    destruct (Z.even _); lia.
  - assert (shr_m mrs < 2 ^ (- e)) by (apply Hl; discriminate). lia.
Qed.

Lemma binary_round_aux_below_one s m e l :
  e <= 0 -> 0 <= m <= 2 ^ (- e) -> (l <> loc_Exact -> m < 2 ^ (- e)) ->
  match binary_round_aux prec emax s m e l with
  | S754_finite _ m' e' => mag_le_one m' e' = true
  | _ => True
  end.
Proof.
  intros He Hm Hl. unfold binary_round_aux.
  pose proof (below_one_shr_fexp m e l He Hm Hl) as H1.
  destruct (shr_fexp prec emax m e l) as [mrs1 e1]. cbn [fst snd] in H1.
  pose proof (below_one_round mrs1 e1 H1) as HR.
  destruct H1 as (He1 & _ & _).
  pose proof (below_one_shr_fexp _ e1 loc_Exact He1 HR ltac:(congruence)) as H2.
  destruct (shr_fexp prec emax _ e1 loc_Exact) as [mrs2 e2]. cbn [fst snd] in H2.
  destruct H2 as (He2 & Hm2 & _).
  destruct (shr_m mrs2) as [|q|q]; try exact I.
  destruct (e2 <=? emax - prec); [|exact I].
  unfold mag_le_one. apply andb_true_intro. split; [apply Z.leb_le|apply Z.leb_le]; lia.
Qed.

Lemma new_location_exact n r : new_location n r <> loc_Exact -> r <> 0.
Proof.
  intros H ->. apply H. unfold new_location, new_location_even, new_location_odd.
  now destruct (Z.even n).
Qed.

(** The quotient of two finite numbers, the first of no larger
    magnitude than the second, has magnitude at most 1. *)
Lemma SFdiv_below_one sx mx ex sy my ey :
  L <= ex -> L <= ey ->
  Zpos mx * 2 ^ (ex - L) <= Zpos my * 2 ^ (ey - L) ->
  match SFdiv prec emax (S754_finite sx mx ex) (S754_finite sy my ey) with
  | S754_finite _ m e => mag_le_one m e = true
  | _ => True
  end.
Proof.
  intros Hex Hey Hle. unfold SFdiv, SFdiv_core_binary.
  set (e' := Z.min (fexp (Zdigits2 (Z.pos mx) + ex - (Zdigits2 (Z.pos my) + ey))) (ex - ey)).
  set (sh := ex - ey - e').
  assert (Hsh : 0 <= sh) by (unfold sh, e'; lia).
  assert (Hm' : match sh with
                | Z.pos _ => Z.shiftl (Z.pos mx) sh
                | 0 => Z.pos mx
                | Z.neg _ => 0
                end = Z.pos mx * 2 ^ sh).
  { destruct sh eqn:E; try lia. now rewrite Z.shiftl_mul_pow2 by lia. }
  rewrite Hm'. clear Hm'.
  assert (Hlog : Z.log2 (Z.pos mx) + ex <= Z.log2 (Z.pos my) + ey).
  { pose proof (Z.log2_le_mono _ _ Hle) as H.
    rewrite !Z.log2_mul_pow2 in H by lia. lia. }
  assert (He' : e' <= 0).
  { unfold e'. rewrite !Zdigits2_log2 by lia.
    unfold SpecFloat.fexp, SpecFloat.emin. lia. }
  assert (Hbound : Z.pos mx * 2 ^ sh <= Z.pos my * 2 ^ (- e')).
  { apply Z.mul_le_mono_pos_r with (2 ^ (ey - L)); [apply Z.pow_pos_nonneg; lia|].
    rewrite <- !Z.mul_assoc, <- !Z.pow_add_r by lia.
    replace (sh + (ey - L)) with (ex - L + - e') by (unfold sh; lia).
    replace (- e' + (ey - L)) with (ey - L + - e') by lia.
    rewrite !Z.pow_add_r, !Z.mul_assoc by lia.
    apply Z.mul_le_mono_nonneg_r; [apply Z.pow_nonneg; lia|exact Hle]. }
  pose proof (Z.div_mod (Z.pos mx * 2 ^ sh) (Z.pos my) ltac:(lia)) as Hdm.
  pose proof (Z.mod_pos_bound (Z.pos mx * 2 ^ sh) (Z.pos my) ltac:(lia)) as Hmb.
  unfold Z.div, Z.modulo in Hdm, Hmb.
  destruct (Z.div_eucl (Z.pos mx * 2 ^ sh) (Z.pos my)) as [q r].
  assert (Hp : 0 < 2 ^ (- e')) by (apply Z.pow_pos_nonneg; lia).
  assert (Hmx : 0 <= Z.pos mx * 2 ^ sh) by (apply Z.mul_nonneg_nonneg; [lia|apply Z.pow_nonneg; lia]).
  assert (Hq0 : 0 <= q) by nia.
  assert (Hq1 : q <= 2 ^ (- e')) by nia.
  apply binary_round_aux_below_one; [exact He'|lia|].
  intros Hl. apply new_location_exact in Hl. nia.
Qed.

(** *** Sums and differences of non-negative numbers *)

Lemma rne_zero k : 0 <= k -> rne 0 k = 0.
Proof.
  intros Hk. assert (Hp : 0 < 2 ^ k) by (apply Z.pow_pos_nonneg; lia).
  rewrite rne_exact by (try apply Z.mod_0_l; lia).
  apply Z.div_0_l. lia.
Qed.

Lemma rnd_zero : rnd 0 = 0.
Proof. unfold rnd. rewrite rne_zero by apply rexp_nonneg. reflexivity. Qed.

Lemma rnd_nonneg N : 0 <= N -> 0 <= rnd N.
Proof.
  intros HN. unfold rnd. pose proof (rexp_nonneg N) as H0.
  pose proof (rne_bounds N (rexp N) HN H0) as Hb.
  apply Z.mul_nonneg_nonneg; [|apply Z.pow_nonneg; lia].
  assert (0 <= N / 2 ^ rexp N) by (apply Z.div_pos; [lia|apply Z.pow_pos_nonneg; lia]).
  lia.
Qed.

Lemma rnd_mono0 N1 N2 :
  N1 = 0 \/ tiny <= N1 -> N1 <= N2 -> rnd N1 <= rnd N2.
Proof.
  intros [->|H1] H12.
  - rewrite rnd_zero. now apply rnd_nonneg.
  - now apply rnd_mono.
Qed.

Lemma shl_align_fst m e e' :
  e' <= e -> Zpos (fst (shl_align m e e')) = Zpos m * 2 ^ (e - e').
Proof.
  intros He. unfold shl_align.
  destruct (e' - e) as [|d|d] eqn:E; cbn [fst]; try lia.
  - replace (e - e') with 0 by lia. lia.
  - fold (shift_pos d m). rewrite shift_pos_correct.
    change (Z.pow_pos 2 d) with (2 ^ Z.pos d).
    replace (e - e') with (Z.pos d) by lia. lia.
Qed.

Lemma shl_align_scaled m e e' :
  L <= e' -> e' <= e ->
  Zpos (fst (shl_align m e e')) * 2 ^ (e' - L) = Zpos m * 2 ^ (e - L).
Proof.
  intros H1 H2. rewrite shl_align_fst by exact H2.
  rewrite <- Z.mul_assoc, <- Z.pow_add_r by lia. do 2 f_equal. lia.
Qed.

Lemma binary_normalize_pos z e sz :
  emin <= e -> 0 < z ->
  rounds_to false (rnd (z * 2 ^ (e - L))) (binary_normalize prec emax z e sz).
Proof.
  intros He Hz. destruct z as [|p|p]; try lia.
  now apply binary_round_spec.
Qed.

Lemma binary_normalize_neg z e sz :
  emin <= e -> z < 0 ->
  rounds_to true (rnd (- z * 2 ^ (e - L))) (binary_normalize prec emax z e sz).
Proof.
  intros He Hz. destruct z as [|p|p]; try lia.
  now apply binary_round_spec.
Qed.

Lemma SFadd_pos_spec mx ex my ey :
  bounded prec emax mx ex = true -> bounded prec emax my ey = true ->
  rounds_to false (rnd (Zpos mx * 2 ^ (ex - L) + Zpos my * 2 ^ (ey - L)))
    (SFadd prec emax (S754_finite false mx ex) (S754_finite false my ey)).
Proof.
  intros Hx Hy.
  destruct (bounded_rexp mx ex Hx) as [Hex _].
  destruct (bounded_rexp my ey Hy) as [Hey _].
  unfold SFadd. cbn [cond_Zopp].
  rewrite <- (shl_align_scaled mx ex (Z.min ex ey)) by lia.
  rewrite <- (shl_align_scaled my ey (Z.min ex ey)) by lia.
  rewrite <- Z.mul_add_distr_r.
  apply binary_normalize_pos; lia.
Qed.

Lemma SFsub_pos_spec mx ex my ey :
  bounded prec emax mx ex = true -> bounded prec emax my ey = true ->
  let X := Zpos mx * 2 ^ (ex - L) in
  let Y := Zpos my * 2 ^ (ey - L) in
  let r := SFsub prec emax (S754_finite false mx ex) (S754_finite false my ey) in
  match X ?= Y with
  | Eq => r = S754_zero false
  | Gt => rounds_to false (rnd (X - Y)) r
  | Lt => rounds_to true (rnd (Y - X)) r
  end.
Proof.
  intros Hx Hy X Y r.
  destruct (bounded_rexp mx ex Hx) as [Hex _].
  destruct (bounded_rexp my ey Hy) as [Hey _].
  unfold r, SFsub. cbn [cond_Zopp].
  set (ez := Z.min ex ey).
  assert (HX : X = Zpos (fst (shl_align mx ex ez)) * 2 ^ (ez - L))
    by (unfold X, ez; rewrite shl_align_scaled; lia).
  assert (HY : Y = Zpos (fst (shl_align my ey ez)) * 2 ^ (ez - L))
    by (unfold Y, ez; rewrite shl_align_scaled; lia).
  assert (Hp : 0 < 2 ^ (ez - L)) by (apply Z.pow_pos_nonneg; unfold ez; lia).
  set (a := Zpos (fst (shl_align mx ex ez))) in *.
  set (b := Zpos (fst (shl_align my ey ez))) in *.
  destruct (Z.compare_spec X Y) as [E|E|E].
  - assert (a = b) by nia. replace (a - b) with 0 by lia. reflexivity.
  - assert (a < b) by nia.
    replace (Y - X) with (- (a - b) * 2 ^ (ez - L)) by lia.
    apply binary_normalize_neg; unfold ez; lia.
  - assert (b < a) by nia.
    replace (X - Y) with ((a - b) * 2 ^ (ez - L)) by lia.
    apply binary_normalize_pos; unfold ez; lia.
Qed.

(** *** Every result is a number of the format *)

Lemma shr_m_shr_1 mrs : 0 <= shr_m mrs -> shr_m (shr_1 mrs) = shr_m mrs / 2.
Proof. destruct mrs as [m r s]. cbn [shr_m]. intros H. now rewrite shr_1_spec. Qed.

Lemma shr_m_iter mrs p :
  0 <= shr_m mrs -> shr_m (iter_pos shr_1 p mrs) = shr_m mrs / 2 ^ Zpos p.
Proof.
  intros Hm. rewrite iter_pos_nat, <- (positive_nat_Z p).
  induction (Pos.to_nat p) as [|n IH].
  - cbn. now rewrite Z.div_1_r.
  - rewrite Nat.iter_succ, Nat2Z.inj_succ, Z.pow_succ_r by lia.
    rewrite shr_m_shr_1, IH.
    + rewrite Z.div_div by (try apply Z.pow_pos_nonneg; lia). f_equal. lia.
    + rewrite IH. apply Z.div_pos; [lia|apply Z.pow_pos_nonneg; lia].
Qed.

(** The first shift of a rounding: the mantissa loses the bits below
    the position the format keeps. *)
Lemma shr_fexp_m m e l :
  0 <= m -> e <= fexp (Zdigits2 m + e) ->
  shr_m (fst (shr_fexp prec emax m e l)) = m / 2 ^ (fexp (Zdigits2 m + e) - e) /\
  snd (shr_fexp prec emax m e l) = fexp (Zdigits2 m + e).
Proof.
  intros Hm He. unfold shr_fexp, shr.
  destruct (loc_of_shr_record_of_loc m l) as [_ Em].
  destruct (fexp (Zdigits2 m + e) - e) as [|p|p] eqn:E; cbn [fst snd]; try lia.
  - rewrite Em, Z.div_1_r. split; [reflexivity|lia].
  - rewrite shr_m_iter, Em by (rewrite Em; exact Hm). split; [reflexivity|lia].
Qed.

Lemma round_nearest_even_cases m l :
  round_nearest_even m l = m \/ round_nearest_even m l = m + 1.
Proof. destruct l as [|[]]; cbn; auto. destruct (Z.even m); auto. Qed.

Lemma fits_valid s R f :
  emin <= f -> fits R f ->
  valid_binary prec emax
    (let '(mrs, e) := shr_fexp prec emax R f loc_Exact in
     match shr_m mrs with
     | 0 => S754_zero s
     | Z.pos m => if e <=? emax - prec then S754_finite s m e else S754_infinity s
     | Z.neg _ => S754_nan
     end) = true.
Proof.
  intros Hf [->|[[HR Hc]|[-> Hc]]].
  - rewrite shr_fexp_exact by lia. cbn [Zdigits2].
    destruct (Z.ltb_spec 0 (fexp (0 + f) - f)); [|reflexivity].
    unfold shr_rec. cbn [shr_m].
    now rewrite Z.div_0_l by (apply Z.pow_nonzero; lia).
  - rewrite shr_fexp_exact by lia. rewrite Hc, Z.sub_diag. cbn [Z.ltb Z.compare shr_m].
    destruct R as [|q|q]; try lia.
    destruct (Z.leb_spec f (emax - prec)); [|reflexivity].
    cbn [valid_binary]. unfold bounded, canonical_mantissa.
    apply andb_true_intro. split; [apply Z.eqb_eq; exact Hc|apply Z.leb_le; lia].
  - assert (Hp : 0 < 2 ^ prec) by (apply Z.pow_pos_nonneg; lia).
    rewrite shr_fexp_exact by lia.
    rewrite Zdigits2_log2, Z.log2_pow2 by lia.
    assert (Hf2 : fexp (prec + 1 + f) = f + 1) by (unfold SpecFloat.fexp in *; lia).
    rewrite Hf2. replace (f + 1 - f) with 1 by lia. cbn [Z.ltb Z.compare].
    unfold shr_rec. cbn [shr_m]. change (2 ^ 1) with 2.
    assert (H2p : 2 ^ prec = 2 * 2 ^ (prec - 1)).
    { rewrite <- Z.pow_succ_r by lia. f_equal. lia. }
    assert (HR2 : 2 ^ prec / 2 = 2 ^ (prec - 1)).
    { rewrite H2p, Z.mul_comm, Z.div_mul by lia. reflexivity. }
    rewrite HR2.
    assert (Hpp : 0 < 2 ^ (prec - 1)) by (apply Z.pow_pos_nonneg; lia).
    destruct (2 ^ (prec - 1)) as [|q|q] eqn:Eq; try lia.
    destruct (Z.leb_spec (f + 1) (emax - prec)); [|reflexivity].
    cbn [valid_binary]. unfold bounded, canonical_mantissa.
    apply andb_true_intro. split; [|apply Z.leb_le; lia].
    apply Z.eqb_eq. rewrite digits2_log2, <- Eq, Z.log2_pow2 by lia.
    unfold SpecFloat.fexp in *. lia.
Qed.

Lemma fits_round m e l :
  0 <= m -> e <= fexp (Zdigits2 m + e) ->
  fits (round_nearest_even (m / 2 ^ (fexp (Zdigits2 m + e) - e)) l)
       (fexp (Zdigits2 m + e)).
Proof.
  intros Hm He.
  set (f := fexp (Zdigits2 m + e)) in *.
  set (M := m / 2 ^ (f - e)).
  assert (Hp : 0 < 2 ^ (f - e)) by (apply Z.pow_pos_nonneg; lia).
  assert (HM : 0 <= M) by (apply Z.div_pos; lia).
  assert (Hfe : emin <= f) by (unfold f, SpecFloat.fexp; lia).
  (* the truncated mantissa is zero at the smallest exponent, or canonical *)
  assert (K : (M = 0 /\ f = emin) \/ (0 < M /\ fexp (Zdigits2 M + f) = f)).
  { destruct (Z.eq_dec m 0) as [E0|N0].
    - left. unfold M. rewrite E0, Z.div_0_l by lia. split; [reflexivity|].
      unfold f in *. rewrite E0 in *. cbn [Zdigits2] in *.
      unfold SpecFloat.fexp in *. lia.
    - assert (Hd : Zdigits2 m = Z.log2 m + 1) by (apply Zdigits2_log2; lia).
      pose proof (Z.log2_spec m ltac:(lia)) as Hl.
      pose proof (Z.log2_nonneg m) as Hl0.
      destruct (Z.lt_ge_cases (Z.log2 m) (f - e)) as [Hlt|Hge].
      + left. split.
        * unfold M. apply Z.div_small. split; [lia|].
          apply Z.lt_le_trans with (2 ^ Z.succ (Z.log2 m)); [lia|].
          apply Z.pow_le_mono_r; lia.
        * unfold f in *. rewrite Hd in *. unfold SpecFloat.fexp in *. lia.
      + right.
        assert (HMl : Z.log2 M = Z.log2 m - (f - e)).
        { unfold M. rewrite <- Z.shiftr_div_pow2 by lia.
          rewrite Z.log2_shiftr by lia. lia. }
        assert (HMpos : 0 < M).
        { unfold M. apply Z.div_str_pos. split; [lia|].
          apply Z.le_trans with (2 ^ Z.log2 m); [|lia].
          apply Z.pow_le_mono_r; lia. }
        split; [exact HMpos|].
        rewrite Zdigits2_log2, HMl by lia.
        replace (Z.log2 m - (f - e) + 1 + f) with (Zdigits2 m + e) by lia.
        reflexivity. }
  destruct (round_nearest_even_cases M l) as [->| ->].
  - destruct K as [[-> _]|K]; [now left|right; now left].
  - destruct K as [[-> Ef]|[HMpos Hc]].
    + right. left. split; [lia|].
      change (Zdigits2 (0 + 1)) with 1. rewrite Ef.
      unfold SpecFloat.fexp, SpecFloat.emin. lia.
    + pose proof (Z.log2_spec M HMpos) as Hl.
      pose proof (Z.log2_nonneg M) as Hl0.
      rewrite Zdigits2_log2 in Hc by lia.
      destruct (Z.eq_dec (M + 1) (2 ^ Z.succ (Z.log2 M))) as [E|N].
      * destruct (Z.eq_dec (Z.log2 M + 1) prec) as [Ep|Np].
        -- right. right. split.
           ++ rewrite E. f_equal. lia.
           ++ rewrite Ep in Hc. exact Hc.
        -- right. left. split; [lia|].
           rewrite Zdigits2_log2, E, Z.log2_pow2 by lia.
           unfold SpecFloat.fexp in *. lia.
      * right. left. split; [lia|].
        rewrite Zdigits2_log2 by lia.
        rewrite (Z.log2_unique (M + 1) (Z.log2 M)); [exact Hc|lia|lia].
Qed.

(** Whatever it starts from, a rounding returns a number of the
    format, an infinity or a zero. *)
Lemma binary_round_aux_valid s m e l :
  0 <= m -> e <= fexp (Zdigits2 m + e) ->
  valid_binary prec emax (binary_round_aux prec emax s m e l) = true.
Proof.
  intros Hm He. unfold binary_round_aux.
  destruct (shr_fexp_m m e l Hm He) as [E1 E2].
  destruct (shr_fexp prec emax m e l) as [mrs1 e1]. cbn [fst snd] in E1, E2.
  rewrite E1, E2.
  apply fits_valid.
  - unfold SpecFloat.fexp. lia.
  - now apply fits_round.
Qed.

Lemma fexp_mono x y : x <= y -> fexp x <= fexp y.
Proof. unfold SpecFloat.fexp. lia. Qed.

(** The truncated quotient of a division has at least the digits the
    format keeps. *)
Lemma SFdiv_core_binary_digits m1 e1 m2 e2 :
  0 < m1 -> 0 < m2 ->
  let '(q, e', _) := SFdiv_core_binary prec emax m1 e1 m2 e2 in
  0 <= q /\ e' <= fexp (Zdigits2 q + e').
Proof.
  intros H1 H2. unfold SFdiv_core_binary.
  set (delta := Zdigits2 m1 + e1 - (Zdigits2 m2 + e2)).
  set (e' := Z.min (fexp delta) (e1 - e2)).
  set (sh := e1 - e2 - e').
  assert (Hsh : 0 <= sh) by (unfold sh, e'; lia).
  assert (Hm' : match sh with
                | Z.pos _ => Z.shiftl m1 sh
                | 0 => m1
                | Z.neg _ => 0
                end = m1 * 2 ^ sh).
  { destruct sh eqn:E; try lia. now rewrite Z.shiftl_mul_pow2 by lia. }
  rewrite Hm'. clear Hm'.
  pose proof (Z.div_mod (m1 * 2 ^ sh) m2 ltac:(lia)) as Hdm.
  pose proof (Z.mod_pos_bound (m1 * 2 ^ sh) m2 ltac:(lia)) as Hmb.
  unfold Z.div, Z.modulo in Hdm, Hmb.
  destruct (Z.div_eucl (m1 * 2 ^ sh) m2) as [q r].
  assert (Hp : 0 < 2 ^ sh) by (apply Z.pow_pos_nonneg; lia).
  assert (Hn : 0 < m1 * 2 ^ sh) by (apply Z.mul_pos_pos; lia).
  assert (Hq : 0 <= q) by nia.
  split; [exact Hq|].
  pose proof (Z.log2_spec m1 H1) as L1. pose proof (Z.log2_spec m2 H2) as L2.
  pose proof (Z.log2_nonneg m1) as N1. pose proof (Z.log2_nonneg m2) as N2.
  assert (Hd : delta = Z.log2 m1 + e1 - (Z.log2 m2 + e2))
    by (unfold delta; rewrite !Zdigits2_log2 by lia; lia).
  (* [q + 1] exceeds [2^(log2 m1 + sh - log2 m2 - 1)] *)
  assert (Hlow : 2 ^ (Z.log2 m1 + sh) < (q + 1) * 2 ^ Z.succ (Z.log2 m2)).
  { apply Z.le_lt_trans with (m1 * 2 ^ sh).
    - rewrite Z.pow_add_r by lia. apply Z.mul_le_mono_nonneg_r; lia.
    - apply Z.lt_le_trans with ((q + 1) * m2); [nia|].
      apply Z.mul_le_mono_nonneg_l; lia. }
  destruct (Z.eq_dec q 0) as [E0|N0].
  - (* the quotient is below the smallest number *)
    rewrite E0 in *. cbn [Zdigits2 Z.add].
    assert (Z.log2 m1 + sh < Z.succ (Z.log2 m2)).
    { apply (Z.pow_lt_mono_r_iff 2); lia. }
    assert (delta <= e') by (unfold sh in *; lia).
    assert (e' <= fexp delta) by (unfold e'; lia).
    unfold SpecFloat.fexp in *. lia.
  - assert (Hqd : Zdigits2 q + e' >= delta).
    { rewrite Zdigits2_log2 by lia.
      destruct (Z.le_gt_cases 0 (Z.log2 m1 + sh - Z.succ (Z.log2 m2))) as [Hk|Hk].
      - assert (2 ^ (Z.log2 m1 + sh - Z.succ (Z.log2 m2)) <= q).
        { assert (2 ^ (Z.log2 m1 + sh - Z.succ (Z.log2 m2)) < q + 1); [|lia].
          apply Z.mul_lt_mono_pos_r with (2 ^ Z.succ (Z.log2 m2));
            [apply Z.pow_pos_nonneg; lia|].
          rewrite <- Z.pow_add_r by lia.
          replace (Z.log2 m1 + sh - Z.succ (Z.log2 m2) + Z.succ (Z.log2 m2))
            with (Z.log2 m1 + sh) by lia.
          exact Hlow. }
        assert (Z.log2 m1 + sh - Z.succ (Z.log2 m2) <= Z.log2 q)
          by (apply Z.log2_le_pow2; lia).
        unfold sh in *. lia.
      - pose proof (Z.log2_nonneg q). unfold sh in *. lia. }
    apply Z.le_trans with (fexp delta); [unfold e'; lia|].
    apply fexp_mono. lia.
Qed.

(** A quotient is a number of the format, an infinity, a zero or
    not-a-number. *)
Lemma SFdiv_valid x y : valid_binary prec emax (SFdiv prec emax x y) = true.
Proof.
  destruct x as [sx|sx| |sx mx ex], y as [sy|sy| |sy my ey]; try reflexivity.
  unfold SFdiv.
  pose proof (SFdiv_core_binary_digits (Zpos mx) ex (Zpos my) ey ltac:(lia) ltac:(lia)) as H.
  destruct (SFdiv_core_binary prec emax (Z.pos mx) ex (Z.pos my) ey) as [[q e'] l].
  destruct H as [Hq He]. now apply binary_round_aux_valid.
Qed.

(** *** Numbers that are not negative *)

Lemma rounds_to_cases s V r :
  rounds_to s V r ->
  r = S754_infinity s \/
  exists m e, r = S754_finite s m e /\ bounded prec emax m e = true /\ SFval r = V.
Proof.
  destruct r as [| s' | | s' m e]; cbn; try contradiction.
  - intros [-> _]. now left.
  - intros (-> & HV & Hb). right. now exists m, e.
Qed.

Lemma bounded_multiple m e :
  bounded prec emax m e = true -> (tiny | Zpos m * 2 ^ (e - L)).
Proof.
  intros H. destruct (bounded_rexp m e H) as [He _].
  unfold tiny.
  replace (e - L) with (e - emin + (emin - L)) by lia.
  rewrite Z.pow_add_r, Z.mul_assoc by lia.
  apply Z.divide_factor_r.
Qed.

Lemma nonneg_finite_val x :
  nonneg_finite x -> (SFval x = 0 \/ tiny <= SFval x) /\ rnd (SFval x) = SFval x.
Proof.
  destruct x as [s| | |[] m e]; cbn; try contradiction; intros H.
  - split; [now left|]. now apply rnd_zero.
  - split; [right; now apply bounded_ge_tiny|]. now apply rnd_bounded.
Qed.

Lemma SFadd_nonneg x y :
  nonneg_finite x -> nonneg_finite y ->
  let d := SFadd prec emax x y in
  is_nan d = false /\
  (is_finite d = true ->
   nonneg_finite d /\ SFval d = rnd (SFval x + SFval y)).
Proof.
  intros Hx Hy.
  destruct (nonneg_finite_val x Hx) as [_ Ex].
  destruct (nonneg_finite_val y Hy) as [_ Ey].
  destruct x as [sx| | |[] mx ex], y as [sy| | |[] my ey]; try contradiction.
  - cbn. split; [now destruct sx, sy|]. intros _.
    split; [now destruct sx, sy|]. rewrite rnd_zero.
    now destruct sx, sy.
  - cbn -[SFval]. split; [reflexivity|]. intros _. split; [exact Hy|].
    change (SFval (S754_zero sx)) with 0. now rewrite Z.add_0_l, Ey.
  - cbn -[SFval]. split; [reflexivity|]. intros _. split; [exact Hx|].
    change (SFval (S754_zero sy)) with 0. now rewrite Z.add_0_r, Ex.
  - pose proof (SFadd_pos_spec mx ex my ey Hx Hy) as H.
    apply rounds_to_cases in H. destruct H as [->|(m & e & -> & Hb & HV)].
    + cbn. split; [reflexivity|discriminate].
    + split; [reflexivity|]. intros _. split; [exact Hb|exact HV].
Qed.

Lemma SFsub_nonneg x y :
  nonneg_finite x -> nonneg_finite y ->
  let d := SFsub prec emax x y in
  is_finite d = true ->
  SFval d <= Z.max (SFval x) (SFval y) /\
  (forall s m e, d = S754_finite s m e -> bounded prec emax m e = true).
Proof.
  intros Hx Hy.
  destruct (nonneg_finite_val x Hx) as [Tx Ex].
  destruct (nonneg_finite_val y Hy) as [Ty Ey].
  destruct x as [sx| | |[] mx ex], y as [sy| | |[] my ey]; try contradiction.
  - destruct sx, sy; cbn; intros _; (split; [lia|discriminate]).
  - cbn [SFsub negb SFval]. intros _.
    assert (0 <= Z.pos my * 2 ^ (ey - L))
      by (apply Z.mul_nonneg_nonneg; [lia|apply Z.pow_nonneg; lia]).
    split; [lia|]. intros s m e [= _ <- <-]. exact Hy.
  - cbn [SFsub SFval]. intros _.
    assert (0 <= Z.pos mx * 2 ^ (ex - L))
      by (apply Z.mul_nonneg_nonneg; [lia|apply Z.pow_nonneg; lia]).
    split; [lia|]. intros s m e [= _ <- <-]. exact Hx.
  - pose proof (SFsub_pos_spec mx ex my ey Hx Hy) as H.
    cbn zeta in H. cbn [SFval] in *.
    set (X := Z.pos mx * 2 ^ (ex - L)) in *.
    set (Y := Z.pos my * 2 ^ (ey - L)) in *.
    pose proof (bounded_multiple mx ex Hx) as Dx. fold X in Dx.
    pose proof (bounded_multiple my ey Hy) as Dy. fold Y in Dy.
    pose proof tiny_pos as Ht.
    set (d := SFsub prec emax _ _) in *.
    intros Hfin.
    destruct (Z.compare_spec X Y) as [E|E|E].
    + rewrite H. cbn [SFval]. split; [lia|discriminate].
    + assert (Hge : tiny <= Y - X).
      { apply Z.divide_pos_le; [lia|]. now apply Z.divide_sub_r. }
      apply rounds_to_cases in H. destruct H as [H|(m & e & H & Hb & HV)].
      * rewrite H in Hfin. discriminate.
      * split.
        -- assert (rnd (Y - X) <= rnd Y) by (apply rnd_mono; lia). lia.
        -- intros s' m' e' E'. rewrite H in E'. now injection E' as _ <- <-.
    + assert (Hge : tiny <= X - Y).
      { apply Z.divide_pos_le; [lia|]. now apply Z.divide_sub_r. }
      apply rounds_to_cases in H. destruct H as [H|(m & e & H & Hb & HV)].
      * rewrite H in Hfin. discriminate.
      * split.
        -- assert (rnd (X - Y) <= rnd X) by (apply rnd_mono; lia). lia.
        -- intros s' m' e' E'. rewrite H in E'. now injection E' as _ <- <-.
Qed.

(** The sum of a number with itself is not zero. *)
Lemma SFadd_self s m e :
  bounded prec emax m e = true ->
  exists V, rounds_to s V (SFadd prec emax (S754_finite s m e) (S754_finite s m e)).
Proof.
  intros Hb. destruct (bounded_rexp m e Hb) as [He _].
  unfold SFadd. rewrite Z.min_id.
  assert (Ha : Zpos (fst (shl_align m e e)) = Zpos m)
    by (rewrite shl_align_fst, Z.sub_diag by lia; lia).
  rewrite Ha. eexists. destruct s; cbn [cond_Zopp].
  - apply binary_normalize_neg; lia.
  - apply binary_normalize_pos; lia.
Qed.

(** The difference of a finite number with itself is [+0]. *)
Lemma SFsub_self x :
  is_finite x = true -> SFsub prec emax x x = S754_zero false.
Proof.
  destruct x as [[]| | |s m e]; try discriminate; try reflexivity.
  intros _. unfold SFsub. now rewrite Z.sub_diag.
Qed.

Lemma rounds_to_nonzero s V r :
  rounds_to s V r -> is_zero r = false /\ is_nan r = false.
Proof. destruct r; cbn; try contradiction; now split. Qed.

End Format.

#[export] Instance binary64 : Format prec64 emax64.
Proof. split; unfold prec64, emax64, scale_exp, emin; lia. Qed.

#[export] Instance binary32 : Format prec32 emax32.
Proof. split; unfold prec32, emax32, scale_exp, emin; lia. Qed.

#[local] Close Scope Z_scope.

(** ** The two formats of the notebook's bands *)

#[local] Open Scope Z_scope.

Lemma rexp_64_le_32 N : rexp prec64 emax64 N <= rexp prec32 emax32 N.
Proof. unfold rexp, emin, prec64, emax64, prec32, emax32, scale_exp. lia. Qed.

(** A binary32 number is a binary64 number. *)
Lemma rnd64_bounded32 m e :
  bounded prec32 emax32 m e = true ->
  rnd prec64 emax64 (Zpos m * 2 ^ (e - scale_exp)) = Zpos m * 2 ^ (e - scale_exp).
Proof.
  intros Hb. destruct (bounded_rexp prec32 emax32 m e Hb) as [He Hr].
  apply rnd_exact; [exact _|].
  pose proof (rexp_64_le_32 (Zpos m * 2 ^ (e - scale_exp))) as Hle.
  pose proof (rexp_nonneg prec64 emax64 (Zpos m * 2 ^ (e - scale_exp))) as H0.
  rewrite Hr in Hle.
  apply Z.mod_divide; [apply Z.pow_nonzero; lia|].
  apply Z.divide_mul_r.
  exists (2 ^ (e - scale_exp - rexp prec64 emax64 (Zpos m * 2 ^ (e - scale_exp)))).
  rewrite <- Z.pow_add_r by lia. f_equal. lia.
Qed.

Lemma f64_of_f32_rounds s m e :
  bounded prec32 emax32 m e = true ->
  rounds_to prec64 emax64 s (Zpos m * 2 ^ (e - scale_exp))
            (f64_of_f32 (S754_finite s m e)).
Proof.
  intros Hb. destruct (bounded_rexp prec32 emax32 m e Hb) as [He _].
  assert (He' : emin prec64 emax64 <= e)
    by (unfold emin, prec32, emax32, prec64, emax64 in *; lia).
  rewrite <- (rnd64_bounded32 m e Hb).
  unfold f64_of_f32. destruct s; cbn [cond_Zopp].
  - replace (Z.pos m) with (- - Z.pos m) at 1 by lia.
    apply binary_normalize_neg; [exact _|exact He'|lia].
  - apply binary_normalize_pos; [exact _|exact He'|lia].
Qed.

Lemma f64_of_f32_finite s m e :
  bounded prec32 emax32 m e = true ->
  exists m' e',
    f64_of_f32 (S754_finite s m e) = S754_finite s m' e' /\
    bounded prec64 emax64 m' e' = true /\
    Zpos m' * 2 ^ (e' - scale_exp) = Zpos m * 2 ^ (e - scale_exp).
Proof.
  intros Hb. pose proof (f64_of_f32_rounds s m e Hb) as H.
  destruct (f64_of_f32 _) as [| s' | | s' m' e']; cbn [rounds_to] in H;
    try contradiction.
  - exfalso. destruct H as [_ H].
    pose proof (bounded_lt_top prec32 emax32 m e Hb) as Hlt.
    assert (2 ^ (emax32 - scale_exp) <= 2 ^ (emax64 - scale_exp))
      by (apply Z.pow_le_mono_r; unfold emax32, emax64, scale_exp; lia).
    lia.
  - destruct H as (-> & HV & Hb'). now exists m', e'.
Qed.

Lemma f64_of_f32_nonneg x :
  nonneg_finite prec32 emax32 x ->
  nonneg_finite prec64 emax64 (f64_of_f32 x) /\ SFval (f64_of_f32 x) = SFval x.
Proof.
  destruct x as [s| | |[] m e]; cbn [nonneg_finite]; try contradiction.
  - now split.
  - intros Hb. destruct (f64_of_f32_finite false m e Hb) as (m' & e' & -> & Hb' & HV).
    now split.
Qed.

(** *** Integers as floats *)

Lemma f64_of_Z_nonneg z :
  0 <= z ->
  f64_of_Z z = S754_infinity false \/
  (nonneg_finite prec64 emax64 (f64_of_Z z) /\
   SFval (f64_of_Z z) = rnd prec64 emax64 (z * 2 ^ (- scale_exp))).
Proof.
  intros Hz. destruct (Z.eq_dec z 0) as [->|N].
  - right. split; [exact I|]. now rewrite Z.mul_0_l, rnd_zero by exact _.
  - pose proof (binary_normalize_pos prec64 emax64 z 0 false
                  ltac:(unfold emin, prec64, emax64; lia) ltac:(lia)) as H.
    change (0 - scale_exp) with (- scale_exp) in H. fold (f64_of_Z z) in H.
    apply rounds_to_cases in H. destruct H as [H|(m & e & H & Hb & HV)].
    + now left.
    + right. rewrite H in *. now split.
Qed.

Lemma f64_of_Z_finite z :
  - 2 ^ 64 <= z <= 2 ^ 64 -> is_finite (f64_of_Z z) = true.
Proof.
  intros Hz.
  assert (Hbig : forall N, 1 <= N <= 2 ^ 64 * 2 ^ (- scale_exp) ->
                           rnd prec64 emax64 N < 2 ^ (emax64 - scale_exp)).
  { intros N HN.
    pose proof (rnd_upper prec64 emax64 N) as Hu.
    specialize (Hu ltac:(unfold tiny, emin, prec64, emax64, scale_exp; cbn; lia)).
    apply Z.le_lt_trans with (2 ^ (Z.log2 N + 1)); [exact Hu|].
    apply Z.pow_lt_mono_r; [lia|unfold emax64, scale_exp; lia|].
    assert (Z.log2 N <= Z.log2 (2 ^ 64 * 2 ^ (- scale_exp))) by (apply Z.log2_le_mono; lia).
    rewrite <- Z.pow_add_r, Z.log2_pow2 in H by (unfold scale_exp; lia).
    unfold emax64, scale_exp in *. lia. }
  assert (Hc : 0 < 2 ^ (- scale_exp)) by (apply Z.pow_pos_nonneg; unfold scale_exp; lia).
  destruct (Z.lt_trichotomy z 0) as [Hn|[->|Hp]].
  - pose proof (binary_normalize_neg prec64 emax64 z 0 false
                  ltac:(unfold emin, prec64, emax64; lia) Hn) as H.
    change (0 - scale_exp) with (- scale_exp) in H. fold (f64_of_Z z) in H.
    destruct (f64_of_Z z); cbn [rounds_to is_finite] in H |- *;
      try contradiction; try reflexivity.
    destruct H as [_ H].
    assert (HN : 1 <= - z * 2 ^ (- scale_exp) <= 2 ^ 64 * 2 ^ (- scale_exp)).
    { split; [|apply Z.mul_le_mono_nonneg_r; lia].
      apply Z.le_trans with (1 * 2 ^ (- scale_exp)); [lia|].
      apply Z.mul_le_mono_nonneg_r; lia. }
    specialize (Hbig _ HN). lia.
  - reflexivity.
  - pose proof (binary_normalize_pos prec64 emax64 z 0 false
                  ltac:(unfold emin, prec64, emax64; lia) Hp) as H.
    change (0 - scale_exp) with (- scale_exp) in H. fold (f64_of_Z z) in H.
    destruct (f64_of_Z z); cbn [rounds_to is_finite] in H |- *;
      try contradiction; try reflexivity.
    destruct H as [_ H].
    assert (HN : 1 <= z * 2 ^ (- scale_exp) <= 2 ^ 64 * 2 ^ (- scale_exp)).
    { split; [|apply Z.mul_le_mono_nonneg_r; lia].
      apply Z.le_trans with (1 * 2 ^ (- scale_exp)); [lia|].
      apply Z.mul_le_mono_nonneg_r; lia. }
    specialize (Hbig _ HN). lia.
Qed.

Lemma f64_of_Z_nonzero z :
  z <> 0 -> is_zero (f64_of_Z z) = false /\ is_nan (f64_of_Z z) = false.
Proof.
  intros Hz. destruct (Z.lt_trichotomy z 0) as [Hn|[->|Hp]]; [| lia |].
  - pose proof (binary_normalize_neg prec64 emax64 z 0 false
                  ltac:(unfold emin, prec64, emax64; lia) Hn) as H.
    now apply rounds_to_nonzero in H.
  - pose proof (binary_normalize_pos prec64 emax64 z 0 false
                  ltac:(unfold emin, prec64, emax64; lia) Hp) as H.
    now apply rounds_to_nonzero in H.
Qed.

(** Integers below [2^24] are numbers of both formats. *)
Lemma small_int_exact prec emax `{Format prec emax} z :
  24 <= prec -> 0 <= z < 2 ^ 24 ->
  rnd prec emax (z * 2 ^ (- scale_exp)) = z * 2 ^ (- scale_exp).
Proof.
  intros Hp Hz. pose proof fmt_scale as Hs. pose proof fmt_emax as He.
  destruct (Z.eq_dec z 0) as [->|N]; [now rewrite Z.mul_0_l, rnd_zero|].
  apply rnd_exact; [exact _|].
  assert (Hlog : Z.log2 z < 24) by (apply Z.log2_lt_pow2; lia).
  assert (Hr : rexp prec emax (z * 2 ^ (- scale_exp)) <= - scale_exp).
  { unfold rexp. rewrite Z.log2_mul_pow2 by (unfold scale_exp; lia).
    unfold emin, scale_exp in *. lia. }
  pose proof (rexp_nonneg prec emax (z * 2 ^ (- scale_exp))) as H0.
  apply Z.mod_divide; [apply Z.pow_nonzero; lia|].
  apply Z.divide_mul_r.
  exists (2 ^ (- scale_exp - rexp prec emax (z * 2 ^ (- scale_exp)))).
  rewrite <- Z.pow_add_r by lia. f_equal. lia.
Qed.

Lemma f32_of_Z_small z :
  0 <= z < 2 ^ 24 ->
  nonneg_finite prec32 emax32 (f32_of_Z z) /\
  SFval (f32_of_Z z) = z * 2 ^ (- scale_exp).
Proof.
  intros Hz. destruct (Z.eq_dec z 0) as [->|N]; [now split|].
  pose proof (binary_normalize_pos prec32 emax32 z 0 false
                ltac:(unfold emin, prec32, emax32; lia) ltac:(lia)) as H.
  change (0 - scale_exp) with (- scale_exp) in H. fold (f32_of_Z z) in H.
  rewrite small_int_exact in H by (try exact _; unfold prec32; lia).
  destruct (f32_of_Z z) as [| s' | | s' m' e']; cbn [rounds_to] in H; try contradiction.
  - exfalso. destruct H as [_ H].
    assert (H0 : z * 2 ^ (- scale_exp) < 2 ^ 24 * 2 ^ (- scale_exp))
      by (apply Z.mul_lt_mono_pos_r; [apply Z.pow_pos_nonneg; unfold scale_exp|]; lia).
    rewrite <- Z.pow_add_r in H0 by (unfold scale_exp; lia).
    assert (2 ^ (24 + - scale_exp) <= 2 ^ (emax32 - scale_exp))
      by (apply Z.pow_le_mono_r; unfold emax32, scale_exp; lia).
    lia.
  - destruct H as (-> & HV & Hb). now split.
Qed.

(** *** The interval from -1 to 1 *)

Lemma bounded64_digits m e :
  bounded prec64 emax64 m e = true ->
  Zpos m < 2 ^ 53 /\ (2 ^ 52 <= Zpos m \/ e = -1074).
Proof.
  unfold bounded, canonical_mantissa. intros H.
  apply andb_prop in H. destruct H as [Hc _]. apply Z.eqb_eq in Hc.
  rewrite digits2_log2 in Hc.
  pose proof (Z.log2_spec (Zpos m) ltac:(lia)) as Hl.
  unfold fexp, emin, prec64, emax64 in Hc.
  assert (Hd : Z.log2 (Zpos m) <= 52) by lia.
  split.
  - apply Z.lt_le_trans with (2 ^ Z.succ (Z.log2 (Zpos m))); [lia|].
    apply Z.pow_le_mono_r; lia.
  - destruct (Z.eq_dec e (-1074)) as [|N]; [now right|left].
    replace 52 with (Z.log2 (Zpos m)) by lia. lia.
Qed.

(** On the numbers of binary64, a magnitude of at most 1 is what the
    comparisons with -1 and with 1 decide. *)
Lemma unit_magnitude_leb f :
  valid_binary prec64 emax64 f = true ->
  unit_magnitude f = in_unit_interval f.
Proof.
  unfold in_unit_interval.
  destruct f as [s|[]| |s m e]; intros Hb; try reflexivity.
  - cbn [valid_binary] in Hb.
    destruct (bounded64_digits m e Hb) as [Hlt Hge].
    assert (Hcmp : (Z.pos m ?= 2 ^ 52) = (m ?= 2 ^ 52)%positive) by reflexivity.
    cbn [unit_magnitude]. unfold mag_le_one, SFleb, SFcompare, f64_one, SFopp.
    cbn [negb].
    assert (Hmag : forall b : bool,
               (b = true <-> (e < -52 \/ (e = -52 /\ Zpos m <= 2 ^ 52))) ->
               (e <=? 0) && (Z.pos m <=? 2 ^ (- e)) = b).
    { intros b Hb'. destruct b.
      - apply andb_true_intro. destruct (proj1 Hb' eq_refl) as [H|[-> H]].
        + split; [apply Z.leb_le; lia|apply Z.leb_le].
          apply Z.le_trans with (2 ^ 53); [lia|]. apply Z.pow_le_mono_r; lia.
        + split; [reflexivity|apply Z.leb_le; exact H].
      - apply andb_false_iff.
        destruct (Z.leb_spec e 0) as [He|He]; [right|now left].
        apply Z.leb_gt.
        destruct (Z.lt_trichotomy e (-52)) as [H|[H|H]].
        + assert (false = true) by (apply Hb'; now left). discriminate.
        + subst e. change (2 ^ (- -52)) with (2 ^ 52).
          destruct (Z.le_gt_cases (Zpos m) (2 ^ 52)) as [H|H]; [|lia].
          assert (false = true) by (apply Hb'; right; now split). discriminate.
        + destruct Hge as [Hge|Hge]; [|lia].
          apply Z.lt_le_trans with (2 ^ 52); [|exact Hge].
          apply Z.pow_lt_mono_r; lia. }
    apply Hmag.
    destruct s; cbn [andb];
      destruct (Z.compare_spec (-52) e) as [E|E|E];
      destruct (Z.compare_spec e (-52)) as [E'|E'|E']; try lia;
      rewrite ?Pos.compare_cont_spec; cbn [Pos.switch_Eq];
      try (split; [discriminate|intros [?|[? ?]]; lia]);
      try (split; [intros _|reflexivity]; lia).
    all: assert (HP : Zpos (2 ^ 52)%positive = 2 ^ 52) by reflexivity.
    + destruct (Pos.compare_spec (2 ^ 52) m) as [H|H|H]; cbn [Pos.switch_Eq CompOpp andb];
        (split; [intros H1|intros [?|[_ H1]]]); try reflexivity; try discriminate;
        try lia; right; split; lia.
    + destruct (Pos.compare_spec m (2 ^ 52)) as [H|H|H]; cbn [Pos.switch_Eq];
        (split; [intros H1|intros [?|[_ H1]]]); try reflexivity; try discriminate;
        try lia; right; split; lia.
Qed.

#[local] Close Scope Z_scope.

(** ** Elements of the bands *)

#[local] Open Scope Z_scope.

Lemma wrap_fits d v :
  is_integer d = true -> int_min d <= v <= int_max d -> wrap d v = v.
Proof.
  destruct d as [w|w| |]; try discriminate; intros _; unfold wrap, int_min, int_max.
  - intros H. apply Z.mod_small.
    assert (0 < 2 ^ bits w) by (destruct w; cbn; lia). lia.
  - intros H.
    assert (E : 2 ^ bits w = 2 * 2 ^ (bits w - 1)) by (destruct w; reflexivity).
    assert (0 < 2 ^ (bits w - 1)) by (destruct w; cbn; lia).
    rewrite Z.mod_small by lia. lia.
Qed.

Lemma promote_types_refl d : promote_types d d = d.
Proof. now destruct d as [[]|[]| |]. Qed.

Lemma promote_types_integer a b :
  is_integer (promote_types a b) = true ->
  is_integer a = true /\ is_integer b = true.
Proof.
  destruct a as [[]|[]| |], b as [[]|[]| |]; cbn; intros H;
    try discriminate; now split.
Qed.

Lemma promote_types_float32 a b :
  promote_types a b = Float32 -> small32 a = true /\ small32 b = true.
Proof.
  destruct a as [[]|[]| |], b as [[]|[]| |]; cbn; intros H;
    try discriminate; now split.
Qed.

Lemma has_dtype_integer d x :
  is_integer d = true -> has_dtype d x = true ->
  exists z, x = SInt z /\ int_min d <= z <= int_max d.
Proof.
  destruct d as [w|w| |], x as [z|f]; try discriminate; intros _ H;
    cbn [has_dtype] in H; apply andb_prop in H; destruct H as [H1 H2];
    apply Z.leb_le in H1, H2; exists z; (split; [reflexivity|lia]).
Qed.

Lemma small32_int_max d :
  is_integer d = true -> small32 d = true -> int_max d < 2 ^ 24.
Proof. destruct d as [[]|[]| |]; cbn; intros; try discriminate; lia. Qed.

(** The float64 image of an element that is not negative is not
    negative. *)
Lemma to_float64_not_negative d x :
  has_dtype d x = true -> elem_negative x = false ->
  not_negative prec64 emax64 (to_float64 d x).
Proof.
  intros Hd Hn.
  destruct (is_integer d) eqn:Ei.
  - destruct (has_dtype_integer d x Ei Hd) as (z & -> & Hz).
    cbn in Hn. apply Z.ltb_ge in Hn. cbn [to_float64].
    destruct (f64_of_Z_nonneg z Hn) as [->|[H _]]; [exact I|].
    destruct (f64_of_Z z) as [| | |[] m e]; cbn in H |- *; try contradiction; auto.
  - destruct d as [w|w| |]; try discriminate; destruct x as [z|f]; try discriminate;
      cbn [has_dtype to_float64 elem_negative] in *.
    + destruct f as [s|[]| |[] m e]; try exact I; try discriminate.
      destruct (f64_of_f32_nonneg (S754_finite false m e) Hd) as [Hd' _].
      destruct (f64_of_f32 _) as [| | |[] m' e']; cbn in Hd' |- *; try contradiction; auto.
    + destruct f as [s|[]| |[] m e]; try exact I; try discriminate. exact Hd.
Qed.

Lemma SFsub_not_negative x y :
  not_negative prec64 emax64 x -> not_negative prec64 emax64 y ->
  non_finite (SFsub prec64 emax64 x y) = true \/
  (nonneg_finite prec64 emax64 x /\ nonneg_finite prec64 emax64 y).
Proof.
  destruct x as [sx|[]| |[] mx ex], y as [sy|[]| |[] my ey]; cbn [not_negative];
    try contradiction; intros Hx Hy;
    try (left; reflexivity); right; now split.
Qed.

Lemma SFdiv_non_finite_num prec emax x y :
  non_finite x = true -> non_finite (SFdiv prec emax x y) = true.
Proof. destruct x, y; try discriminate; reflexivity. Qed.

(** A quotient whose numerator is no larger in magnitude than a finite
    denominator lies between -1 and 1, or is not finite. *)
Lemma SFdiv_unit num den :
  is_finite num = true ->
  (forall s m e, num = S754_finite s m e -> bounded prec64 emax64 m e = true) ->
  (forall s m e, den = S754_finite s m e ->
                 bounded prec64 emax64 m e = true /\ SFval num <= SFval den) ->
  unit_magnitude (SFdiv prec64 emax64 num den)
  || non_finite (SFdiv prec64 emax64 num den) = true.
Proof.
  intros Hf Hn Hd.
  destruct num as [sn| | |sn mn en]; try discriminate;
    destruct den as [sd|sd| |sd md ed]; try reflexivity.
  destruct (Hd sd md ed eq_refl) as [Hbd Hle].
  pose proof (Hn sn mn en eq_refl) as Hbn.
  destruct (bounded_rexp prec64 emax64 mn en Hbn) as [Hen _].
  destruct (bounded_rexp prec64 emax64 md ed Hbd) as [Hed _].
  pose proof (SFdiv_below_one prec64 emax64 sn mn en sd md ed) as H.
  specialize (H ltac:(unfold emin, prec64, emax64, scale_exp in *; lia)
                ltac:(unfold emin, prec64, emax64, scale_exp in *; lia) Hle).
  destruct (SFdiv prec64 emax64 _ _); cbn [unit_magnitude non_finite is_finite negb];
    try reflexivity.
  now rewrite H.
Qed.

(** An element of a dtype that promotes to float32 has the same value
    as a float32 and as a float64. *)
Lemma cast32_nonneg d x :
  small32 d = true -> has_dtype d x = true -> elem_negative x = false ->
  nonneg_finite prec64 emax64 (to_float64 d x) ->
  nonneg_finite prec32 emax32 (flt_of (cast d Float32 x)) /\
  SFval (flt_of (cast d Float32 x)) = SFval (to_float64 d x).
Proof.
  intros Hs Hd Hn Hx.
  destruct (is_integer d) eqn:Ei.
  - destruct (has_dtype_integer d x Ei Hd) as (z & -> & Hz).
    pose proof (small32_int_max d Ei Hs) as Hmax.
    cbn in Hn. apply Z.ltb_ge in Hn.
    cbn [cast flt_of to_float64] in *.
    destruct (f32_of_Z_small z ltac:(lia)) as [H1 H2].
    split; [exact H1|]. rewrite H2.
    destruct (f64_of_Z_nonneg z Hn) as [E|[_ E]].
    + rewrite E in Hx. contradiction.
    + rewrite E. symmetry. apply small_int_exact; [exact _|unfold prec64; lia|lia].
  - destruct d as [w|w| |]; try discriminate; destruct x as [z|f]; try discriminate.
    cbn [has_dtype cast flt_of to_float64 elem_negative] in *.
    destruct f as [s|[]| |[] m e]; try discriminate; try contradiction.
    + now split.
    + split; [exact Hd|]. symmetry.
      now apply (f64_of_f32_nonneg (S754_finite false m e)).
Qed.

(** The denominator cell 10 forms, when finite, is at least as large
    as each of the two elements. *)
Lemma den_bound dr dn r n :
  has_dtype dn n = true -> has_dtype dr r = true ->
  elem_negative n = false -> elem_negative r = false ->
  sum_fits dr dn r n = true ->
  nonneg_finite prec64 emax64 (to_float64 dn n) ->
  nonneg_finite prec64 emax64 (to_float64 dr r) ->
  forall s m e,
    to_float64 (promote_types dn dr) (sum_elem dr dn r n) = S754_finite s m e ->
    bounded prec64 emax64 m e = true /\
    SFval (to_float64 dn n) <= SFval (S754_finite s m e) /\
    SFval (to_float64 dr r) <= SFval (S754_finite s m e).
Proof.
  intros Hdn Hdr Hnn Hnr Hfit HX HY s m e.
  destruct (nonneg_finite_val prec64 emax64 _ HX) as [TX EX].
  destruct (nonneg_finite_val prec64 emax64 _ HY) as [TY EY].
  assert (PX : 0 <= SFval (to_float64 dn n))
    by (pose proof (tiny_pos prec64 emax64); lia).
  assert (PY : 0 <= SFval (to_float64 dr r))
    by (pose proof (tiny_pos prec64 emax64); lia).
  unfold sum_fits, sum_elem in *.
  destruct (promote_types dn dr) as [w|w| |] eqn:Ep.
  1, 2:
    (assert (Hi : is_integer (promote_types dn dr) = true) by (now rewrite Ep);
     destruct (promote_types_integer dn dr Hi) as [Hin Hir];
     destruct (has_dtype_integer dn n Hin Hdn) as (zn & -> & Hzn);
     destruct (has_dtype_integer dr r Hir Hdr) as (zr & -> & Hzr);
     cbn in Hnn, Hnr; apply Z.ltb_ge in Hnn, Hnr;
     cbn [is_integer] in Hfit; apply andb_prop in Hfit; destruct Hfit as [F1 F2];
     apply Z.leb_le in F1, F2;
     cbn [cast add_scalar fst int_of to_float64] in *;
     rewrite wrap_fits by (try reflexivity; lia);
     intros ED;
     destruct (f64_of_Z_nonneg (zn + zr) ltac:(lia)) as [E|[HD VD]];
       [rewrite E in ED; discriminate|];
     rewrite ED in HD, VD;
     destruct s; [contradiction|]; split; [exact HD|];
     assert (Hc : 0 < 2 ^ (- scale_exp)) by (apply Z.pow_pos_nonneg; unfold scale_exp; lia);
     destruct (f64_of_Z_nonneg zn Hnn) as [E|[_ VX]]; [rewrite E in HX; contradiction|];
     destruct (f64_of_Z_nonneg zr Hnr) as [E|[_ VY]]; [rewrite E in HY; contradiction|];
     rewrite VD, VX, VY;
     split; apply rnd_mono0; try exact _;
       try (apply Z.mul_le_mono_nonneg_r; lia);
       match goal with
       | |- ?z * _ = 0 \/ _ =>
           destruct (Z.eq_dec z 0) as [->|N]; [now left|right];
           unfold tiny, emin, prec64, emax64, scale_exp; cbn; nia
       end).
  - (* the sum is formed in float32 *)
    destruct (promote_types_float32 dn dr Ep) as [Sn Sr].
    destruct (cast32_nonneg dn n Sn Hdn Hnn HX) as [Hn32 Vn].
    destruct (cast32_nonneg dr r Sr Hdr Hnr HY) as [Hr32 Vr].
    cbn [add_scalar fst to_float64].
    set (n32 := flt_of (cast dn Float32 n)) in *.
    set (r32 := flt_of (cast dr Float32 r)) in *.
    destruct (SFadd_nonneg prec32 emax32 n32 r32 Hn32 Hr32) as [Hnan Hfin].
    destruct (nonneg_finite_val prec32 emax32 _ Hn32) as [Tn En].
    destruct (nonneg_finite_val prec32 emax32 _ Hr32) as [Tr Er].
    intros ED.
    assert (Hf : is_finite (SFadd prec32 emax32 n32 r32) = true).
    { destruct (SFadd prec32 emax32 n32 r32); try reflexivity; discriminate. }
    destruct (Hfin Hf) as [HD VD].
    destruct (f64_of_f32_nonneg _ HD) as [HD' VD'].
    rewrite ED in HD', VD'.
    destruct s; [contradiction|]. split; [exact HD'|].
    rewrite VD', VD, <- Vn, <- Vr.
    assert (0 <= SFval n32) by lia. assert (0 <= SFval r32) by lia.
    split.
    + rewrite <- En at 1. apply rnd_mono0; [exact _|exact Tn|lia].
    + rewrite <- Er at 1. apply rnd_mono0; [exact _|exact Tr|lia].
  - (* the sum is formed in float64 *)
    cbn [cast add_scalar fst flt_of to_float64].
    destruct (SFadd_nonneg prec64 emax64 _ _ HX HY) as [Hnan Hfin].
    intros ED. rewrite ED in Hfin.
    destruct (Hfin eq_refl) as [HD VD].
    destruct s; [contradiction|]. split; [exact HD|].
    rewrite VD. split.
    + rewrite <- EX at 1. apply rnd_mono0; [exact _|exact TX|lia].
    + rewrite <- EY at 1. apply rnd_mono0; [exact _|exact TY|lia].
Qed.

(** Two elements that are not negative, whose sum fits the integer
    dtype it is formed in: the quotient lies between -1 and 1 or is not
    finite. *)
Lemma ndvi_elem_unit dr dn r n :
  has_dtype dn n = true -> has_dtype dr r = true ->
  elem_negative n = false -> elem_negative r = false ->
  sum_fits dr dn r n = true ->
  in_unit_interval (ndvi_elem dr dn r n) || non_finite (ndvi_elem dr dn r n) = true.
Proof.
  intros Hdn Hdr Hnn Hnr Hfit.
  rewrite <- unit_magnitude_leb by apply (SFdiv_valid prec64 emax64).
  unfold ndvi_elem.
  pose proof (to_float64_not_negative dn n Hdn Hnn) as NX.
  pose proof (to_float64_not_negative dr r Hdr Hnr) as NY.
  destruct (SFsub_not_negative _ _ NX NY) as [Hnf|[HX HY]].
  - rewrite (SFdiv_non_finite_num _ _ _ _ Hnf). apply orb_true_r.
  - destruct (is_finite (SFsub prec64 emax64 (to_float64 dn n) (to_float64 dr r))) eqn:Ef.
    + destruct (SFsub_nonneg prec64 emax64 _ _ HX HY Ef) as [Hle Hb].
      apply SFdiv_unit; [exact Ef|exact Hb|].
      intros s m e ED.
      destruct (den_bound dr dn r n Hdn Hdr Hnn Hnr Hfit HX HY s m e ED) as (HB & H1 & H2).
      split; [exact HB|]. rewrite ED. lia.
    + rewrite SFdiv_non_finite_num; [apply orb_true_r|].
      unfold non_finite. now rewrite Ef.
Qed.

(** A finite element has a finite float64 image. *)
Lemma to_float64_finite d x :
  has_dtype d x = true -> elem_finite_nonzero x = true ->
  is_finite (to_float64 d x) = true.
Proof.
  intros Hd Hx. destruct (is_integer d) eqn:Ei.
  - destruct (has_dtype_integer d x Ei Hd) as (z & -> & Hz).
    cbn [to_float64]. apply f64_of_Z_finite.
    destruct d as [[]|[]| |]; try discriminate; cbn in Hz; lia.
  - destruct d as [w|w| |]; try discriminate; destruct x as [z|f]; try discriminate;
      cbn [has_dtype to_float64 elem_finite_nonzero] in *.
    + destruct f as [| | |s m e]; try discriminate.
      destruct (f64_of_f32_finite s m e Hd) as (m' & e' & -> & _). reflexivity.
    + now destruct f.
Qed.

(** The denominator of two equal elements that are not zero is not zero. *)
Lemma den_self_nonzero d x :
  has_dtype d x = true -> elem_finite_nonzero x = true -> sum_fits d d x x = true ->
  let D := to_float64 (promote_types d d) (sum_elem d d x x) in
  is_zero D = false /\ is_nan D = false.
Proof.
  intros Hd Hx Hfit. unfold sum_fits, sum_elem in *.
  rewrite promote_types_refl in *.
  destruct (is_integer d) eqn:Ei.
  - destruct (has_dtype_integer d x Ei Hd) as (z & -> & Hz).
    apply andb_prop in Hfit. destruct Hfit as [F1 F2]. apply Z.leb_le in F1, F2.
    cbn [int_of elem_finite_nonzero] in *.
    apply negb_true_iff, Z.eqb_neq in Hx.
    destruct d as [w|w| |]; try discriminate;
      cbn [cast add_scalar fst int_of to_float64];
      rewrite wrap_fits by (try reflexivity; lia);
      apply f64_of_Z_nonzero; lia.
  - destruct d as [w|w| |]; try discriminate; destruct x as [z|f]; try discriminate;
      cbn [has_dtype elem_finite_nonzero cast add_scalar fst flt_of to_float64] in *;
      destruct f as [| | |s m e]; try discriminate.
    + destruct (SFadd_self prec32 emax32 s m e Hd) as [V HV].
      destruct (SFadd prec32 emax32 _ _) as [| s' | | s' m' e'];
        cbn [rounds_to] in HV; try contradiction.
      * now split.
      * destruct HV as (_ & _ & Hb).
        pose proof (f64_of_f32_rounds s' m' e' Hb) as HV'.
        now apply rounds_to_nonzero in HV'.
    + destruct (SFadd_self prec64 emax64 s m e Hd) as [V HV].
      now apply rounds_to_nonzero in HV.
Qed.

(** Two equal elements, finite and not zero, whose sum fits the integer
    dtype it is formed in: the quotient is zero. *)
Lemma ndvi_elem_equal d x :
  has_dtype d x = true -> elem_finite_nonzero x = true -> sum_fits d d x x = true ->
  is_zero (ndvi_elem d d x x) = true.
Proof.
  intros Hd Hx Hfit. unfold ndvi_elem.
  rewrite (SFsub_self prec64 emax64) by (now apply to_float64_finite).
  destruct (den_self_nonzero d x Hd Hx Hfit) as [Hz Hn].
  destruct (to_float64 _ _); try discriminate; reflexivity.
Qed.

#[local] Close Scope Z_scope.

(** ** The claims on the band ratio *)



(** C2. Two uint16 bands whose sum exceeds 65535: the difference is
    formed in float64, the sum [b4 + b3] in uint16, where it wraps
    around. With red 30000 and near infrared 40000 the denominator is
    4464 and not 70000, and the quotient differs from the one of the
    promoted elements. *)
Theorem ndvi_uint16_sum_wraps :
  ndvi_value default_errstate (mk_array uint16 [1; 1; 1] [SInt 30000])
                              (mk_array uint16 [1; 1; 1] [SInt 40000])
  = Ok (mk_array Float64 [1; 1; 1]
          [SFlt (SFdiv prec64 emax64 (f64_of_Z 10000) (f64_of_Z 4464))]) /\
  ndvi_promoted_elem uint16 uint16 (SInt 30000) (SInt 40000)
  = SFdiv prec64 emax64 (f64_of_Z 10000) (f64_of_Z 70000) /\
  SFeqb (ndvi_elem uint16 uint16 (SInt 30000) (SInt 40000))
        (ndvi_promoted_elem uint16 uint16 (SInt 30000) (SInt 40000)) = false.
Proof. repeat split; vm_compute; reflexivity. Qed.



Lemma well_formed_nth a k :
  well_formed a -> k < size_of (shape a) ->
  has_dtype (dt a) (nth k (data a) (SInt 0)) = true.
Proof.
  intros [Hl Hf] Hk. rewrite forallb_forall in Hf.
  apply Hf, nth_In. lia.
Qed.

(** The result is a well-formed float64 array: each of its elements is
    a binary64 number, an infinity, a zero or not-a-number. *)
Lemma ndvi_well_formed st red nir :
  ambient_ok st = true ->
  shape red = shape nir ->
  length (data red) = size_of (shape red) ->
  length (data nir) = size_of (shape nir) ->
  exists out,
    ndvi_value st red nir = Ok out /\ dt out = Float64 /\ well_formed out.
Proof.
  intros Hst Hs Hr Hn. unfold ndvi_value.
  rewrite ndvi_same_shape by assumption. cbn [snd].
  eexists. split; [reflexivity|]. split; [reflexivity|].
  split; cbn [data shape dt].
  - rewrite length_map, length_combine. rewrite <- Hs in Hn. lia.
  - apply forallb_forall. intros x Hx. apply in_map_iff in Hx.
    destruct Hx as (rn & <- & _). apply (SFdiv_valid prec64 emax64).
Qed.












(** C10, as the claim states it, fails: run in NumPy's default error
    state, cell 10 leaves another error state behind. *)
Lemma ndvi_changes_errstate :
  fst (ndvi default_errstate red_3 nir_5)
  = {| err_divide := ModeIgnore; err_over := ModeWarn;
       err_under := ModeIgnore; err_invalid := ModeIgnore |} /\
  err_divide default_errstate = ModeWarn /\
  err_invalid default_errstate = ModeWarn.
Proof. repeat split. Qed.

(** C10, amended. Of the global floating-point error state the
    computation overwrites the [divide] and [invalid] settings with
    ['ignore'] and leaves the [over] and [under] settings as they were;
    the state it leaves behind is the same whether it returns or
    raises and whatever the bands hold. *)
Theorem ndvi_frame st red nir :
  fst (ndvi st red nir)
  = {| err_divide := ModeIgnore; err_over := err_over st;
       err_under := err_under st; err_invalid := ModeIgnore |}.
Proof. reflexivity. Qed.

(** ** The claims on the masked read *)

Section MaskedReadProperties.

Variables dataset geometry transform : Type.
Variable resolve : string -> option dataset.
Variable overlaps : dataset -> list geometry -> bool.
Variable read_window :
  dataset -> list geometry -> bool -> option (ndarray * transform).

Let read := read_masked dataset geometry transform resolve overlaps read_window.

Lemma fresh_handle_not_in hs : ~ In (fresh_handle hs) hs.
Proof.
  intros H. unfold fresh_handle in H.
  pose proof (proj1 (list_max_le hs (list_max hs)) (Nat.le_refl _)) as Hle.
  rewrite Forall_forall in Hle. apply Hle in H. lia.
Qed.

Lemma close_after_open hs :
  remove Nat.eq_dec (fresh_handle hs) (fresh_handle hs :: hs) = hs.
Proof.
  simpl. destruct (Nat.eq_dec _ _) as [_|N]; [|contradiction].
  apply notin_remove, fresh_handle_not_in.
Qed.


(** C9. The cell ends in one of three ways: with the array and its
    transform, with the [ValueError] of shapes that miss the raster, or
    with [RasterioIOError]. In each of them the handles open after the
    cell are those open before it. *)
Theorem read_masked_releases w url shapes :
  open_handles (fst (read w url shapes)) = open_handles w /\
  ((exists r, snd (read w url shapes) = Ok r) \/
   snd (read w url shapes) = Raise ValueError_no_overlap \/
   snd (read w url shapes) = Raise RasterioIOError).
Proof.
  unfold read, read_masked, rio_open, mask.
  destruct (resolve url) as [ds|]; [|split; auto].
  cbn [fst snd]. split; [apply close_after_open|].
  destruct (negb (overlaps ds shapes) && true); [auto|].
  destruct (read_window ds shapes true) as [r|]; eauto.
Qed.

End MaskedReadProperties.



(** * More on cell 10 *)

(** ** Every way the computation can end *)

Lemma fp_check_raises st flags e :
  fp_check st flags = Some e ->
  exists k, e = FloatingPointError k /\ mode_of st k = ModeRaise.
Proof.
  unfold fp_check.
  destruct (filter _ _) as [|k l] eqn:E; [discriminate|].
  intros [= <-]. exists k. split; [reflexivity|].
  assert (Hin : In k (k :: l)) by now left.
  rewrite <- E in Hin. apply filter_In in Hin. destruct Hin as [_ H].
  apply andb_prop in H. destruct H as [_ H].
  now destruct (mode_of st k).
Qed.

Lemma ndvi_errstate_raises st k :
  mode_of (ndvi_errstate st) k = ModeRaise ->
  (k = FPover \/ k = FPunder) /\ mode_of st k = ModeRaise.
Proof. destruct k; cbn; intros H; try discriminate; auto. Qed.

Lemma ufunc2_cases st p f a b :
  match ufunc2 st p f a b with
  | Ok r =>
      dt r = p /\ broadcast_shapes (shape a) (shape b) = Some (shape r) /\
      data r = map (fun k => fst (f (cast (dt a) p (get a (shape r) k))
                                   (cast (dt b) p (get b (shape r) k))))
                   (seq 0 (size_of (shape r)))
  | Raise e =>
      (e = ValueError_broadcast /\ broadcast_shapes (shape a) (shape b) = None) \/
      (exists k, e = FloatingPointError k /\ mode_of st k = ModeRaise)
  end.
Proof.
  unfold ufunc2. destruct (broadcast_shapes (shape a) (shape b)) as [s|]; [|now left].
  destruct (fp_check st _) as [e|] eqn:E.
  - right. now apply fp_check_raises in E.
  - cbn. rewrite map_map. repeat split.
Qed.


(** The third way does occur: with [over] on ['raise'], the difference
    of the largest binary64 number and its opposite overflows. *)
Lemma ndvi_overflow_raises :
  ndvi_value {| err_divide := ModeWarn; err_over := ModeRaise;
                err_under := ModeIgnore; err_invalid := ModeWarn |}
             (mk_array Float64 [1] [SFlt (S754_finite true (2 ^ 53 - 1) 971)])
             (mk_array Float64 [1] [SFlt (S754_finite false (2 ^ 53 - 1) 971)])
  = Raise (FloatingPointError FPover).
Proof. vm_compute. reflexivity. Qed.

(** ** Pixels without data *)

Lemma ndvi_elem_zero_zero dr dn r n :
  elem_is_zero r = true -> elem_is_zero n = true ->
  ndvi_elem dr dn r n = S754_nan.
Proof.
  intros Hr Hn. unfold ndvi_elem.
  pose proof (to_float64_zero dn n Hn) as Zn.
  pose proof (to_float64_zero dr r Hr) as Zr.
  assert (Hnum : is_zero (SFsub prec64 emax64 (to_float64 dn n) (to_float64 dr r)) = true).
  { destruct (to_float64 dn n) as [sn| | |]; try discriminate.
    destruct (to_float64 dr r) as [sr| | |]; try discriminate.
    now destruct sn, sr. }
  assert (Hden : is_zero (to_float64 (promote_types dn dr) (sum_elem dr dn r n)) = true).
  { apply to_float64_zero. unfold sum_elem.
    destruct (promote_types dn dr) as [w|w| |] eqn:E; unfold add_scalar, cast; cbn [fst elem_is_zero].
    - destruct n as [zn|fn], r as [zr|fr]; cbn in Hn, Hr |- *;
        rewrite ?Z.eqb_eq in *; subst; now destruct w.
    - destruct n as [zn|fn], r as [zr|fr]; cbn in Hn, Hr |- *;
        rewrite ?Z.eqb_eq in *; subst; now destruct w.
    - destruct n as [zn|fn], r as [zr|fr]; cbn in Hn, Hr |- *;
        rewrite ?Z.eqb_eq in *; subst; cbn;
        repeat match goal with
               | f : spec_float |- _ => destruct f; try discriminate
               | s : bool |- _ => destruct s
               end; reflexivity.
    - destruct (to_float64 dn n) as [sn| | |]; try discriminate.
      destruct (to_float64 dr r) as [sr| | |]; try discriminate.
      now destruct sn, sr. }
  destruct (SFsub prec64 emax64 (to_float64 dn n) (to_float64 dr r));
    try discriminate.
  destruct (to_float64 (promote_types dn dr) (sum_elem dr dn r n));
    try discriminate.
  reflexivity.
Qed.



(** ** Bands of different shapes *)

Lemma broadcast_dim_cases x y d :
  broadcast_dim x y = Some d -> (x = d \/ x = 1) /\ (y = d \/ y = 1).
Proof.
  unfold broadcast_dim.
  destruct (Nat.eqb_spec x y) as [->|_]; [intros [= ->]; auto|].
  destruct (Nat.eqb_spec x 1) as [->|_]; [intros [= ->]; auto|].
  destruct (Nat.eqb_spec y 1) as [->|_]; [intros [= ->]; auto|discriminate].
Qed.

Lemma Forall2_same_or_one s : Forall2 (fun x d => x = d \/ x = 1) s s.
Proof. induction s; constructor; auto. Qed.

(** Each dimension of an operand is the dimension of the result or 1. *)
Lemma broadcast_rev_dims : forall a b o,
  broadcast_rev a b = Some o ->
  Forall2 (fun x d => x = d \/ x = 1) a (firstn (length a) o) /\
  Forall2 (fun x d => x = d \/ x = 1) b (firstn (length b) o).
Proof.
  induction a as [|x a IH]; intros b o H.
  - cbn in H. injection H as <-. split; [constructor|].
    rewrite firstn_all. apply Forall2_same_or_one.
  - destruct b as [|y b].
    + cbn in H. injection H as <-. split; [|constructor].
      rewrite firstn_all. apply Forall2_same_or_one.
    + cbn [broadcast_rev] in H.
      destruct (broadcast_dim x y) as [d|] eqn:Ed; [|discriminate].
      destruct (broadcast_rev a b) as [r|] eqn:Er; [|discriminate].
      injection H as <-. destruct (IH b r Er) as [Ha Hb].
      destruct (broadcast_dim_cases x y d Ed) as [Hx Hy].
      split; cbn [length firstn]; constructor; assumption.
Qed.

Lemma Forall2_rev {A B} (R : A -> B -> Prop) l l' :
  Forall2 R l l' -> Forall2 R (rev l) (rev l').
Proof.
  induction 1 as [|x y l l' Hxy H IH]; [constructor|].
  cbn. apply Forall2_app; [exact IH|]. now repeat constructor.
Qed.

Lemma Forall2_skipn {A B} (R : A -> B -> Prop) n : forall l l',
  Forall2 R l l' -> Forall2 R (skipn n l) (skipn n l').
Proof.
  induction n as [|n IH]; intros l l' H; [exact H|].
  destruct H; [constructor|]. cbn. now apply IH.
Qed.

Lemma broadcast_shapes_dims a b out :
  broadcast_shapes a b = Some out ->
  Forall2 (fun x d => x = d \/ x = 1) a (skipn (length out - length a) out) /\
  Forall2 (fun x d => x = d \/ x = 1) b (skipn (length out - length b) out).
Proof.
  unfold broadcast_shapes.
  destruct (broadcast_rev (rev a) (rev b)) as [o|] eqn:E; [|discriminate].
  cbn. intros [= <-].
  destruct (broadcast_rev_dims _ _ _ E) as [Ha Hb].
  apply Forall2_rev in Ha, Hb. rewrite rev_involutive in Ha, Hb.
  rewrite length_rev in *.
  rewrite !skipn_rev.
  split.
  - pose proof (Forall2_length Ha) as L.
    rewrite length_rev, length_firstn in L.
    replace (length o - (length o - length a)) with (length a) by lia.
    exact Ha.
  - pose proof (Forall2_length Hb) as L.
    rewrite length_rev, length_firstn in L.
    replace (length o - (length o - length b)) with (length b) by lia.
    exact Hb.
Qed.

Lemma unravel_lt s : forall k, k < size_of s -> Forall2 lt (unravel s k) s.
Proof.
  induction s as [|n s IH]; intros k Hk; [constructor|].
  rewrite size_of_cons in Hk. cbn [unravel].
  assert (Hp : size_of s <> 0) by (intro E; rewrite E in Hk; lia).
  constructor.
  - apply Nat.Div0.div_lt_upper_bound. lia.
  - apply IH. now apply Nat.mod_upper_bound.
Qed.

Lemma ravel_clamp_lt s o :
  Forall2 (fun x d => x = d \/ x = 1) s o ->
  forall idx, Forall2 lt idx o -> ravel s (clamp s idx) < size_of s.
Proof.
  induction 1 as [|x d s o Hx H IH]; intros idx Hi.
  - cbn. lia.
  - inversion Hi as [|i d' idx' o' Hid Hi' E1 E2]; subst.
    cbn [clamp ravel]. rewrite size_of_cons.
    specialize (IH idx' Hi').
    destruct (Nat.eqb_spec x 1) as [->|Hn]; [lia|].
    destruct Hx as [->|]; [nia|contradiction].
Qed.

(** A broadcast operand is read within its bounds. *)
Lemma source_index_lt s out k :
  Forall2 (fun x d => x = d \/ x = 1) s (skipn (length out - length s) out) ->
  k < size_of out ->
  source_index s out k < size_of s.
Proof.
  intros Hs Hk. unfold source_index.
  apply (ravel_clamp_lt s _ Hs).
  apply Forall2_skipn. now apply unravel_lt.
Qed.

Lemma ufunc2_broadcast_data st p f a b s :
  never_raises st = true ->
  broadcast_shapes (shape a) (shape b) = Some s ->
  ufunc2 st p f a b =
  Ok {| dt := p; shape := s;
        data := map (fun k => fst (f (cast (dt a) p (get a s k))
                                     (cast (dt b) p (get b s k))))
                    (seq 0 (size_of s)) |}.
Proof.
  intros Hst Hs. unfold ufunc2. rewrite Hs, fp_check_never_raises by exact Hst.
  now rewrite map_map.
Qed.

Lemma nth_map_seq {A} (g : nat -> A) n k d :
  k < n -> nth k (map g (seq 0 n)) d = g k.
Proof.
  intros Hk. rewrite (nth_indep _ d (g 0)) by (rewrite length_map, length_seq; lia).
  rewrite map_nth, seq_nth by exact Hk. reflexivity.
Qed.

Lemma get_astype_float a s k :
  source_index (shape a) s k < length (data a) ->
  get (astype_float a) s k = SFlt (to_float64 (dt a) (get a s k)).
Proof.
  intros Hk. unfold get, astype_float. cbn [shape data].
  rewrite (nth_indep _ (SInt 0) (SFlt (to_float64 (dt a) (SInt 0))))
    by (now rewrite length_map).
  now rewrite (map_nth (fun x => SFlt (to_float64 (dt a) x))).
Qed.

Lemma get_same a s k :
  shape a = s -> k < size_of s -> get a s k = nth k (data a) (SInt 0).
Proof. intros <- Hk. unfold get. now rewrite source_index_same. Qed.



(** ** The two bands exchanged *)

Lemma promote_types_comm a b : promote_types a b = promote_types b a.
Proof. now destruct a as [[]|[]| |], b as [[]|[]| |]. Qed.

Lemma SFopp_binary_round_aux prec emax s m e l :
  SFopp (binary_round_aux prec emax s m e l)
  = binary_round_aux prec emax (negb s) m e l.
Proof.
  unfold binary_round_aux.
  destruct (shr_fexp prec emax m e l) as [mrs1 e1].
  destruct (shr_fexp prec emax _ e1 loc_Exact) as [mrs2 e2].
  destruct (shr_m mrs2); try reflexivity.
  now destruct (e2 <=? emax - prec)%Z.
Qed.

Lemma SFopp_binary_round prec emax s m e :
  SFopp (binary_round prec emax s m e) = binary_round prec emax (negb s) m e.
Proof.
  unfold binary_round. destruct (shl_align _ _ _) as [mz ez].
  apply SFopp_binary_round_aux.
Qed.

(** Negating the integer that is normalized negates the result, zero
    apart. *)
Lemma binary_normalize_opp prec emax z e :
  z <> 0%Z ->
  binary_normalize prec emax (- z) e false
  = SFopp (binary_normalize prec emax z e false).
Proof.
  destruct z as [|p|p]; intros Hz; [contradiction| |]; cbn [Z.opp binary_normalize];
    now rewrite SFopp_binary_round.
Qed.

Lemma SFadd_comm prec emax x y : SFadd prec emax x y = SFadd prec emax y x.
Proof.
  destruct x as [[]|[]| |sx mx ex], y as [[]|[]| |sy my ey]; try reflexivity.
  unfold SFadd. now rewrite Z.min_comm, Z.add_comm.
Qed.

(** [y - x] is the opposite of [x - y], unless both are the positive
    zero. *)
Lemma SFsub_swap prec emax x y :
  SFsub prec emax y x = SFopp (SFsub prec emax x y) \/
  (SFsub prec emax y x = S754_zero false /\ SFsub prec emax x y = S754_zero false).
Proof.
  destruct x as [[]|[]| |sx mx ex], y as [[]|[]| |sy my ey];
    try (left; reflexivity); try (right; split; reflexivity);
    try (left; cbn; now rewrite negb_involutive).
  unfold SFsub. rewrite (Z.min_comm ey ex).
  set (a := cond_Zopp sx (Z.pos (fst (shl_align mx ex (Z.min ex ey))))).
  set (b := cond_Zopp sy (Z.pos (fst (shl_align my ey (Z.min ex ey))))).
  destruct (Z.eq_dec (a - b) 0) as [E|N].
  - right. replace (b - a)%Z with 0%Z by lia. rewrite E. now split.
  - left. replace (b - a)%Z with (- (a - b))%Z by lia.
    now apply binary_normalize_opp.
Qed.

Lemma SFdiv_opp_l prec emax x y :
  SFdiv prec emax (SFopp x) y = SFopp (SFdiv prec emax x y).
Proof.
  destruct x as [sx|sx| |sx mx ex], y as [sy|sy| |sy my ey]; cbn [SFopp SFdiv];
    try reflexivity; try (now destruct sx, sy).
  destruct (SFdiv_core_binary prec emax _ _ _ _) as [[mz ez] lz].
  rewrite SFopp_binary_round_aux. now destruct sx, sy.
Qed.

Lemma SFdiv_zero_num prec emax y :
  is_zero (SFdiv prec emax (S754_zero false) y)
  || is_nan (SFdiv prec emax (S754_zero false) y) = true.
Proof. now destruct y. Qed.

Lemma sum_elem_comm dr dn r n :
  to_float64 (promote_types dr dn) (sum_elem dn dr n r)
  = to_float64 (promote_types dn dr) (sum_elem dr dn r n).
Proof.
  unfold sum_elem. rewrite (promote_types_comm dr dn).
  destruct (promote_types dn dr); unfold add_scalar; cbn [fst].
  - now rewrite Z.add_comm.
  - now rewrite Z.add_comm.
  - now rewrite SFadd_comm.
  - now rewrite SFadd_comm.
Qed.

Lemma ndvi_elem_swap dr dn r n :
  ndvi_elem dn dr n r = SFopp (ndvi_elem dr dn r n) \/
  (ndvi_elem dn dr n r = ndvi_elem dr dn r n /\
   is_zero (ndvi_elem dr dn r n) || is_nan (ndvi_elem dr dn r n) = true).
Proof.
  unfold ndvi_elem. rewrite sum_elem_comm.
  destruct (SFsub_swap prec64 emax64 (to_float64 dn n) (to_float64 dr r)) as [E|[E1 E2]].
  - left. now rewrite E, SFdiv_opp_l.
  - right. rewrite E1, E2. split; [reflexivity|apply SFdiv_zero_num].
Qed.



(** * Integer bands *)

#[local] Open Scope Z_scope.

Section SignedArithmetic.

Variables prec emax : Z.
Context {Hfmt : Format prec emax}.

Let Hprec : 0 < prec := fmt_prec.
Let Hemax : 2 <= emax := fmt_emax.
Let Hscale : scale_exp <= emin prec emax := fmt_scale.

#[local] Abbreviation emin := (emin prec emax).
#[local] Abbreviation L := scale_exp.
#[local] Abbreviation round := (rnd prec emax).
#[local] Abbreviation rounded := (rounds_to prec emax).

(** A number of the format has one representation. *)
Lemma bounded_unique m1 e1 m2 e2 :
  bounded prec emax m1 e1 = true -> bounded prec emax m2 e2 = true ->
  Zpos m1 * 2 ^ (e1 - L) = Zpos m2 * 2 ^ (e2 - L) ->
  m1 = m2 /\ e1 = e2.
Proof.
  intros H1 H2 E.
  destruct (bounded_rexp prec emax m1 e1 H1) as [He1 R1].
  destruct (bounded_rexp prec emax m2 e2 H2) as [He2 R2].
  rewrite E in R1. assert (e1 = e2) by lia. subst e2.
  split; [|reflexivity].
  assert (Hp : 0 < 2 ^ (e1 - L)) by (apply Z.pow_pos_nonneg; lia).
  apply Z.mul_reg_r in E; [congruence|lia].
Qed.

Lemma rounds_to_unique s V r1 r2 :
  V < 2 ^ (emax - L) ->
  rounded s V r1 -> rounded s V r2 -> r1 = r2.
Proof.
  intros HV H1 H2.
  destruct r1 as [| s1 | | s1 m1 e1]; cbn [rounds_to] in H1;
    try contradiction; [lia|].
  destruct r2 as [| s2 | | s2 m2 e2]; cbn [rounds_to] in H2;
    try contradiction; [lia|].
  destruct H1 as (-> & E1 & B1). destruct H2 as (-> & E2 & B2).
  destruct (bounded_unique m1 e1 m2 e2 B1 B2) as [-> ->]; [lia|reflexivity].
Qed.

Lemma binary_normalize_spec z e :
  emin <= e -> z <> 0 ->
  rounded (z <? 0) (round (Z.abs z * 2 ^ (e - L)))
            (binary_normalize prec emax z e false).
Proof.
  intros He Hz. destruct (Z.ltb_spec z 0) as [N|P].
  - rewrite Z.abs_neq by lia. now apply (binary_normalize_neg prec emax).
  - rewrite Z.abs_eq by lia. apply (binary_normalize_pos prec emax z e false He). lia.
Qed.

(** The sum of two numbers of the format: zero when they cancel, and
    otherwise the exact sum rounded. The magnitudes are counted in
    units of [2^scale_exp]. *)
Lemma SFadd_finite sx mx ex sy my ey :
  bounded prec emax mx ex = true -> bounded prec emax my ey = true ->
  let S := cond_Zopp sx (Zpos mx * 2 ^ (ex - L)) + cond_Zopp sy (Zpos my * 2 ^ (ey - L)) in
  let r := SFadd prec emax (S754_finite sx mx ex) (S754_finite sy my ey) in
  if S =? 0 then r = S754_zero false
  else rounded (S <? 0) (round (Z.abs S)) r.
Proof.
  intros Hx Hy S r.
  destruct (bounded_rexp prec emax mx ex Hx) as [Hex _].
  destruct (bounded_rexp prec emax my ey Hy) as [Hey _].
  unfold r, SFadd. set (ez := Z.min ex ey).
  set (a := cond_Zopp sx (Zpos (fst (shl_align mx ex ez)))).
  set (b := cond_Zopp sy (Zpos (fst (shl_align my ey ez)))).
  assert (Hp : 0 < 2 ^ (ez - L)) by (apply Z.pow_pos_nonneg; unfold ez; lia).
  assert (HS : S = (a + b) * 2 ^ (ez - L)).
  { unfold S, a, b. rewrite Z.mul_add_distr_r.
    rewrite <- (shl_align_scaled mx ex ez) by (unfold ez; lia).
    rewrite <- (shl_align_scaled my ey ez) by (unfold ez; lia).
    destruct sx, sy; cbn [cond_Zopp]; lia. }
  destruct (Z.eqb_spec S 0) as [E|N].
  - assert (a + b = 0) by nia. now replace (a + b) with 0 by lia.
  - assert (Hab : a + b <> 0) by nia.
    assert (Hs : (S <? 0) = (a + b <? 0)).
    { destruct (Z.ltb_spec S 0), (Z.ltb_spec (a + b) 0); try reflexivity; nia. }
    rewrite Hs, HS, Z.abs_mul, (Z.abs_eq (2 ^ (ez - L))) by lia.
    apply binary_normalize_spec; [unfold ez; lia|exact Hab].
Qed.

(** The same for a difference. *)
Lemma SFsub_finite sx mx ex sy my ey :
  bounded prec emax mx ex = true -> bounded prec emax my ey = true ->
  let D := cond_Zopp sx (Zpos mx * 2 ^ (ex - L)) - cond_Zopp sy (Zpos my * 2 ^ (ey - L)) in
  let r := SFsub prec emax (S754_finite sx mx ex) (S754_finite sy my ey) in
  if D =? 0 then r = S754_zero false
  else rounded (D <? 0) (round (Z.abs D)) r.
Proof.
  intros Hx Hy D r.
  destruct (bounded_rexp prec emax mx ex Hx) as [Hex _].
  destruct (bounded_rexp prec emax my ey Hy) as [Hey _].
  unfold r, SFsub. set (ez := Z.min ex ey).
  set (a := cond_Zopp sx (Zpos (fst (shl_align mx ex ez)))).
  set (b := cond_Zopp sy (Zpos (fst (shl_align my ey ez)))).
  assert (Hp : 0 < 2 ^ (ez - L)) by (apply Z.pow_pos_nonneg; unfold ez; lia).
  assert (HD : D = (a - b) * 2 ^ (ez - L)).
  { unfold D, a, b. rewrite Z.mul_sub_distr_r.
    rewrite <- (shl_align_scaled mx ex ez) by (unfold ez; lia).
    rewrite <- (shl_align_scaled my ey ez) by (unfold ez; lia).
    destruct sx, sy; cbn [cond_Zopp]; lia. }
  destruct (Z.eqb_spec D 0) as [E|N].
  - assert (a - b = 0) by nia. now replace (a - b) with 0 by lia.
  - assert (Hab : a - b <> 0) by nia.
    assert (Hs : (D <? 0) = (a - b <? 0)).
    { destruct (Z.ltb_spec D 0), (Z.ltb_spec (a - b) 0); try reflexivity; nia. }
    rewrite Hs, HD, Z.abs_mul, (Z.abs_eq (2 ^ (ez - L))) by lia.
    apply binary_normalize_spec; [unfold ez; lia|exact Hab].
Qed.

End SignedArithmetic.


(** ** Integers in binary64 *)

Lemma int53_exact z :
  0 <= z < 2 ^ 53 ->
  rnd prec64 emax64 (z * 2 ^ (- scale_exp)) = z * 2 ^ (- scale_exp).
Proof.
  intros Hz.
  destruct (Z.eq_dec z 0) as [->|N]; [now rewrite Z.mul_0_l, rnd_zero by exact _|].
  apply rnd_exact; [exact _|].
  assert (Hlog : Z.log2 z < 53) by (apply Z.log2_lt_pow2; lia).
  assert (Hr : rexp prec64 emax64 (z * 2 ^ (- scale_exp)) <= - scale_exp).
  { unfold rexp. rewrite Z.log2_mul_pow2 by (unfold scale_exp; lia).
    unfold emin, prec64, emax64, scale_exp in *. lia. }
  pose proof (rexp_nonneg prec64 emax64 (z * 2 ^ (- scale_exp))) as H0.
  apply Z.mod_divide; [apply Z.pow_nonzero; lia|].
  apply Z.divide_mul_r.
  exists (2 ^ (- scale_exp - rexp prec64 emax64 (z * 2 ^ (- scale_exp)))).
  rewrite <- Z.pow_add_r by lia. f_equal. lia.
Qed.

Lemma int53_lt_top z :
  Z.abs z < 2 ^ 53 -> Z.abs z * 2 ^ (- scale_exp) < 2 ^ (emax64 - scale_exp).
Proof.
  intros Hz.
  apply Z.lt_le_trans with (2 ^ 53 * 2 ^ (- scale_exp)).
  - apply Z.mul_lt_mono_pos_r; [apply Z.pow_pos_nonneg; unfold scale_exp; lia|exact Hz].
  - rewrite <- Z.pow_add_r by (unfold scale_exp; lia).
    apply Z.pow_le_mono_r; unfold emax64, scale_exp; lia.
Qed.

(** An integer of magnitude below [2^53] is a binary64 number. *)
Lemma f64_of_Z_exact z :
  z <> 0 -> Z.abs z < 2 ^ 53 ->
  rounds_to prec64 emax64 (z <? 0) (Z.abs z * 2 ^ (- scale_exp)) (f64_of_Z z).
Proof.
  intros Hz Hb.
  pose proof (binary_normalize_spec prec64 emax64 z 0
                ltac:(unfold emin, prec64, emax64; lia) Hz) as H.
  change (0 - scale_exp) with (- scale_exp) in H.
  rewrite int53_exact in H by lia. exact H.
Qed.

Lemma f64_of_Z_exact_finite z :
  z <> 0 -> Z.abs z < 2 ^ 53 ->
  exists m e,
    f64_of_Z z = S754_finite (z <? 0) m e /\
    bounded prec64 emax64 m e = true /\
    Zpos m * 2 ^ (e - scale_exp) = Z.abs z * 2 ^ (- scale_exp).
Proof.
  intros Hz Hb. pose proof (f64_of_Z_exact z Hz Hb) as H.
  pose proof (int53_lt_top z Hb) as Ht.
  destruct (f64_of_Z z) as [| s | | s m e]; cbn [rounds_to] in H; try contradiction.
  - lia.
  - destruct H as (-> & E & B). now exists m, e.
Qed.

Lemma cond_Zopp_abs z : cond_Zopp (z <? 0) (Z.abs z) = z.
Proof. destruct (Z.ltb_spec z 0); cbn; lia. Qed.

Lemma cond_Zopp_mul s a b : cond_Zopp s (a * b) = cond_Zopp s a * b.
Proof. destruct s; cbn; lia. Qed.

Lemma f64_of_Z_opp z : z <> 0 -> f64_of_Z (- z) = SFopp (f64_of_Z z).
Proof. apply binary_normalize_opp. Qed.

(** Sums and differences of integers are exact in binary64 as long as
    they stay below [2^53]. *)
Lemma f64_add_exact a b :
  Z.abs a < 2 ^ 53 -> Z.abs b < 2 ^ 53 -> Z.abs (a + b) < 2 ^ 53 ->
  SFadd prec64 emax64 (f64_of_Z a) (f64_of_Z b) = f64_of_Z (a + b).
Proof.
  intros Ha Hb Hab.
  destruct (Z.eq_dec a 0) as [->|Na].
  { destruct (Z.eq_dec b 0) as [->|Nb]; [reflexivity|].
    destruct (f64_of_Z_exact_finite b Nb Hb) as (m & e & E & _).
    cbn [Z.add]. rewrite E. reflexivity. }
  destruct (Z.eq_dec b 0) as [->|Nb].
  { destruct (f64_of_Z_exact_finite a Na Ha) as (m & e & E & _).
    rewrite Z.add_0_r, E. reflexivity. }
  destruct (f64_of_Z_exact_finite a Na Ha) as (ma & ea & Ea & Ba & Va).
  destruct (f64_of_Z_exact_finite b Nb Hb) as (mb & eb & Eb & Bb & Vb).
  rewrite Ea, Eb.
  pose proof (SFadd_finite prec64 emax64 (a <? 0) ma ea (b <? 0) mb eb Ba Bb) as H.
  cbv zeta in H. rewrite Va, Vb in H.
  rewrite !cond_Zopp_mul, !cond_Zopp_abs, <- Z.mul_add_distr_r in H.
  assert (Hp : 0 < 2 ^ (- scale_exp)) by (apply Z.pow_pos_nonneg; unfold scale_exp; lia).
  destruct (Z.eqb_spec ((a + b) * 2 ^ (- scale_exp)) 0) as [E|N].
  - assert (E0 : a + b = 0) by nia. now rewrite H, E0.
  - assert (Nab : a + b <> 0) by nia.
    assert (Hs : ((a + b) * 2 ^ (- scale_exp) <? 0) = (a + b <? 0)).
    { destruct (Z.ltb_spec ((a + b) * 2 ^ (- scale_exp)) 0), (Z.ltb_spec (a + b) 0);
        try reflexivity; nia. }
    rewrite Hs, Z.abs_mul, (Z.abs_eq (2 ^ (- scale_exp))) in H by lia.
    rewrite int53_exact in H by lia.
    apply (rounds_to_unique prec64 emax64 (a + b <? 0)
             (Z.abs (a + b) * 2 ^ (- scale_exp))).
    + now apply int53_lt_top.
    + exact H.
    + now apply f64_of_Z_exact.
Qed.

Lemma f64_sub_exact a b :
  Z.abs a < 2 ^ 53 -> Z.abs b < 2 ^ 53 -> Z.abs (a - b) < 2 ^ 53 ->
  SFsub prec64 emax64 (f64_of_Z a) (f64_of_Z b) = f64_of_Z (a - b).
Proof.
  intros Ha Hb Hab.
  destruct (Z.eq_dec b 0) as [->|Nb].
  { rewrite Z.sub_0_r. change (f64_of_Z 0) with (S754_zero false).
    destruct (Z.eq_dec a 0) as [->|Na]; [reflexivity|].
    destruct (f64_of_Z_exact_finite a Na Ha) as (m & e & E & _).
    rewrite E. reflexivity. }
  destruct (Z.eq_dec a 0) as [->|Na].
  { change (0 - b) with (- b). rewrite f64_of_Z_opp by exact Nb.
    destruct (f64_of_Z_exact_finite b Nb Hb) as (m & e & E & _).
    rewrite E. reflexivity. }
  destruct (f64_of_Z_exact_finite a Na Ha) as (ma & ea & Ea & Ba & Va).
  destruct (f64_of_Z_exact_finite b Nb Hb) as (mb & eb & Eb & Bb & Vb).
  rewrite Ea, Eb.
  pose proof (SFsub_finite prec64 emax64 (a <? 0) ma ea (b <? 0) mb eb Ba Bb) as H.
  cbv zeta in H. rewrite Va, Vb in H.
  rewrite !cond_Zopp_mul, !cond_Zopp_abs, <- Z.mul_sub_distr_r in H.
  assert (Hp : 0 < 2 ^ (- scale_exp)) by (apply Z.pow_pos_nonneg; unfold scale_exp; lia).
  destruct (Z.eqb_spec ((a - b) * 2 ^ (- scale_exp)) 0) as [E|N].
  - assert (E0 : a - b = 0) by nia. now rewrite H, E0.
  - assert (Nab : a - b <> 0) by nia.
    assert (Hs : ((a - b) * 2 ^ (- scale_exp) <? 0) = (a - b <? 0)).
    { destruct (Z.ltb_spec ((a - b) * 2 ^ (- scale_exp)) 0), (Z.ltb_spec (a - b) 0);
        try reflexivity; nia. }
    rewrite Hs, Z.abs_mul, (Z.abs_eq (2 ^ (- scale_exp))) in H by lia.
    rewrite int53_exact in H by lia.
    apply (rounds_to_unique prec64 emax64 (a - b <? 0)
             (Z.abs (a - b) * 2 ^ (- scale_exp))).
    + now apply int53_lt_top.
    + exact H.
    + now apply f64_of_Z_exact.
Qed.

Lemma narrow_int_range d x :
  narrow_int d = true -> has_dtype d x = true ->
  exists z, x = SInt z /\ - 2 ^ 32 < z < 2 ^ 32.
Proof.
  intros Hn Hd.
  assert (Hi : is_integer d = true) by (destruct d; try discriminate; reflexivity).
  destruct (has_dtype_integer d x Hi Hd) as (z & -> & Hz).
  exists z. split; [reflexivity|].
  destruct d as [[]|[]| |]; try discriminate; cbn in Hz; lia.
Qed.

Lemma narrow_int_promote a b :
  narrow_int a = true -> narrow_int b = true ->
  is_integer (promote_types a b) = true.
Proof. destruct a as [[]|[]| |], b as [[]|[]| |]; try discriminate; reflexivity. Qed.

(** On elements of narrow integer dtypes whose sum is in range, the
    quotient is the one of the exact difference by the exact sum, and
    the one of the promoted elements. *)
Lemma ndvi_elem_narrow dr dn r n :
  narrow_int dr = true -> narrow_int dn = true ->
  has_dtype dr r = true -> has_dtype dn n = true ->
  sum_fits dr dn r n = true ->
  ndvi_elem dr dn r n
  = SFdiv prec64 emax64 (f64_of_Z (int_of n - int_of r)) (f64_of_Z (int_of n + int_of r)) /\
  ndvi_elem dr dn r n = ndvi_promoted_elem dr dn r n.
Proof.
  intros Nr Nn Hr Hn Hfit.
  destruct (narrow_int_range dr r Nr Hr) as (zr & -> & Rr).
  destruct (narrow_int_range dn n Nn Hn) as (zn & -> & Rn).
  pose proof (narrow_int_promote dn dr Nn Nr) as Hp.
  unfold ndvi_elem, ndvi_promoted_elem, sum_elem, sum_fits in *.
  rewrite Hp in Hfit. apply andb_prop in Hfit. destruct Hfit as [F1 F2].
  apply Z.leb_le in F1, F2. cbn [int_of to_float64] in *.
  assert (E : fst (add_scalar (promote_types dn dr)
                     (cast dn (promote_types dn dr) (SInt zn))
                     (cast dr (promote_types dn dr) (SInt zr)))
              = SInt (zn + zr)).
  { destruct (promote_types dn dr) as [w|w| |] eqn:Ep; try discriminate;
      cbn [cast add_scalar fst int_of]; now rewrite wrap_fits by (try reflexivity; lia). }
  rewrite E. cbn [to_float64].
  rewrite f64_sub_exact, f64_add_exact by lia. now split.
Qed.

#[local] Close Scope Z_scope.

(** X5. On integer bands of at most 32 bits, at every position
    where the sum of the two elements is within the range of the dtype
    it is formed in, the result is the binary64 quotient of the exact
    difference by the exact sum: the division is the only operation
    that rounds. There the result is also the one the formula gives
    with both elements promoted to float64 first. *)
Theorem ndvi_narrow_integers st red nir k :
  ambient_ok st = true ->
  shape red = shape nir ->
  well_formed red -> well_formed nir ->
  narrow_int (dt red) = true -> narrow_int (dt nir) = true ->
  k < size_of (shape red) ->
  sum_fits (dt red) (dt nir) (nth k (data red) (SInt 0)) (nth k (data nir) (SInt 0)) = true ->
  exists out,
    ndvi_value st red nir = Ok out /\
    nth k (data out) (SInt 0)
    = SFlt (SFdiv prec64 emax64
              (f64_of_Z (int_of (nth k (data nir) (SInt 0)) - int_of (nth k (data red) (SInt 0))))
              (f64_of_Z (int_of (nth k (data nir) (SInt 0)) + int_of (nth k (data red) (SInt 0))))) /\
    nth k (data out) (SInt 0)
    = SFlt (ndvi_promoted_elem (dt red) (dt nir)
              (nth k (data red) (SInt 0)) (nth k (data nir) (SInt 0))).
Proof.
  intros Hst Hs Wr Wn Nr Nn Hk Hfit.
  destruct (ndvi_nth st red nir k Hst Hs (proj1 Wr) (proj1 Wn) Hk)
    as (out & Ho & _ & _ & He).
  exists out. split; [exact Ho|].
  assert (Hdr : has_dtype (dt red) (nth k (data red) (SInt 0)) = true)
    by now apply well_formed_nth.
  assert (Hdn : has_dtype (dt nir) (nth k (data nir) (SInt 0)) = true)
    by (apply well_formed_nth; [exact Wn|congruence]).
  destruct (ndvi_elem_narrow _ _ _ _ Nr Nn Hdr Hdn Hfit) as [E1 E2].
  split; rewrite He; congruence.
Qed.

Lemma ndvi_narrow_integers_witness :
  exists out,
    ndvi_value default_errstate red_0 nir_0 = Ok out /\
    nth 1 (data out) (SInt 0)
    = SFlt (SFdiv prec64 emax64 (f64_of_Z (9 - 7)) (f64_of_Z (9 + 7))) /\
    nth 1 (data out) (SInt 0)
    = SFlt (ndvi_promoted_elem uint16 uint16 (SInt 7) (SInt 9)).
Proof.
  apply (ndvi_narrow_integers default_errstate red_0 nir_0 1);
    first [reflexivity | split; reflexivity | cbn; lia].
Defined.

(** * The sign of the result *)

#[local] Open Scope Z_scope.

(** Two positive binary64 numbers compare as their values do. *)
Lemma SFcompare_pos64 m1 e1 m2 e2 :
  bounded prec64 emax64 m1 e1 = true -> bounded prec64 emax64 m2 e2 = true ->
  SFcompare (S754_finite false m1 e1) (S754_finite false m2 e2)
  = Some (Zpos m1 * 2 ^ (e1 - scale_exp) ?= Zpos m2 * 2 ^ (e2 - scale_exp)).
Proof.
  intros B1 B2.
  destruct (bounded64_digits m1 e1 B1) as [U1 D1].
  destruct (bounded64_digits m2 e2 B2) as [U2 D2].
  destruct (bounded_rexp prec64 emax64 m1 e1 B1) as [E1 _].
  destruct (bounded_rexp prec64 emax64 m2 e2 B2) as [E2 _].
  unfold emin, prec64, emax64 in E1, E2.
  assert (Hlt : forall ma ea mb eb,
             -1074 <= ea -> ea < eb -> Zpos ma < 2 ^ 53 -> 2 ^ 52 <= Zpos mb ->
             Zpos ma * 2 ^ (ea - scale_exp) < Zpos mb * 2 ^ (eb - scale_exp)).
  { intros ma ea mb eb Ha Hab Ua Lb. unfold scale_exp.
    assert (Hp : 0 < 2 ^ (ea - -1074)) by (apply Z.pow_pos_nonneg; lia).
    apply Z.lt_le_trans with (2 ^ 53 * 2 ^ (ea - -1074)).
    - apply Z.mul_lt_mono_pos_r; assumption.
    - replace (eb - -1074) with (ea - -1074 + 1 + (eb - ea - 1)) by lia.
      rewrite !Z.pow_add_r by lia.
      assert (Hq : 1 <= 2 ^ (eb - ea - 1)) by (apply (Z.pow_le_mono_r 2 0); lia).
      assert (E53 : 2 ^ 53 = 2 ^ 52 * 2 ^ 1) by reflexivity.
      rewrite E53. clear E53 Ua.
      set (p := 2 ^ (ea - -1074)) in *. set (q := 2 ^ (eb - ea - 1)) in *.
      set (c := 2 ^ 52) in *. set (t := 2 ^ 1) in *.
      assert (0 < t) by (unfold t; lia). assert (0 < c) by (unfold c; lia).
      clearbody p q c t.
      assert (Hcq : c * 1 <= Z.pos mb * q) by (apply Z.mul_le_mono_nonneg; lia).
      replace (Z.pos mb * (p * t * q)) with (Z.pos mb * q * (t * p)) by ring.
      replace (c * t * p) with (c * (t * p)) by ring.
      apply Z.mul_le_mono_nonneg_r; [|lia].
      apply Z.mul_nonneg_nonneg; lia. }
  unfold SFcompare. f_equal.
  destruct (Z.compare_spec e1 e2) as [E|E|E].
  - subst e2. rewrite Pos.compare_cont_spec. cbn [Pos.switch_Eq].
    assert (Hp : 0 < 2 ^ (e1 - scale_exp))
      by (apply Z.pow_pos_nonneg; unfold scale_exp; lia).
    symmetry. rewrite <- Zmult_compare_compat_r by lia.
    cbn [Z.compare]. now destruct (m1 ?= m2)%positive.
  - symmetry. apply Z.compare_lt_iff. apply Hlt; lia.
  - symmetry. apply Z.compare_gt_iff. apply Hlt; lia.
Qed.

(** A difference of two numbers that are not negative, the second no
    larger than the first, is not negative. *)
Lemma SFsub_leb_sign N R s m e :
  nonneg_finite prec64 emax64 N -> nonneg_finite prec64 emax64 R ->
  SFleb R N = true ->
  SFsub prec64 emax64 N R = S754_finite s m e -> s = false.
Proof.
  destruct N as [sN| | |[] mN eN], R as [sR| | |[] mR eR]; cbn [nonneg_finite];
    try contradiction; intros HN HR Hle.
  - destruct sN, sR; discriminate.
  - discriminate.
  - destruct sR; cbn; congruence.
  - pose proof (SFsub_pos_spec prec64 emax64 mN eN mR eR HN HR) as H. cbv zeta in H.
    unfold SFleb in Hle. rewrite (SFcompare_pos64 mR eR mN eN HR HN) in Hle.
    rewrite Z.compare_antisym in Hle.
    destruct (Zpos mN * 2 ^ (eN - scale_exp) ?= Zpos mR * 2 ^ (eR - scale_exp));
      try discriminate.
    + rewrite H. discriminate.
    + intros E. rewrite E in H. cbn [rounds_to] in H. now destruct H as [-> _].
Qed.

Lemma binary_round_aux_sign prec emax sx mx ex lx s m e :
  binary_round_aux prec emax sx mx ex lx = S754_finite s m e -> s = sx.
Proof.
  unfold binary_round_aux.
  destruct (shr_fexp prec emax mx ex lx) as [mrs1 e1].
  destruct (shr_fexp prec emax _ e1 loc_Exact) as [mrs2 e2].
  destruct (shr_m mrs2); try discriminate.
  destruct (e2 <=? emax - prec); congruence.
Qed.

(** A finite nonzero quotient comes from finite nonzero operands, and
    has the sign their signs give. *)
Lemma SFdiv_finite_sign prec emax x y s m e :
  SFdiv prec emax x y = S754_finite s m e ->
  exists sx mx ex sy my ey,
    x = S754_finite sx mx ex /\ y = S754_finite sy my ey /\ s = xorb sx sy.
Proof.
  destruct x as [sx|sx| |sx mx ex], y as [sy|sy| |sy my ey]; try discriminate.
  cbn [SFdiv]. destruct (SFdiv_core_binary _ _ _ _ _ _) as [[mz ez] lz].
  intros H. apply binary_round_aux_sign in H.
  now exists sx, mx, ex, sy, my, ey.
Qed.

(** The denominator cell 10 forms from two elements that are not
    negative is not negative. *)
Lemma den_sign dr dn r n :
  has_dtype dn n = true -> has_dtype dr r = true ->
  elem_negative n = false -> elem_negative r = false ->
  sum_fits dr dn r n = true ->
  nonneg_finite prec64 emax64 (to_float64 dn n) ->
  nonneg_finite prec64 emax64 (to_float64 dr r) ->
  forall s m e,
    to_float64 (promote_types dn dr) (sum_elem dr dn r n) = S754_finite s m e ->
    s = false.
Proof.
  intros Hdn Hdr Hnn Hnr Hfit HX HY s m e.
  unfold sum_fits, sum_elem in *.
  destruct (promote_types dn dr) as [w|w| |] eqn:Ep.
  1, 2:
    (assert (Hi : is_integer (promote_types dn dr) = true) by (now rewrite Ep);
     destruct (promote_types_integer dn dr Hi) as [Hin Hir];
     destruct (has_dtype_integer dn n Hin Hdn) as (zn & -> & Hzn);
     destruct (has_dtype_integer dr r Hir Hdr) as (zr & -> & Hzr);
     cbn in Hnn, Hnr; apply Z.ltb_ge in Hnn, Hnr;
     cbn [is_integer] in Hfit; apply andb_prop in Hfit; destruct Hfit as [F1 F2];
     apply Z.leb_le in F1, F2;
     cbn [cast add_scalar fst int_of to_float64] in *;
     rewrite wrap_fits by (try reflexivity; lia);
     intros ED;
     destruct (f64_of_Z_nonneg (zn + zr) ltac:(lia)) as [E|[HD _]];
       [rewrite E in ED; discriminate|];
     rewrite ED in HD; now destruct s).
  - destruct (promote_types_float32 dn dr Ep) as [Sn Sr].
    destruct (cast32_nonneg dn n Sn Hdn Hnn HX) as [Hn32 _].
    destruct (cast32_nonneg dr r Sr Hdr Hnr HY) as [Hr32 _].
    cbn [add_scalar fst to_float64].
    set (n32 := flt_of (cast dn Float32 n)) in *.
    set (r32 := flt_of (cast dr Float32 r)) in *.
    destruct (SFadd_nonneg prec32 emax32 n32 r32 Hn32 Hr32) as [_ Hfin].
    intros ED.
    assert (Hf : is_finite (SFadd prec32 emax32 n32 r32) = true).
    { destruct (SFadd prec32 emax32 n32 r32); try reflexivity; discriminate. }
    destruct (Hfin Hf) as [HD _].
    destruct (f64_of_f32_nonneg _ HD) as [HD' _].
    rewrite ED in HD'. now destruct s.
  - cbn [cast add_scalar fst flt_of to_float64].
    destruct (SFadd_nonneg prec64 emax64 _ _ HX HY) as [_ Hfin].
    intros ED. rewrite ED in Hfin.
    destruct (Hfin eq_refl) as [HD _]. now destruct s.
Qed.

Lemma sum_fits_comm dr dn r n : sum_fits dn dr n r = sum_fits dr dn r n.
Proof. unfold sum_fits. now rewrite promote_types_comm, Z.add_comm. Qed.

#[local] Close Scope Z_scope.

Lemma SFcompare_opp a b : SFcompare (SFopp a) (SFopp b) = SFcompare b a.
Proof.
  destruct a as [[]|[]| |[] m1 e1], b as [[]|[]| |[] m2 e2]; try reflexivity;
    cbn [SFopp negb SFcompare]; f_equal;
    rewrite (Z.compare_antisym e1 e2); destruct (e1 ?= e2)%Z; cbn [CompOpp];
    try reflexivity;
    rewrite !Pos.compare_cont_spec; cbn [Pos.switch_Eq];
    rewrite (Pos.compare_antisym m1 m2); now destruct (m1 ?= m2)%positive.
Qed.

Lemma SFcompare_zero_sign s f :
  SFcompare (S754_zero s) f = SFcompare (S754_zero false) f.
Proof. now destruct f. Qed.

Lemma between_opp f :
  between_minus_one_and_zero (SFopp f) = between_zero_and_one f.
Proof.
  unfold between_minus_one_and_zero, between_zero_and_one, SFleb.
  rewrite SFcompare_opp.
  change (S754_zero false) with (SFopp (S754_zero true)) at 1.
  rewrite SFcompare_opp, SFcompare_zero_sign. apply andb_comm.
Qed.

Lemma SFopp_involutive f : SFopp (SFopp f) = f.
Proof. destruct f; cbn; now rewrite ?negb_involutive. Qed.

Lemma non_finite_opp f : non_finite (SFopp f) = non_finite f.
Proof. now destruct f. Qed.

(** The red element no larger than the near-infrared one: the
    quotient is between 0 and 1 or not finite. *)
Lemma ndvi_elem_upper dr dn r n :
  has_dtype dn n = true -> has_dtype dr r = true ->
  elem_negative n = false -> elem_negative r = false ->
  sum_fits dr dn r n = true ->
  SFleb (to_float64 dr r) (to_float64 dn n) = true ->
  between_zero_and_one (ndvi_elem dr dn r n) || non_finite (ndvi_elem dr dn r n) = true.
Proof.
  intros Hdn Hdr Hnn Hnr Hfit Hle.
  pose proof (ndvi_elem_unit dr dn r n Hdn Hdr Hnn Hnr Hfit) as Hu.
  destruct (ndvi_elem dr dn r n) as [s|s| |s m e] eqn:Ef; try reflexivity.
  - now destruct s.
  - rewrite orb_false_r in Hu |- *.
    unfold in_unit_interval in Hu. apply andb_prop in Hu. destruct Hu as [_ Hu].
    unfold between_zero_and_one. rewrite Hu, andb_true_r.
    unfold ndvi_elem in Ef.
    destruct (SFdiv_finite_sign _ _ _ _ _ _ _ Ef)
      as (sn & mn & en & sd & md & ed & En & Ed & ->).
    pose proof (to_float64_not_negative dn n Hdn Hnn) as NX.
    pose proof (to_float64_not_negative dr r Hdr Hnr) as NY.
    destruct (SFsub_not_negative _ _ NX NY) as [Hnf|[HX HY]].
    { rewrite En in Hnf. discriminate. }
    rewrite (SFsub_leb_sign _ _ sn mn en HX HY Hle En).
    rewrite (den_sign dr dn r n Hdn Hdr Hnn Hnr Hfit HX HY sd md ed Ed).
    reflexivity.
Qed.

(** The near-infrared element no larger than the red one: the
    quotient is between -1 and 0 or not finite. *)
Lemma ndvi_elem_lower dr dn r n :
  has_dtype dn n = true -> has_dtype dr r = true ->
  elem_negative n = false -> elem_negative r = false ->
  sum_fits dr dn r n = true ->
  SFleb (to_float64 dn n) (to_float64 dr r) = true ->
  between_minus_one_and_zero (ndvi_elem dr dn r n)
  || non_finite (ndvi_elem dr dn r n) = true.
Proof.
  intros Hdn Hdr Hnn Hnr Hfit Hle.
  rewrite <- sum_fits_comm in Hfit.
  pose proof (ndvi_elem_upper dn dr n r Hdr Hdn Hnr Hnn Hfit Hle) as Hu.
  destruct (ndvi_elem_swap dr dn r n) as [E|[E Z]].
  - rewrite E in Hu.
    rewrite <- (SFopp_involutive (ndvi_elem dr dn r n)), between_opp, non_finite_opp.
    exact Hu.
  - destruct (ndvi_elem dr dn r n) as [s|s| |s m e]; try discriminate; reflexivity.
Qed.



(** * Integer bands and the floating-point conditions *)

#[local] Open Scope Z_scope.

Section QuotientRange.

Variables prec emax : Z.
Context {Hfmt : Format prec emax}.

Let Hprec : 0 < prec := fmt_prec.
Let Hemax : 2 <= emax := fmt_emax.
Let Hscale : scale_exp <= emin prec emax := fmt_scale.

#[local] Abbreviation emin := (emin prec emax).
#[local] Abbreviation fexp := (fexp prec emax).

(** The second shift of a rounding drops at most one bit. *)
Lemma fits_result s R f :
  emin <= f -> fits prec emax R f ->
  (let '(mrs, e) := shr_fexp prec emax R f loc_Exact in
   match shr_m mrs with
   | 0 => S754_zero s
   | Z.pos m => if e <=? emax - prec then S754_finite s m e else S754_infinity s
   | Z.neg _ => S754_nan
   end)
  = match R with
    | Z.pos q =>
        if R =? 2 ^ prec
        then match 2 ^ (prec - 1) with
             | Z.pos q' =>
                 if f + 1 <=? emax - prec then S754_finite s q' (f + 1)
                 else S754_infinity s
             | _ => S754_nan
             end
        else if f <=? emax - prec then S754_finite s q f else S754_infinity s
    | _ => S754_zero s
    end.
Proof.
  intros Hf [->|[[HR Hc]|[-> Hc]]].
  - rewrite shr_fexp_exact by lia. cbn [Zdigits2].
    destruct (Z.ltb_spec 0 (fexp (0 + f) - f)); [|reflexivity].
    unfold shr_rec. cbn [shr_m].
    now rewrite Z.div_0_l by (apply Z.pow_nonzero; lia).
  - rewrite shr_fexp_exact by lia. rewrite Hc, Z.sub_diag. cbn [Z.ltb Z.compare shr_m].
    destruct R as [|q|q]; try lia.
    destruct (Z.eqb_spec (Z.pos q) (2 ^ prec)) as [E|N]; [|reflexivity].
    exfalso. rewrite E, Zdigits2_log2, Z.log2_pow2 in Hc
      by (try apply Z.pow_pos_nonneg; lia).
    unfold SpecFloat.fexp in Hc. lia.
  - assert (Hp : 0 < 2 ^ prec) by (apply Z.pow_pos_nonneg; lia).
    rewrite shr_fexp_exact by lia.
    rewrite Zdigits2_log2, Z.log2_pow2 by lia.
    assert (Hf2 : fexp (prec + 1 + f) = f + 1) by (unfold SpecFloat.fexp in *; lia).
    rewrite Hf2. replace (f + 1 - f) with 1 by lia. cbn [Z.ltb Z.compare].
    unfold shr_rec. cbn [shr_m]. change (2 ^ 1) with 2.
    assert (H2p : 2 ^ prec = 2 * 2 ^ (prec - 1)).
    { rewrite <- Z.pow_succ_r by lia. f_equal. lia. }
    assert (HR2 : 2 ^ prec / 2 = 2 ^ (prec - 1)).
    { rewrite H2p, Z.mul_comm, Z.div_mul by lia. reflexivity. }
    rewrite HR2.
    destruct (2 ^ prec) as [|q|q] eqn:Eq; try lia.
    rewrite Z.eqb_refl.
    assert (Hpp : 0 < 2 ^ (prec - 1)) by (apply Z.pow_pos_nonneg; lia).
    destruct (2 ^ (prec - 1)); try lia. reflexivity.
Qed.

(** A rounding that starts in the normal range, with all the bits the
    format keeps, ends in it: the result is finite, not zero, and
    above the smallest exponent. *)
Lemma binary_round_aux_normal s m e l :
  0 < m -> e <= fexp (Zdigits2 m + e) ->
  emin + prec + 1 <= Zdigits2 m + e -> Zdigits2 m + e + 1 <= emax ->
  exists m' e',
    binary_round_aux prec emax s m e l = S754_finite s m' e' /\ emin < e'.
Proof.
  intros Hm He Hlo Hhi. unfold binary_round_aux.
  destruct (shr_fexp_m prec emax m e l ltac:(lia) He) as [E1 E2].
  destruct (shr_fexp prec emax m e l) as [mrs1 e1]. cbn [fst snd] in E1, E2.
  rewrite E1, E2.
  set (f := fexp (Zdigits2 m + e)) in *.
  assert (Ef : f = Zdigits2 m + e - prec) by (unfold f, SpecFloat.fexp; lia).
  set (R := round_nearest_even (m / 2 ^ (f - e)) (loc_of_shr_record mrs1)).
  rewrite (fits_result s R f);
    [|unfold f, SpecFloat.fexp; lia|apply (fits_round prec emax); [lia|exact He]].
  assert (HR : 0 < R).
  { assert (0 < m / 2 ^ (f - e)).
    { apply Z.div_str_pos. split; [apply Z.pow_pos_nonneg; lia|].
      rewrite Zdigits2_log2 in Ef by lia.
      apply Z.le_trans with (2 ^ Z.log2 m); [apply Z.pow_le_mono_r; lia|].
      apply Z.log2_spec. lia. }
    unfold R. destruct (round_nearest_even_cases (m / 2 ^ (f - e)) (loc_of_shr_record mrs1))
      as [->| ->]; lia. }
  destruct R as [|q|q]; try lia.
  destruct (Z.pos q =? 2 ^ prec).
  - assert (Hpp : 0 < 2 ^ (prec - 1)) by (apply Z.pow_pos_nonneg; lia).
    destruct (2 ^ (prec - 1)) as [|q'|q']; try lia.
    destruct (Z.leb_spec (f + 1) (emax - prec)); [|lia].
    exists q', (f + 1). split; [reflexivity|lia].
  - destruct (Z.leb_spec f (emax - prec)); [|lia].
    exists q, f. split; [reflexivity|lia].
Qed.

(** The truncated quotient of a division has its leading bit within
    one position of where the operands put it, and is not zero in the
    normal range. *)
Lemma SFdiv_core_binary_range m1 e1 m2 e2 :
  0 < m1 -> 0 < m2 ->
  let delta := Zdigits2 m1 + e1 - (Zdigits2 m2 + e2) in
  emin + prec <= delta ->
  let '(q, e', _) := SFdiv_core_binary prec emax m1 e1 m2 e2 in
  0 < q /\ delta <= Zdigits2 q + e' <= delta + 1.
Proof.
  intros H1 H2 delta Hd. unfold SFdiv_core_binary. fold delta.
  set (e' := Z.min (fexp delta) (e1 - e2)).
  set (sh := e1 - e2 - e').
  assert (Hsh : 0 <= sh) by (unfold sh, e'; lia).
  assert (Hm' : match sh with
                | Z.pos _ => Z.shiftl m1 sh
                | 0 => m1
                | Z.neg _ => 0
                end = m1 * 2 ^ sh).
  { destruct sh eqn:E; try lia. now rewrite Z.shiftl_mul_pow2 by lia. }
  rewrite Hm'. clear Hm'.
  pose proof (Z.div_mod (m1 * 2 ^ sh) m2 ltac:(lia)) as Hdm.
  pose proof (Z.mod_pos_bound (m1 * 2 ^ sh) m2 ltac:(lia)) as Hmb.
  unfold Z.div, Z.modulo in Hdm, Hmb.
  destruct (Z.div_eucl (m1 * 2 ^ sh) m2) as [q r].
  assert (Hp : 0 < 2 ^ sh) by (apply Z.pow_pos_nonneg; lia).
  pose proof (Z.log2_spec m1 H1) as L1. pose proof (Z.log2_spec m2 H2) as L2.
  pose proof (Z.log2_nonneg m1) as N1. pose proof (Z.log2_nonneg m2) as N2.
  assert (Ed : delta = Z.log2 m1 + e1 - (Z.log2 m2 + e2))
    by (unfold delta; rewrite !Zdigits2_log2 by lia; lia).
  assert (He' : e' <= delta - prec) by (unfold e', SpecFloat.fexp; lia).
  (* the dividend has at least [prec] bits more than the divisor *)
  set (k := Z.log2 m1 + sh - Z.succ (Z.log2 m2)).
  assert (Hk : 0 <= k) by (unfold k, sh; lia).
  assert (Hlow : 2 ^ k * 2 ^ Z.succ (Z.log2 m2) <= m1 * 2 ^ sh).
  { rewrite <- Z.pow_add_r by lia.
    replace (k + Z.succ (Z.log2 m2)) with (Z.log2 m1 + sh) by (unfold k; lia).
    rewrite Z.pow_add_r by lia. apply Z.mul_le_mono_nonneg_r; lia. }
  assert (Hup : m1 * 2 ^ sh < 2 ^ (k + 2) * 2 ^ Z.log2 m2).
  { rewrite <- Z.pow_add_r by lia.
    replace (k + 2 + Z.log2 m2) with (Z.succ (Z.log2 m1) + sh) by (unfold k; lia).
    rewrite Z.pow_add_r by lia. apply Z.mul_lt_mono_pos_r; lia. }
  assert (Hpk : 0 < 2 ^ k) by (apply Z.pow_pos_nonneg; lia).
  assert (Hn : 0 < m1 * 2 ^ sh) by (apply Z.mul_pos_pos; lia).
  assert (Hq0 : 0 <= q) by nia.
  assert (Hq1 : 2 ^ k <= q).
  { assert (2 ^ k < q + 1); [|lia].
    apply Z.mul_lt_mono_pos_r with (2 ^ Z.succ (Z.log2 m2));
      [apply Z.pow_pos_nonneg; lia|].
    apply Z.le_lt_trans with (m1 * 2 ^ sh); [exact Hlow|].
    apply Z.lt_le_trans with ((q + 1) * m2); [nia|].
    apply Z.mul_le_mono_nonneg_l; lia. }
  assert (Hq2 : q < 2 ^ (k + 2)).
  { apply Z.mul_lt_mono_pos_r with (2 ^ Z.log2 m2);
      [apply Z.pow_pos_nonneg; lia|].
    apply Z.le_lt_trans with (m1 * 2 ^ sh); [|exact Hup].
    apply Z.le_trans with (q * m2); [|nia].
    apply Z.mul_le_mono_nonneg_l; lia. }
  split; [lia|].
  rewrite Zdigits2_log2 by lia.
  assert (k <= Z.log2 q) by (apply Z.log2_le_pow2; lia).
  assert (Z.log2 q < k + 2) by (apply Z.log2_lt_pow2; lia).
  unfold k, sh in *. lia.
Qed.

(** The quotient of two finite numbers whose leading bits are not too
    far apart is a normal number: neither an infinity, nor zero, nor
    subnormal. *)
Lemma SFdiv_normal sx mx ex sy my ey :
  let delta := Zpos (digits2_pos mx) + ex - (Zpos (digits2_pos my) + ey) in
  emin + prec + 1 <= delta -> delta + 2 <= emax ->
  exists m e,
    SFdiv prec emax (S754_finite sx mx ex) (S754_finite sy my ey)
    = S754_finite (xorb sx sy) m e /\
    bounded prec emax m e = true /\ emin < e.
Proof.
  intros delta Hlo Hhi.
  pose proof (SFdiv_valid prec emax (S754_finite sx mx ex) (S754_finite sy my ey)) as Hv.
  unfold SFdiv in *.
  pose proof (SFdiv_core_binary_digits prec emax (Zpos mx) ex (Zpos my) ey
                ltac:(lia) ltac:(lia)) as H1.
  pose proof (SFdiv_core_binary_range (Zpos mx) ex (Zpos my) ey
                ltac:(lia) ltac:(lia)) as H2.
  cbv zeta in H2. cbn [Zdigits2] in H2. fold delta in H2.
  specialize (H2 ltac:(lia)).
  destruct (SFdiv_core_binary prec emax (Z.pos mx) ex (Z.pos my) ey) as [[q e'] l].
  destruct H1 as [_ He']. destruct H2 as [Hq Hr].
  destruct (binary_round_aux_normal (xorb sx sy) q e' l Hq He' ltac:(lia) ltac:(lia))
    as (m & e & E & He).
  rewrite E in Hv |- *. exists m, e. auto.
Qed.

Lemma rnd_divide k N :
  0 <= k -> (2 ^ k | N) -> (2 ^ k | rnd prec emax N).
Proof.
  intros Hk Hd. unfold rnd.
  pose proof (rexp_nonneg prec emax N) as Hj.
  destruct (Z.le_gt_cases k (rexp prec emax N)) as [H|H].
  - apply Z.divide_mul_r.
    exists (2 ^ (rexp prec emax N - k)).
    rewrite <- Z.pow_add_r by lia. f_equal. lia.
  - fold (rnd prec emax N). rewrite rnd_exact; [exact Hd|exact _|].
    apply Z.mod_divide; [apply Z.pow_nonzero; lia|].
    apply Z.divide_trans with (2 ^ k); [|exact Hd].
    exists (2 ^ (k - rexp prec emax N)).
    rewrite <- Z.pow_add_r by lia. f_equal. lia.
Qed.

Lemma rnd_pow2 a :
  emin - scale_exp <= a -> rnd prec emax (2 ^ a) = 2 ^ a.
Proof.
  intros Ha. apply rnd_exact; [exact _|].
  assert (Hr : rexp prec emax (2 ^ a) <= a).
  { unfold rexp. rewrite Z.log2_pow2 by lia. lia. }
  pose proof (rexp_nonneg prec emax (2 ^ a)) as H0.
  apply Z.mod_divide; [apply Z.pow_nonzero; lia|].
  exists (2 ^ (a - rexp prec emax (2 ^ a))).
  rewrite <- Z.pow_add_r by lia. f_equal. lia.
Qed.

End QuotientRange.

(** ** Integers as binary64 numbers *)

Lemma int_float_le B B' x : B <= B' -> int_float B x -> int_float B' x.
Proof.
  intros HB. destruct x as [| | |s m e]; cbn [int_float]; auto.
  intros (Hb & Hd & Hle). repeat split; auto.
  apply Z.le_trans with (B * 2 ^ (- scale_exp)); [exact Hle|].
  apply Z.mul_le_mono_nonneg_r; [apply Z.pow_nonneg|]; lia.
Qed.

(** What rounds to an integer value of magnitude at most [2^j] is an
    integer of that magnitude. *)
Lemma rounds_to_int_float j s N r :
  0 <= j <= 65 ->
  0 < N -> (2 ^ (- scale_exp) | N) -> N <= 2 ^ j * 2 ^ (- scale_exp) ->
  rounds_to prec64 emax64 s (rnd prec64 emax64 N) r ->
  int_float (2 ^ j) r.
Proof.
  intros Hj HN Hd Hle Hr.
  assert (Hc : 0 < 2 ^ (- scale_exp)) by (apply Z.pow_pos_nonneg; unfold scale_exp; lia).
  assert (Hup : rnd prec64 emax64 N <= 2 ^ j * 2 ^ (- scale_exp)).
  { rewrite <- Z.pow_add_r by (unfold scale_exp; lia).
    rewrite <- (rnd_pow2 prec64 emax64 (j + - scale_exp))
      by (unfold emin, prec64, emax64, scale_exp; lia).
    apply rnd_mono; [exact _| |rewrite Z.pow_add_r by (unfold scale_exp; lia); exact Hle].
    unfold tiny, emin, prec64, emax64, scale_exp. cbn. lia. }
  assert (Hdiv : (2 ^ (- scale_exp) | rnd prec64 emax64 N)).
  { apply rnd_divide; [exact _|unfold scale_exp; lia|exact Hd]. }
  destruct r as [| s' | | s' m e]; cbn [rounds_to] in Hr; try contradiction.
  - exfalso. destruct Hr as [_ Hr].
    assert (2 ^ j * 2 ^ (- scale_exp) < 2 ^ (emax64 - scale_exp)); [|lia].
    rewrite <- Z.pow_add_r by (unfold scale_exp; lia).
    apply Z.pow_lt_mono_r; unfold emax64, scale_exp; lia.
  - destruct Hr as (_ & E & Hb). cbn [int_float]. rewrite E. auto.
Qed.

Lemma f64_of_Z_int_float z :
  Z.abs z <= 2 ^ 64 -> int_float (2 ^ 64) (f64_of_Z z).
Proof.
  intros Hz. destruct (Z.eq_dec z 0) as [->|N]; [exact I|].
  assert (Hc : 0 < 2 ^ (- scale_exp)) by (apply Z.pow_pos_nonneg; unfold scale_exp; lia).
  pose proof (binary_normalize_spec prec64 emax64 z 0
                ltac:(unfold emin, prec64, emax64; lia) N) as H.
  change (0 - scale_exp) with (- scale_exp) in H.
  apply (rounds_to_int_float 64 (z <? 0) (Z.abs z * 2 ^ (- scale_exp))); try lia.
  - apply Z.divide_factor_r.
  - apply Z.mul_le_mono_nonneg_r; lia.
  - exact H.
Qed.

(** Sums and differences of two integers of magnitude at most [2^64]:
    zero or an integer of magnitude at most [2^65], never an infinity
    and never not-a-number. *)
Lemma int_float_sum sx mx ex sy my ey (op : Z -> Z -> Z) r :
  (forall a b, op a b = a + b \/ op a b = a - b) ->
  int_float (2 ^ 64) (S754_finite sx mx ex) ->
  int_float (2 ^ 64) (S754_finite sy my ey) ->
  (let V := op (cond_Zopp sx (Zpos mx * 2 ^ (ex - scale_exp)))
               (cond_Zopp sy (Zpos my * 2 ^ (ey - scale_exp))) in
   if V =? 0 then r = S754_zero false
   else rounds_to prec64 emax64 (V <? 0) (rnd prec64 emax64 (Z.abs V)) r) ->
  int_float (2 ^ 65) r.
Proof.
  intros Hop (Bx & Dx & Lx) (By & Dy & Ly) H. cbv zeta in H.
  set (X := Zpos mx * 2 ^ (ex - scale_exp)) in *.
  set (Y := Zpos my * 2 ^ (ey - scale_exp)) in *.
  set (c := 2 ^ (- scale_exp)) in *.
  assert (Hc : 0 < c) by (apply Z.pow_pos_nonneg; unfold scale_exp; lia).
  assert (HX : 0 < X) by (apply Z.mul_pos_pos; [lia|apply Z.pow_pos_nonneg];
                          destruct (bounded_rexp prec64 emax64 mx ex Bx);
                          unfold emin, prec64, emax64, scale_exp in *; lia).
  assert (HY : 0 < Y) by (apply Z.mul_pos_pos; [lia|apply Z.pow_pos_nonneg];
                          destruct (bounded_rexp prec64 emax64 my ey By);
                          unfold emin, prec64, emax64, scale_exp in *; lia).
  set (V := op (cond_Zopp sx X) (cond_Zopp sy Y)) in *.
  assert (HV : (c | V) /\ Z.abs V <= 2 ^ 65 * c).
  { assert (E65 : 2 ^ 65 = 2 ^ 64 + 2 ^ 64) by reflexivity.
    rewrite E65, Z.mul_add_distr_r.
    assert (Dx' : (c | cond_Zopp sx X))
      by (destruct sx; cbn [cond_Zopp]; [now apply Z.divide_opp_r|assumption]).
    assert (Dy' : (c | cond_Zopp sy Y))
      by (destruct sy; cbn [cond_Zopp]; [now apply Z.divide_opp_r|assumption]).
    unfold V. clear H. clearbody X Y c.
    destruct (Hop (cond_Zopp sx X) (cond_Zopp sy Y)) as [-> | ->]; split.
    - now apply Z.divide_add_r.
    - destruct sx, sy; cbn [cond_Zopp]; lia.
    - now apply Z.divide_sub_r.
    - destruct sx, sy; cbn [cond_Zopp]; lia. }
  destruct HV as [DV LV].
  destruct (Z.eqb_spec V 0) as [E|N]; [now rewrite H|].
  apply (rounds_to_int_float 65 (V <? 0) (Z.abs V)); try lia.
  - now apply Z.divide_abs_r.
  - exact H.
Qed.

Lemma int_float_sub x y :
  int_float (2 ^ 64) x -> int_float (2 ^ 64) y ->
  int_float (2 ^ 65) (SFsub prec64 emax64 x y).
Proof.
  intros Hx Hy.
  destruct x as [sx| | |sx mx ex], y as [sy| | |sy my ey]; try contradiction.
  - now destruct sx, sy.
  - cbn [SFsub]. apply (int_float_le (2 ^ 64)); [lia|exact Hy].
  - cbn [SFsub]. apply (int_float_le (2 ^ 64)); [lia|exact Hx].
  - apply (int_float_sum sx mx ex sy my ey Z.sub); auto.
    apply (SFsub_finite prec64 emax64); [apply Hx|apply Hy].
Qed.

Lemma int_float_add x y :
  int_float (2 ^ 64) x -> int_float (2 ^ 64) y ->
  int_float (2 ^ 65) (SFadd prec64 emax64 x y).
Proof.
  intros Hx Hy.
  destruct x as [sx| | |sx mx ex], y as [sy| | |sy my ey]; try contradiction.
  - now destruct sx, sy.
  - cbn [SFadd]. apply (int_float_le (2 ^ 64)); [lia|exact Hy].
  - cbn [SFadd]. apply (int_float_le (2 ^ 64)); [lia|exact Hx].
  - apply (int_float_sum sx mx ex sy my ey Z.add); auto.
    apply (SFadd_finite prec64 emax64); [apply Hx|apply Hy].
Qed.

Lemma int_float_finite B x : int_float B x -> is_finite x = true.
Proof. destruct x; cbn; auto; contradiction. Qed.

(** Neither operation raises a flag on such operands. *)
Lemma arith_flag_int_float x y r :
  int_float (2 ^ 64) x -> int_float (2 ^ 64) y -> int_float (2 ^ 65) r ->
  arith_flag x y r = None.
Proof.
  intros Hx Hy Hr. unfold arith_flag.
  destruct r; cbn in Hr |- *; try contradiction; now rewrite ?andb_false_r.
Qed.

(** The position of the leading bit of an integer between 1 and
    [2^65]. *)
Lemma int_float_digits s m e :
  int_float (2 ^ 65) (S754_finite s m e) ->
  1 <= Zpos (digits2_pos m) + e <= 66.
Proof.
  intros (Hb & Hd & Hle).
  destruct (bounded_rexp prec64 emax64 m e Hb) as [He _].
  unfold emin, prec64, emax64 in He.
  assert (Hc : 0 < 2 ^ (- scale_exp)) by (apply Z.pow_pos_nonneg; unfold scale_exp; lia).
  assert (Hp : 0 < 2 ^ (e - scale_exp)) by (apply Z.pow_pos_nonneg; unfold scale_exp; lia).
  set (V := Zpos m * 2 ^ (e - scale_exp)) in *.
  assert (HV : 0 < V) by (apply Z.mul_pos_pos; lia).
  assert (Hlow : 2 ^ (- scale_exp) <= V).
  { destruct Hd as [q Hq]. assert (0 < q) by nia. nia. }
  assert (Hlog : Z.log2 V = Z.log2 (Zpos m) + (e - scale_exp)).
  { unfold V. rewrite Z.log2_mul_pow2; unfold scale_exp; lia. }
  assert (L1 : - scale_exp <= Z.log2 V).
  { rewrite <- (Z.log2_pow2 (- scale_exp)) by (unfold scale_exp; lia).
    now apply Z.log2_le_mono. }
  assert (L2 : Z.log2 V <= 65 + - scale_exp).
  { rewrite <- (Z.log2_pow2 (65 + - scale_exp)) by (unfold scale_exp; lia).
    apply Z.log2_le_mono. rewrite Z.pow_add_r by (unfold scale_exp; lia). exact Hle. }
  rewrite digits2_log2. unfold scale_exp in *. lia.
Qed.

Lemma div_flag_int_float x y :
  int_float (2 ^ 65) x -> int_float (2 ^ 65) y ->
  flag_left (div_flag x y (SFdiv prec64 emax64 x y)) = false.
Proof.
  intros Hx Hy.
  destruct x as [sx| | |sx mx ex], y as [sy| | |sy my ey]; try contradiction;
    try reflexivity.
  pose proof (int_float_digits sx mx ex Hx) as Dx.
  pose proof (int_float_digits sy my ey Hy) as Dy.
  destruct (SFdiv_normal prec64 emax64 sx mx ex sy my ey) as (m & e & E & Hb & He).
  { cbv zeta. unfold emin, prec64, emax64. lia. }
  { cbv zeta. unfold emax64. lia. }
  rewrite E. unfold div_flag. cbn [is_nan is_finite_nonzero is_zero is_finite is_inf andb].
  assert (Ht : is_tiny (S754_finite (xorb sx sy) m e) = false).
  { cbn [is_tiny]. apply Z.ltb_ge.
    unfold bounded, canonical_mantissa in Hb. apply andb_prop in Hb.
    destruct Hb as [Hc _]. apply Z.eqb_eq in Hc.
    unfold fexp, emin, prec64, emax64 in *. lia. }
  rewrite Ht. reflexivity.
Qed.

#[local] Close Scope Z_scope.

(** ** The three ufuncs on integer bands *)

Lemma flag_raised_left k flags :
  forallb (fun o => negb (flag_left o)) flags = true ->
  k = FPover \/ k = FPunder ->
  flag_raised k flags = false.
Proof.
  intros H Hk. unfold flag_raised.
  induction flags as [|o flags IH]; [reflexivity|].
  cbn [forallb existsb] in *. apply andb_prop in H. destruct H as [Ho H].
  rewrite (IH H), orb_false_r.
  destruct o as [[]|]; destruct Hk as [-> | ->]; try reflexivity; discriminate.
Qed.

(** Flags that cell 10 has set to ['ignore'] abort nothing, whatever
    the error state was before. *)
Lemma fp_check_left st flags :
  forallb (fun o => negb (flag_left o)) flags = true ->
  fp_check (ndvi_errstate st) flags = None.
Proof.
  intros H. unfold fp_check. cbn [filter mode_of ndvi_errstate seterr or_keep
    err_divide err_over err_under err_invalid errmode_eqb].
  rewrite (flag_raised_left FPover flags H) by auto.
  rewrite (flag_raised_left FPunder flags H) by auto.
  now rewrite !andb_false_r.
Qed.

Lemma ufunc2_quiet st p f a b s :
  broadcast_shapes (shape a) (shape b) = Some s ->
  (forall k, flag_left (snd (f (cast (dt a) p (get a s k))
                               (cast (dt b) p (get b s k)))) = false) ->
  ufunc2 (ndvi_errstate st) p f a b =
  Ok {| dt := p; shape := s;
        data := map (fun k => fst (f (cast (dt a) p (get a s k))
                                     (cast (dt b) p (get b s k))))
                    (seq 0 (size_of s)) |}.
Proof.
  intros Hs Hq. unfold ufunc2. rewrite Hs, fp_check_left.
  - now rewrite map_map.
  - rewrite map_map. apply forallb_forall. intros o Ho.
    apply in_map_iff in Ho. destruct Ho as (k & <- & _). now rewrite Hq.
Qed.

#[local] Open Scope Z_scope.

Lemma int_range_64 d z :
  is_integer d = true -> int_min d <= z <= int_max d -> Z.abs z <= 2 ^ 64.
Proof. destruct d as [[]|[]| |]; try discriminate; cbn; lia. Qed.

Lemma wrap_range d v :
  is_integer d = true -> int_min d <= wrap d v <= int_max d.
Proof.
  destruct d as [w|w| |]; try discriminate; intros _; unfold wrap, int_min, int_max.
  - assert (0 < 2 ^ bits w) by (destruct w; cbn; lia).
    pose proof (Z.mod_pos_bound v (2 ^ bits w)). lia.
  - assert (E : 2 ^ bits w = 2 * 2 ^ (bits w - 1)) by (destruct w; reflexivity).
    assert (0 < 2 ^ (bits w - 1)) by (destruct w; cbn; lia).
    pose proof (Z.mod_pos_bound (v + 2 ^ (bits w - 1)) (2 ^ bits w)). lia.
Qed.

(** An element read from an integer band, within its bounds or not. *)
Lemma int_band_nth d l i :
  is_integer d = true -> forallb (has_dtype d) l = true ->
  exists z, nth i l (SInt 0) = SInt z /\ Z.abs z <= 2 ^ 64.
Proof.
  intros Hi Hl. destruct (nth_in_or_default i l (SInt 0)) as [H|H].
  - rewrite forallb_forall in Hl. apply Hl in H.
    destruct (has_dtype_integer d _ Hi H) as (z & E & Hz).
    exists z. split; [exact E|]. now apply (int_range_64 d).
  - exists 0. split; [exact H|]. cbn. lia.
Qed.

Lemma int_band_astype a s k :
  is_integer (dt a) = true -> forallb (has_dtype (dt a)) (data a) = true ->
  exists z, cast Float64 Float64 (get (astype_float a) s k) = SFlt (f64_of_Z z)
            /\ Z.abs z <= 2 ^ 64.
Proof.
  intros Hi Hl. unfold get, astype_float. cbn [shape data].
  set (i := source_index (shape a) s k).
  destruct (nth_in_or_default i (map (fun x => SFlt (to_float64 (dt a) x)) (data a)) (SInt 0))
    as [H|H].
  - apply in_map_iff in H. destruct H as (x & E & Hx).
    rewrite forallb_forall in Hl. apply Hl in Hx.
    destruct (has_dtype_integer (dt a) x Hi Hx) as (z & -> & Hz).
    exists z. rewrite <- E. split; [reflexivity|]. now apply (int_range_64 (dt a)).
  - exists 0. rewrite H. split; [reflexivity|]. cbn. lia.
Qed.

Lemma promote_integers a b :
  is_integer a = true -> is_integer b = true ->
  is_integer (promote_types a b) = true \/ promote_types a b = Float64.
Proof. destruct a as [[]|[]| |], b as [[]|[]| |]; try discriminate; auto. Qed.

(** The sum of two elements of integer bands, as the division reads
    it. *)
Lemma int_band_sum dn dr zn zr :
  is_integer dn = true -> is_integer dr = true ->
  Z.abs zn <= 2 ^ 64 -> Z.abs zr <= 2 ^ 64 ->
  let p := promote_types dn dr in
  flag_left (snd (add_scalar p (cast dn p (SInt zn)) (cast dr p (SInt zr)))) = false /\
  int_float (2 ^ 65)
    (to_float64 p (fst (add_scalar p (cast dn p (SInt zn)) (cast dr p (SInt zr))))).
Proof.
  intros Hn Hr Zn Zr p.
  destruct (promote_integers dn dr Hn Hr) as [Hp|Hp]; fold p in Hp.
  - assert (E : add_scalar p (cast dn p (SInt zn)) (cast dr p (SInt zr))
                = (SInt (wrap p (zn + zr)), None))
      by (destruct p; try discriminate; reflexivity).
    rewrite E. split; [reflexivity|]. cbn [fst to_float64].
    apply (int_float_le (2 ^ 64)); [lia|].
    apply f64_of_Z_int_float. apply (int_range_64 p); [exact Hp|].
    now apply wrap_range.
  - rewrite Hp. cbn [cast add_scalar to_float64 flt_of fst snd].
    pose proof (f64_of_Z_int_float zn Zn) as In.
    pose proof (f64_of_Z_int_float zr Zr) as Ir.
    pose proof (int_float_add _ _ In Ir) as Is.
    split; [|exact Is].
    now rewrite (arith_flag_int_float _ _ _ In Ir Is).
Qed.

#[local] Close Scope Z_scope.

(** X7. On bands of integer dtypes the computation does not
    depend on the error state it is run in: whatever the settings,
    overflow and underflow on ['raise'] included, it raises the
    [ValueError] of broadcasting when the shapes cannot be broadcast
    and returns a float64 array of the broadcast shape otherwise. No
    operation of the three overflows or underflows on integers. *)
Theorem ndvi_integer_bands st red nir :
  is_integer (dt red) = true -> is_integer (dt nir) = true ->
  forallb (has_dtype (dt red)) (data red) = true ->
  forallb (has_dtype (dt nir)) (data nir) = true ->
  match broadcast_shapes (shape nir) (shape red) with
  | None => ndvi_value st red nir = Raise ValueError_broadcast
  | Some s =>
      ndvi_value st red nir = ndvi_value default_errstate red nir /\
      exists out, ndvi_value st red nir = Ok out /\ shape out = s /\ dt out = Float64
  end.
Proof.
  intros Hir Hin Hr Hn.
  assert (Hall : forall st',
             match broadcast_shapes (shape nir) (shape red) with
             | None => ndvi_value st' red nir = Raise ValueError_broadcast
             | Some s =>
                 ndvi_value st' red nir =
                 Ok {| dt := Float64; shape := s;
                       data := map (fun k =>
                                 SFlt (SFdiv prec64 emax64
                                   (SFsub prec64 emax64
                                      (flt_of (cast Float64 Float64 (get (astype_float nir) s k)))
                                      (flt_of (cast Float64 Float64 (get (astype_float red) s k))))
                                   (to_float64 (promote_types (dt nir) (dt red))
                                      (fst (add_scalar (promote_types (dt nir) (dt red))
                                              (cast (dt nir) (promote_types (dt nir) (dt red))
                                                    (get nir s k))
                                              (cast (dt red) (promote_types (dt nir) (dt red))
                                                    (get red s k)))))))
                               (seq 0 (size_of s)) |}
             end).
  { intros st'. unfold ndvi_value, ndvi. fold (ndvi_errstate st'). cbn [snd].
    unfold subtract, add, true_divide.
    destruct (broadcast_shapes (shape nir) (shape red)) as [s|] eqn:Hs.
    2: { unfold ufunc2 at 1. cbn [astype_float shape]. now rewrite Hs. }
    (* the subtraction *)
    rewrite (ufunc2_quiet st' Float64 sub_scalar (astype_float nir) (astype_float red) s Hs).
    2: { intros k.
         destruct (int_band_astype nir s k Hin Hn) as (zn & En & Zn).
         destruct (int_band_astype red s k Hir Hr) as (zr & Er & Zr).
         cbn [astype_float dt]. rewrite En, Er. cbn [sub_scalar snd flt_of].
         pose proof (f64_of_Z_int_float zn Zn) as Fn.
         pose proof (f64_of_Z_int_float zr Zr) as Fr.
         now rewrite (arith_flag_int_float _ _ _ Fn Fr (int_float_sub _ _ Fn Fr)). }
    (* the sum *)
    rewrite (ufunc2_quiet st' _ _ nir red s Hs).
    2: { intros k. unfold get.
         destruct (int_band_nth (dt nir) (data nir) (source_index (shape nir) s k) Hin Hn)
           as (zn & -> & Zn).
         destruct (int_band_nth (dt red) (data red) (source_index (shape red) s k) Hir Hr)
           as (zr & -> & Zr).
         apply (int_band_sum (dt nir) (dt red) zn zr Hin Hir Zn Zr). }
    cbn [bind].
    (* the quotient *)
    match goal with
    | |- context [ufunc2 _ Float64 div_scalar ?a ?b] =>
        rewrite (ufunc2_quiet st' Float64 div_scalar a b s (broadcast_shapes_refl s))
    end.
    2: { intros k. cbn [dt]. unfold get at 1 4. cbn [shape data].
         set (i := source_index s s k).
         assert (Hnum : int_float (2 ^ 65)
                   (flt_of (cast Float64 Float64
                      (nth i (map (fun k0 => fst (sub_scalar
                                (cast Float64 Float64 (get (astype_float nir) s k0))
                                (cast Float64 Float64 (get (astype_float red) s k0))))
                              (seq 0 (size_of s))) (SInt 0))))).
         { destruct (nth_in_or_default i
                       (map (fun k0 => fst (sub_scalar
                                (cast Float64 Float64 (get (astype_float nir) s k0))
                                (cast Float64 Float64 (get (astype_float red) s k0))))
                            (seq 0 (size_of s))) (SInt 0)) as [H|H].
           - apply in_map_iff in H. destruct H as (j & <- & _).
             destruct (int_band_astype nir s j Hin Hn) as (zn & -> & Zn).
             destruct (int_band_astype red s j Hir Hr) as (zr & -> & Zr).
             cbn [sub_scalar fst flt_of cast to_float64].
             apply int_float_sub; now apply f64_of_Z_int_float.
           - rewrite H. exact I. }
         assert (Hden : int_float (2 ^ 65)
                   (flt_of (cast (promote_types (dt nir) (dt red)) Float64
                      (nth i (map (fun k0 => fst (add_scalar (promote_types (dt nir) (dt red))
                                (cast (dt nir) (promote_types (dt nir) (dt red)) (get nir s k0))
                                (cast (dt red) (promote_types (dt nir) (dt red)) (get red s k0))))
                              (seq 0 (size_of s))) (SInt 0))))).
         { destruct (nth_in_or_default i
                       (map (fun k0 => fst (add_scalar (promote_types (dt nir) (dt red))
                                (cast (dt nir) (promote_types (dt nir) (dt red)) (get nir s k0))
                                (cast (dt red) (promote_types (dt nir) (dt red)) (get red s k0))))
                            (seq 0 (size_of s))) (SInt 0)) as [H|H].
           - apply in_map_iff in H. destruct H as (j & <- & _).
             unfold get.
             destruct (int_band_nth (dt nir) (data nir) (source_index (shape nir) s j) Hin Hn)
               as (zn & -> & Zn).
             destruct (int_band_nth (dt red) (data red) (source_index (shape red) s j) Hir Hr)
               as (zr & -> & Zr).
             cbn [cast flt_of].
             apply (int_band_sum (dt nir) (dt red) zn zr Hin Hir Zn Zr).
           - rewrite H. exact I. }
         cbn [div_scalar snd]. now apply div_flag_int_float. }
    f_equal. f_equal. apply map_ext_in. intros k Hk. apply in_seq in Hk.
    rewrite (get_same (Build_ndarray Float64 s _) s k eq_refl) by lia.
    rewrite (get_same (Build_ndarray (promote_types (dt nir) (dt red)) s _) s k eq_refl)
      by lia.
    cbn [data dt]. rewrite !nth_map_seq by lia.
    reflexivity. }
  pose proof (Hall st) as H1. pose proof (Hall default_errstate) as H2.
  destruct (broadcast_shapes (shape nir) (shape red)) as [s|]; [|exact H1].
  split; [congruence|].
  eexists. split; [exact H1|]. now split.
Qed.

Lemma ndvi_integer_bands_witness :
  ndvi_value errstate_raise red_111 nir_112
  = ndvi_value default_errstate red_111 nir_112 /\
  exists out,
    ndvi_value errstate_raise red_111 nir_112 = Ok out /\
    shape out = [1; 1; 2] /\ dt out = Float64.
Proof.
  apply (ndvi_integer_bands errstate_raise red_111 nir_112); reflexivity.
Defined.

(** * The notebook as a whole *)

Section NotebookProperties.

Variables dataset geometry transform : Type.
Variable resolve : string -> option dataset.
Variable overlaps : dataset -> list geometry -> bool.
Variable read_window :
  dataset -> list geometry -> bool -> option (ndarray * transform).
Variable read_file : string -> option (list geometry).

#[local] Abbreviation run_cell :=
  (run_cell dataset geometry transform resolve overlaps read_window read_file).
#[local] Abbreviation run_cells :=
  (run_cells dataset geometry transform resolve overlaps read_window read_file).
#[local] Abbreviation run_all :=
  (run_all dataset geometry transform resolve overlaps read_window read_file).
#[local] Abbreviation mask :=
  (mask dataset geometry transform overlaps read_window).
#[local] Abbreviation read_band :=
  (read_band dataset geometry transform resolve overlaps read_window).

(** What a read cell does to the kernel, the opening and the closing
    of the dataset taken together: it binds its two names or nothing. *)
Lemma read_band_net name url_of bind_band (k : kernel geometry transform) :
  read_band name url_of bind_band k =
  if negb (imported (names k)) then (k, Some (NameError "rasterio"))
  else match url_of (names k) with
       | None => (k, Some (NameError name))
       | Some url =>
           match resolve url with
           | None => (k, Some (LibError RasterioIOError))
           | Some ds =>
               match mask_gdf (names k) with
               | None => (k, Some (NameError "mask_gdf"))
               | Some shapes =>
                   match mask ds shapes true with
                   | Ok (a, t) =>
                       (set_names k (bind_band (names k) a t), None)
                   | Raise e => (k, Some (LibError e))
                   end
               end
           end
       end.
Proof.
  destruct k as [g st [hs]]. unfold read_band, rio_open, rio_close, set_rio, set_names.
  cbn [names rio np_err open_handles].
  destruct (negb (imported g)); [reflexivity|].
  destruct (url_of g) as [url|]; [|reflexivity].
  destruct (resolve url) as [ds|]; [|reflexivity].
  cbn [open_handles]. rewrite close_after_open.
  destruct (mask_gdf g) as [shapes|]; [|reflexivity].
  destruct (mask ds shapes true) as [[a t]|e]; reflexivity.
Qed.

Lemma run_cell_handles c k : rio (fst (run_cell c k)) = rio k.
Proof.
  destruct c; cbn [run_cell]; unfold cell_1, cell_3, cell_5, cell_7, cell_8, cell_10;
    rewrite ?read_band_net.
  - reflexivity.
  - reflexivity.
  - destruct (negb _); [reflexivity|]. now destruct (read_file _).
  - destruct (negb _); [reflexivity|]. destruct (b3_url _); [|reflexivity].
    destruct (resolve _); [|reflexivity]. destruct (mask_gdf _); [|reflexivity].
    now destruct (mask _ _ _) as [[a t]|e].
  - destruct (negb _); [reflexivity|]. destruct (b4_url _); [|reflexivity].
    destruct (resolve _); [|reflexivity]. destruct (mask_gdf _); [|reflexivity].
    now destruct (mask _ _ _) as [[a t]|e].
  - destruct (negb _); [reflexivity|].
    destruct (b4 _) as [nir|]; [|reflexivity].
    destruct (b3 _) as [red|]; [|reflexivity].
    destruct (ndvi _ red nir) as [st' [out|e]]; reflexivity.
Qed.

(** X8. Whatever cells are run, in whatever order and however
    often, and whichever of them fail, the datasets open afterwards are
    those open before. *)
Theorem session_keeps_handles cs k :
  open_handles (rio (fst (run_cells cs k))) = open_handles (rio k).
Proof.
  revert k. induction cs as [|c cs IH]; intros k; [reflexivity|].
  cbn [run_cells].
  pose proof (run_cell_handles c k) as Hc.
  destruct (run_cell c k) as [k1 r]. cbn [fst] in Hc.
  specialize (IH k1). destruct (run_cells cs k1) as [k2 errs].
  cbn [fst] in *. congruence.
Qed.


Lemma run_cell_errstate c k :
  let st := np_err k in
  let st' := np_err (fst (run_cell c k)) in
  err_over st' = err_over st /\ err_under st' = err_under st /\
  (st' = st \/ (err_divide st' = ModeIgnore /\ err_invalid st' = ModeIgnore)) /\
  (err_divide st = ModeIgnore -> err_divide st' = ModeIgnore) /\
  (err_invalid st = ModeIgnore -> err_invalid st' = ModeIgnore) /\
  (imported (names k) = true -> imported (names (fst (run_cell c k))) = true) /\
  (c = Cell10 -> imported (names k) = true ->
   err_divide st' = ModeIgnore /\ err_invalid st' = ModeIgnore).
Proof.
  assert (Hkeep : forall k' : kernel geometry transform,
             np_err k' = np_err k ->
             (imported (names k) = true -> imported (names k') = true) ->
             c <> Cell10 ->
             err_over (np_err k') = err_over (np_err k) /\
             err_under (np_err k') = err_under (np_err k) /\
             (np_err k' = np_err k \/
              (err_divide (np_err k') = ModeIgnore /\ err_invalid (np_err k') = ModeIgnore)) /\
             (err_divide (np_err k) = ModeIgnore -> err_divide (np_err k') = ModeIgnore) /\
             (err_invalid (np_err k) = ModeIgnore -> err_invalid (np_err k') = ModeIgnore) /\
             (imported (names k) = true -> imported (names k') = true) /\
             (c = Cell10 -> imported (names k) = true ->
              err_divide (np_err k') = ModeIgnore /\ err_invalid (np_err k') = ModeIgnore)).
  { intros k' -> Hi Hc. repeat split; auto; contradiction. }
  cbv zeta.
  destruct c; cbn [run_cell]; unfold cell_1, cell_3, cell_5, cell_7, cell_8, cell_10;
    rewrite ?read_band_net.
  - apply Hkeep; [reflexivity| |discriminate]. reflexivity.
  - apply Hkeep; [reflexivity| |discriminate]. auto.
  - destruct (negb _); [apply Hkeep; auto; discriminate|].
    destruct (read_file _); apply Hkeep; auto; discriminate.
  - destruct (negb _); [apply Hkeep; auto; discriminate|].
    destruct (b3_url _); [|apply Hkeep; auto; discriminate].
    destruct (resolve _); [|apply Hkeep; auto; discriminate].
    destruct (mask_gdf _); [|apply Hkeep; auto; discriminate].
    destruct (mask _ _ _) as [[a t]|e]; apply Hkeep; auto; discriminate.
  - destruct (negb _); [apply Hkeep; auto; discriminate|].
    destruct (b4_url _); [|apply Hkeep; auto; discriminate].
    destruct (resolve _); [|apply Hkeep; auto; discriminate].
    destruct (mask_gdf _); [|apply Hkeep; auto; discriminate].
    destruct (mask _ _ _) as [[a t]|e]; apply Hkeep; auto; discriminate.
  - clear Hkeep. destruct (imported (names k)) eqn:Hi; cbn [negb].
    2: { cbn [fst]. repeat split; auto; discriminate. }
    assert (Hrun : forall k' : kernel geometry transform,
               np_err k' = ndvi_errstate (np_err k) ->
               imported (names k') = true ->
               err_over (np_err k') = err_over (np_err k) /\
               err_under (np_err k') = err_under (np_err k) /\
               (np_err k' = np_err k \/
                (err_divide (np_err k') = ModeIgnore /\ err_invalid (np_err k') = ModeIgnore)) /\
               (err_divide (np_err k) = ModeIgnore -> err_divide (np_err k') = ModeIgnore) /\
               (err_invalid (np_err k) = ModeIgnore -> err_invalid (np_err k') = ModeIgnore) /\
               (true = true -> imported (names k') = true) /\
               (Cell10 = Cell10 -> true = true ->
                err_divide (np_err k') = ModeIgnore /\ err_invalid (np_err k') = ModeIgnore)).
    { intros k' -> Hi'. repeat split; auto. }
    destruct (b4 _) as [nir|]; [|apply Hrun; [reflexivity|exact Hi]].
    destruct (b3 _) as [red|]; [|apply Hrun; [reflexivity|exact Hi]].
    unfold ndvi.
    destruct (bind _ _) as [out|e]; apply Hrun; first [reflexivity | exact Hi].
Qed.

(** X9. Whatever cells are run, the [over] and [under] settings
    of NumPy's error state stay as they were; the [divide] and
    [invalid] settings are as they were or ['ignore'], once ['ignore']
    they stay so, and they are ['ignore'] after any run of cell 10 that
    follows the imports. *)
Theorem session_errstate cs k :
  err_over (np_err (fst (run_cells cs k))) = err_over (np_err k) /\
  err_under (np_err (fst (run_cells cs k))) = err_under (np_err k) /\
  (np_err (fst (run_cells cs k)) = np_err k \/
   (err_divide (np_err (fst (run_cells cs k))) = ModeIgnore /\
    err_invalid (np_err (fst (run_cells cs k))) = ModeIgnore)) /\
  (imported (names k) = true -> In Cell10 cs ->
   err_divide (np_err (fst (run_cells cs k))) = ModeIgnore /\
   err_invalid (np_err (fst (run_cells cs k))) = ModeIgnore).
Proof.
  assert (Hall : forall cs k,
             err_over (np_err (fst (run_cells cs k))) = err_over (np_err k) /\
             err_under (np_err (fst (run_cells cs k))) = err_under (np_err k) /\
             (np_err (fst (run_cells cs k)) = np_err k \/
              (err_divide (np_err (fst (run_cells cs k))) = ModeIgnore /\
               err_invalid (np_err (fst (run_cells cs k))) = ModeIgnore)) /\
             (err_divide (np_err k) = ModeIgnore ->
              err_divide (np_err (fst (run_cells cs k))) = ModeIgnore) /\
             (err_invalid (np_err k) = ModeIgnore ->
              err_invalid (np_err (fst (run_cells cs k))) = ModeIgnore) /\
             (imported (names k) = true -> In Cell10 cs ->
              err_divide (np_err (fst (run_cells cs k))) = ModeIgnore /\
              err_invalid (np_err (fst (run_cells cs k))) = ModeIgnore)).
  { clear cs k. induction cs as [|c cs IH]; intros k.
    - cbn. repeat split; auto; contradiction.
    - cbn [run_cells].
      pose proof (run_cell_errstate c k) as Hc. cbv zeta in Hc.
      destruct (run_cell c k) as [k1 r]. cbn [fst] in Hc.
      specialize (IH k1). destruct (run_cells cs k1) as [k2 errs]. cbn [fst] in *.
      destruct Hc as (Ho & Hu & Hd & Hsd & Hsi & Him & H10).
      destruct IH as (Ho' & Hu' & Hd' & Hsd' & Hsi' & H10').
      split; [congruence|]. split; [congruence|].
      split; [|split; [auto|split; [auto|]]].
      + destruct Hd' as [E|E]; [|now right].
        rewrite E. exact Hd.
      + intros Hi [->|Hin]; [|exact (H10' (Him Hi) Hin)].
        destruct (H10 eq_refl Hi). auto. }
  destruct (Hall cs k) as (Ho & Hu & Hd & _ & _ & H10). auto.
Qed.


Lemma ndvi_default_raises red nir e :
  snd (ndvi default_errstate red nir) = Raise e -> e = ValueError_broadcast.
Proof.
  intros H. pose proof (ndvi_broadcast default_errstate red nir eq_refl) as B.
  unfold ndvi_value in B. rewrite H in B.
  destruct (broadcast_shapes _ _).
  - destruct B as (out & B & _). discriminate.
  - congruence.
Qed.



(** X12. Running cell 10 a second time changes nothing: the
    kernel it leaves and the way it ends are those of the first run. *)
Theorem cell_10_idempotent k :
  run_cell Cell10 (fst (run_cell Cell10 k)) = run_cell Cell10 k.
Proof.
  cbn [run_cell]. unfold cell_10.
  destruct (imported (names k)) eqn:Hi; cbn [negb].
  2: { cbn [fst]. now rewrite Hi. }
  destruct (b4 (names k)) as [nir|] eqn:E4.
  2: { cbn [fst set_np_err names]. now rewrite ?Hi, ?E4. }
  destruct (b3 (names k)) as [red|] eqn:E3.
  2: { cbn [fst set_np_err names]. now rewrite ?Hi, ?E4, ?E3. }
  unfold ndvi.
  destruct (bind _ _) as [out|e] eqn:E;
    cbn [fst set_np_err set_names names imported b4 b3 np_err negb];
    rewrite ?Hi, ?E4, ?E3; cbn [negb];
    change (seterr (seterr (np_err k) (Some ModeIgnore) None None (Some ModeIgnore))
                   (Some ModeIgnore) None None (Some ModeIgnore))
      with (seterr (np_err k) (Some ModeIgnore) None None (Some ModeIgnore));
    rewrite E; reflexivity.
Qed.



End NotebookProperties.

Lemma session_errstate_witness :
  err_divide (np_err (fst (run_cells nat box unit two_bands band_meets band_window one_mask
                             [Cell7; Cell10; Cell3]
                             (fst (cell_1 box unit (fresh_kernel box unit))))))
  = ModeIgnore /\
  err_invalid (np_err (fst (run_cells nat box unit two_bands band_meets band_window one_mask
                              [Cell7; Cell10; Cell3]
                              (fst (cell_1 box unit (fresh_kernel box unit))))))
  = ModeIgnore.
Proof.
  apply (session_errstate nat box unit two_bands band_meets band_window one_mask
           [Cell7; Cell10; Cell3] (fst (cell_1 box unit (fresh_kernel box unit)))).
  - reflexivity.
  - simpl. auto.
Defined.



